(** * Vuex store: commit / dispatch engine, subscriptions and module install

    A shallow embedding of [src/store.js] and of the [Module] class
    ([module/module.js]).  JavaScript objects used as dictionaries are
    finite maps, ordered key/value objects are association lists in key
    order, and the store's methods are computations in a small
    state-exception-trace monad: they read and write the store, may throw,
    and leave a trace of the calls they make to user code and to the
    console.

    User code is embedded by what the store can see of it.  A mutation
    handler is a function of its two arguments, the state slice and the
    payload, that changes the slice and returns or throws.  An action
    handler is a function of the data of its context and the payload that
    returns a value, returns a promise, or throws.  A subscriber callback
    may call unsubscribe capabilities and may throw.  What handlers do
    through [this], through [context.commit] or [context.dispatch], or
    after the call that started them has returned, is outside the
    embedding, as are the Vue instance behind [store.state], getter
    evaluation, plugins and devtools. *)

From Stdlib Require Import ZArith List String Bool Lia.
From stdpp Require Import base option list strings gmap pretty.

Set Warnings "-register-all".
Local Open Scope string_scope.
Local Open Scope Z_scope.
Local Open Scope list_scope.

(** ** JavaScript values

    State trees, payloads and action results.  Only own data properties of
    plain objects are modelled; prototype properties are not. *)

Inductive value : Type :=
| VUndef
| VNull
| VBool (b : bool)
| VNum (n : Z)
| VStr (s : string)
| VArr (items : list value)
| VObj (fields : list (string * value)).

(** What a [throw] carries: an error raised by the runtime or by the
    library's [assert], or a value thrown by user code. *)
Inductive exn : Type :=
| TypeError (msg : string)
| Thrown (v : value).

Module Obj.

(** [key in fields] *)
Fixpoint has (key : string) (fields : list (string * value)) : bool :=
  match fields with
  | [] => false
  | (k, _) :: rest => if String.eqb k key then true else has key rest
  end.

Fixpoint get (key : string) (fields : list (string * value)) : option value :=
  match fields with
  | [] => None
  | (k, v) :: rest => if String.eqb k key then Some v else get key rest
  end.

(** [fields[key] = v]: an existing key keeps its position, a new one is
    appended. *)
Fixpoint set (key : string) (v : value) (fields : list (string * value))
  : list (string * value) :=
  match fields with
  | [] => [(key, v)]
  | (k, w) :: rest =>
      if String.eqb k key then (k, v) :: rest else (k, w) :: set key v rest
  end.

End Obj.

(** [!!v] *)
Definition truthy (v : value) : bool :=
  match v with
  | VUndef | VNull => false
  | VBool b => b
  | VNum n => negb (n =? 0)
  | VStr s => negb (String.eqb s "")
  | VArr _ | VObj _ => true
  end.

(** [typeof v] *)
Definition typeof (v : value) : string :=
  match v with
  | VUndef => "undefined"
  | VNull => "object"
  | VBool _ => "boolean"
  | VNum _ => "number"
  | VStr _ => "string"
  | VArr _ | VObj _ => "object"
  end.

(** [v[key]] where [v] is known not to be [undefined] or [null]. *)
Definition own_prop (v : value) (key : string) : value :=
  match v with
  | VObj fields => default VUndef (Obj.get key fields)
  | _ => VUndef
  end.

(** [v[key]]: reading a property of [undefined] or [null] throws. *)
Definition get_prop (v : value) (key : string) : exn + value :=
  match v with
  | VUndef => inl (TypeError ("Cannot read properties of undefined (reading '" +:+ key +:+ "')"))
  | VNull => inl (TypeError ("Cannot read properties of null (reading '" +:+ key +:+ "')"))
  | _ => inr (own_prop v key)
  end.

(** String conversion, as done by template literals and by property keys. *)
Fixpoint to_string (v : value) : string :=
  match v with
  | VUndef => "undefined"
  | VNull => "null"
  | VBool true => "true"
  | VBool false => "false"
  | VNum n => pretty n
  | VStr s => s
  | VArr items =>
      (fix join (l : list value) : string :=
         match l with
         | [] => ""
         | x :: rest =>
             let sx := match x with VUndef | VNull => "" | _ => to_string x end in
             match rest with [] => sx | _ => sx +:+ "," +:+ join rest end
         end) items
  | VObj _ => "[object Object]"
  end.

(** ** Handlers, promises, subscribers *)

(** A mutation handler [(state, payload) => void] mutates its state slice
    in place.  [HReturn st'] is a normal return that left the slice as
    [st']; [HThrow st' e] threw [e] after leaving the slice as [st'].
    [mf_id] stands for the identity of the function object. *)
Inductive hresult : Type :=
| HReturn (st' : value)
| HThrow (st' : value) (e : value).

Record mutation_fn : Type := {
  mf_id : nat;
  mf_body : value -> value -> hresult
}.

(** A promise is described by how it settles: fulfilled or rejected at a
    logical time (0 is the moment of the call that produced it), or never. *)
Inductive promise : Type :=
| Fulfilled (t : nat) (v : value)
| Rejected (t : nat) (e : value)
| Pending.

(** What an action handler does when called: returns a plain value,
    returns a promise ([isPromise] tells the two apart), or throws
    synchronously. *)
Inductive aresult : Type :=
| AReturn (v : value)
| APromise (p : promise)
| AThrow (e : value).

(** The data part of the context object handed to an action:
    [state] (local slice) and [rootState]. *)
Record action_context : Type := {
  ctx_state : value;
  ctx_rootState : value
}.

Record action_fn : Type := {
  af_id : nat;
  af_body : action_context -> value -> aresult
}.

(** A raw getter, identified by its function object. *)
Record getter_fn : Type := { gf_id : nat }.

(** [{ type, payload }] *)
Definition mutation : Type := (value * value)%type.
Definition action : Type := (value * value)%type.

(** What a subscriber callback does besides observing its arguments:
    it may call the unsubscribe capabilities of the subscribers listed in
    [se_unsubscribe] (of the list it is itself held in), and may then
    throw. *)
Record sub_effect : Type := {
  se_unsubscribe : list nat;
  se_throw : option value
}.

Definition quiet : sub_effect := {| se_unsubscribe := []; se_throw := None |}.

(** A commit subscriber [fn(mutation, state)]. *)
Record subscriber : Type := {
  sub_id : nat;
  sub_fn : mutation -> value -> sub_effect
}.

(** An action subscriber [{ before?, after?, error? }]. *)
Record action_subscriber : Type := {
  as_id : nat;
  before : option (action -> value -> sub_effect);
  after : option (action -> value -> sub_effect);
  error : option (action -> value -> value -> sub_effect)
}.

(** ** Modules (module/module.js) *)

(** An entry of [actions]: a function, or [{ handler, root }]. *)
Inductive action_def : Type :=
| ActionFn (f : action_fn)
| ActionObj (handler : action_fn) (root : value).

Record rawModule : Type := {
  namespaced_raw : value;
  mutations : option (list (string * mutation_fn));
  actions : option (list (string * action_def));
  getters : option (list (string * getter_fn))
}.

(** [new Module(rawModule, runtime)].  [mstate] is the field [state], which
    the constructor takes from [rawModule.state] (a literal, or a factory
    called once), [{}] when there is none. *)
Inductive Module_ : Type := mkModule {
  runtime : bool;
  _children : list (string * Module_);
  _rawModule : rawModule;
  mstate : value
}.

(** [get namespaced ()] *)
Definition namespaced (m : Module_) : bool := truthy (namespaced_raw (_rawModule m)).

(** [getChild (key)] *)
Fixpoint assoc {A : Type} (key : string) (l : list (string * A)) : option A :=
  match l with
  | [] => None
  | (k, v) :: rest => if String.eqb k key then Some v else assoc key rest
  end.

Definition getChild (m : Module_) (key : string) : option Module_ :=
  assoc key (_children m).

(** The local context of a module closes over its namespace and path; its
    [state] getter is [getNestedState(store.state, path)]. *)
Record localContext : Type := {
  lc_namespace : string;
  lc_path : list string
}.

Record wrappedMutation : Type := {
  wm_handler : mutation_fn;
  wm_local : localContext
}.

Record wrappedAction : Type := {
  wa_handler : action_fn;
  wa_local : localContext
}.

Record wrappedGetter : Type := {
  wg_rawGetter : getter_fn;
  wg_local : localContext
}.

(** ** The store *)

(** [state] is [this._vm._data.$$state]; [_modules] is the root of the
    module collection.  The Vue instances ([_vm], [_watcherVM]) and the
    local getters cache belong to the reactive layer and are left out. *)
Record Store : Type := {
  _committing : bool;
  _actions : gmap string (list wrappedAction);
  _actionSubscribers : list action_subscriber;
  _mutations : gmap string (list wrappedMutation);
  _wrappedGetters : gmap string wrappedGetter;
  _modules : Module_;
  _modulesNamespaceMap : gmap string Module_;
  _subscribers : list subscriber;
  strict : bool;
  _devtoolHook : bool;
  state : value
}.

(** ** Observable events, in the order they happen *)

Inductive event : Type :=
| EMutation (id : nat) (local payload : value) (committing : bool)
| ESubscriber (id : nat) (m : mutation) (st : value)
| EAction (id : nat) (ctx : action_context) (payload : value)
| EBefore (id : nat) (a : action) (st : value)
| EAfter (id : nat) (a : action) (st : value)
| EErrorSub (id : nat) (a : action) (st : value) (err : value)
| EVueSet (parentPath : list string) (key : string) (v : value) (committing : bool)
| EStateSwap (v : value) (committing : bool)
| EConsoleError (msg : string)
| EConsoleWarn (msg : string)
| EConsoleErrorExn (e : exn).

(** ** The monad of store methods

    A computation reads and writes the store, appends to the trace, and
    either returns or throws.  A throw keeps the store as it was at the
    point of the throw: JavaScript has no rollback. *)

Inductive res (A : Type) : Type :=
| Ret (a : A)
| Exc (e : exn).
Arguments Ret {A} a.
Arguments Exc {A} e.

Definition M (A : Type) : Type := Store -> res A * Store * list event.

Definition ret {A} (a : A) : M A := fun s => (Ret a, s, []).

Definition bind {A B} (m : M A) (f : A -> M B) : M B :=
  fun s =>
    match m s with
    | (Ret a, s1, tr1) =>
        let '(r, s2, tr2) := f a s1 in (r, s2, tr1 ++ tr2)
    | (Exc e, s1, tr1) => (Exc e, s1, tr1)
    end.

Definition throw {A} (e : exn) : M A := fun s => (Exc e, s, []).

(** [try { m } catch (e) { h e }] *)
Definition try_catch {A} (m : M A) (h : exn -> M A) : M A :=
  fun s =>
    match m s with
    | (Ret a, s1, tr1) => (Ret a, s1, tr1)
    | (Exc e, s1, tr1) =>
        let '(r, s2, tr2) := h e s1 in (r, s2, tr1 ++ tr2)
    end.

Definition gets {A} (f : Store -> A) : M A := fun s => (Ret (f s), s, []).
Definition modify (f : Store -> Store) : M unit := fun s => (Ret tt, f s, []).
Definition log (ev : event) : M unit := fun s => (Ret tt, s, [ev]).
Definition when (b : bool) (m : M unit) : M unit := if b then m else ret tt.
Definition lift {A} (r : exn + A) : M A :=
  match r with inl e => throw e | inr a => ret a end.

Declare Scope store_scope.
Delimit Scope store_scope with store.
Notation "x <- m ;; k" := (bind m (fun x => k))
  (at level 100, m at next level, right associativity) : store_scope.
Notation "m ;;; k" := (bind m (fun _ => k))
  (at level 100, right associativity) : store_scope.
Local Open Scope store_scope.

(** [l.forEach(f)] *)
Fixpoint forEach {A} (l : list A) (f : A -> M unit) : M unit :=
  match l with
  | [] => ret tt
  | x :: rest => f x ;;; forEach rest f
  end.

(** [l.map(f)] with an effectful [f] *)
Fixpoint mapM {A B} (l : list A) (f : A -> M B) : M (list B) :=
  match l with
  | [] => ret []
  | x :: rest => y <- f x ;; ys <- mapM rest f ;; ret (y :: ys)
  end.

Definition set_committing (b : bool) (s : Store) : Store :=
  {| _committing := b; _actions := _actions s;
     _actionSubscribers := _actionSubscribers s; _mutations := _mutations s;
     _wrappedGetters := _wrappedGetters s; _modules := _modules s;
     _modulesNamespaceMap := _modulesNamespaceMap s;
     _subscribers := _subscribers s; strict := strict s;
     _devtoolHook := _devtoolHook s; state := state s |}.

Definition set_state (v : value) (s : Store) : Store :=
  {| _committing := _committing s; _actions := _actions s;
     _actionSubscribers := _actionSubscribers s; _mutations := _mutations s;
     _wrappedGetters := _wrappedGetters s; _modules := _modules s;
     _modulesNamespaceMap := _modulesNamespaceMap s;
     _subscribers := _subscribers s; strict := strict s;
     _devtoolHook := _devtoolHook s; state := v |}.

Definition set_subscribers (l : list subscriber) (s : Store) : Store :=
  {| _committing := _committing s; _actions := _actions s;
     _actionSubscribers := _actionSubscribers s; _mutations := _mutations s;
     _wrappedGetters := _wrappedGetters s; _modules := _modules s;
     _modulesNamespaceMap := _modulesNamespaceMap s;
     _subscribers := l; strict := strict s;
     _devtoolHook := _devtoolHook s; state := state s |}.

Definition set_actionSubscribers (l : list action_subscriber) (s : Store) : Store :=
  {| _committing := _committing s; _actions := _actions s;
     _actionSubscribers := l; _mutations := _mutations s;
     _wrappedGetters := _wrappedGetters s; _modules := _modules s;
     _modulesNamespaceMap := _modulesNamespaceMap s;
     _subscribers := _subscribers s; strict := strict s;
     _devtoolHook := _devtoolHook s; state := state s |}.

(** ** Promises (the ECMAScript built-ins the store uses) *)

(** [Promise.resolve(v)] for a non-promise [v]: already fulfilled. *)
Definition Promise_resolve (v : value) : promise := Fulfilled 0 v.

(** [p.catch(h)], where [h] returns ([inl]) or throws ([inr]). *)
Definition promise_catch (p : promise) (h : value -> value + value) : promise :=
  match p with
  | Rejected t e =>
      match h e with
      | inl v => Fulfilled t v
      | inr e' => Rejected t e'
      end
  | _ => p
  end.

(** The earliest rejection of a list of promises; among rejections at the
    same time the one earliest in the list is seen first. *)
Fixpoint first_rejection (ps : list promise) : option (nat * value) :=
  match ps with
  | [] => None
  | Rejected t e :: rest =>
      match first_rejection rest with
      | Some (t', e') => if (t <=? t')%nat then Some (t, e) else Some (t', e')
      | None => Some (t, e)
      end
  | _ :: rest => first_rejection rest
  end.

(** When every promise of the list is fulfilled: the time the last one is,
    and the values in list order. *)
Fixpoint all_fulfilled (ps : list promise) : option (nat * list value) :=
  match ps with
  | [] => Some (0%nat, [])
  | Fulfilled t v :: rest =>
      match all_fulfilled rest with
      | Some (t', vs) => Some (Nat.max t t', v :: vs)
      | None => None
      end
  | _ :: _ => None
  end.

(** [Promise.all(ps)] *)
Definition Promise_all (ps : list promise) : promise :=
  match first_rejection ps with
  | Some (t, e) => Rejected t e
  | None =>
      match all_fulfilled ps with
      | Some (t, vs) => Fulfilled t (VArr vs)
      | None => Pending
      end
  end.

(** ** Subscriber lists (genericSubscribe) *)

(** [subs.indexOf(fn)], functions being compared by identity. *)
Fixpoint indexOf {A} (ident : A -> nat) (id : nat) (subs : list A) : Z :=
  match subs with
  | [] => -1
  | x :: rest =>
      if Nat.eqb (ident x) id then 0
      else let i := indexOf ident id rest in
           if i <? 0 then -1 else i + 1
  end.

(** The closure returned by [genericSubscribe], applied to the live list:
    [const i = subs.indexOf(fn); if (i > -1) subs.splice(i, 1)]. *)
Definition unsubscribe {A} (ident : A -> nat) (id : nat) (subs : list A) : list A :=
  let i := indexOf ident id subs in
  if -1 <? i then delete (Z.to_nat i) subs else subs.

(** [genericSubscribe (fn, subs, options)]: the list [subs] after the
    call, and the closure the call returns, as a function on the live
    list. *)
Definition genericSubscribe {A} (ident : A -> nat) (fn : A) (subs : list A)
    (options : value) : list A * (list A -> list A) :=
  (if indexOf ident (ident fn) subs <? 0 then
     if truthy options && truthy (own_prop options "prepend")
     then fn :: subs
     else subs ++ [fn]
   else subs,
   unsubscribe ident (ident fn)).

(** ** State slices *)

(** [getNestedState (state, path)]:
    [path.reduce((state, key) => state[key], state)] *)
Fixpoint getNestedState (st : value) (path : list string) : exn + value :=
  match path with
  | [] => inr st
  | key :: rest =>
      match get_prop st key with
      | inl e => inl e
      | inr v => getNestedState v rest
      end
  end.

(** The root tree after the object found at [path] has been changed to [v]. *)
Fixpoint setNestedState (root : value) (path : list string) (v : value) : value :=
  match path with
  | [] => v
  | key :: rest =>
      match root with
      | VObj fields =>
          VObj (Obj.set key (setNestedState (own_prop root key) rest v) fields)
      | _ => root
      end
  end.

(** A callee can change the contents of an object or array it is handed,
    not its identity, and cannot change a primitive. *)
Definition mutated_in_place (old new : value) : value :=
  match old, new with
  | VObj _, VObj fields => VObj fields
  | VArr _, VArr items => VArr items
  | _, _ => old
  end.

Definition is_ref (v : value) : bool :=
  match v with VObj _ | VArr _ => true | _ => false end.

(** Modelled from the spec: util's [isObject] is not in src; it tells the
    object call form, whose first argument is an object, from the string
    form. *)
Definition isObject (v : value) : bool := is_ref v.

Definition has_before (sub : action_subscriber) : bool := bool_decide (is_Some (before sub)).
Definition has_after (sub : action_subscriber) : bool := bool_decide (is_Some (after sub)).
Definition has_error (sub : action_subscriber) : bool := bool_decide (is_Some (error sub)).

(** What [dispatch] returns: [undefined], or the promise it built around
    [result] for the given action. *)
Inductive dispatched : Type :=
| DUndefined
| DPromise (a : action) (result : promise).

(** The object [{ type, payload, options }] built by [unifyObjectStyle]. *)
Record unified : Type := {
  u_type : value;
  u_payload : value;
  u_options : value
}.

(** How a promise returned by [dispatch] settles. *)
Inductive settled : Type :=
| Resolve (res : value)
| Reject (err : value).

Section StoreMethods.

(** The build flag [__DEV__]. *)
Variable __DEV__ : bool.

(** Modelled from the spec: util's [assert] is not in src; a failed
    assertion fails the call with a [TypeError]. *)
Definition assert (condition : bool) (msg : string) : M unit :=
  if condition then ret tt else throw (TypeError ("[vuex] " +:+ msg)).

Definition is_string (v : value) : bool :=
  match v with VStr _ => true | _ => false end.

(** [unifyObjectStyle (type, payload, options)] *)
Definition unifyObjectStyle (type payload options : value)
  : M unified :=
  let '(type, payload, options) :=
    if isObject type && truthy (own_prop type "type")
    then (own_prop type "type", type, payload)
    else (type, payload, options) in
  when __DEV__
    (assert (is_string type)
       ("expects string as the type, but found " +:+ typeof type +:+ ".")) ;;;
  ret {| u_type := type; u_payload := payload; u_options := options |}.

(** [_withCommit (fn)] *)
Definition _withCommit (fn : M unit) : M unit :=
  committing <- gets _committing ;;
  modify (set_committing true) ;;;
  fn ;;;
  modify (set_committing committing).

(** The getter [local.state]: [getNestedState(store.state, path)] *)
Definition local_state (local : localContext) : M value :=
  st <- gets state ;;
  lift (getNestedState st (lc_path local)).

(** The effect on the root tree of a callee having changed the slice
    [old], found at the path of [local], into [new]. *)
Definition write_local (local : localContext) (old new : value) : M unit :=
  when (is_ref old)
    (modify (fun s =>
       set_state (setNestedState (state s) (lc_path local)
                    (mutated_in_place old new)) s)).

(** [wrappedMutationHandler (payload)]:
    [handler.call(store, local.state, payload)] *)
Definition wrappedMutationHandler (w : wrappedMutation) (payload : value) : M unit :=
  st <- local_state (wm_local w) ;;
  c <- gets _committing ;;
  log (EMutation (mf_id (wm_handler w)) st payload c) ;;;
  match mf_body (wm_handler w) st payload with
  | HReturn st' => write_local (wm_local w) st st'
  | HThrow st' e => write_local (wm_local w) st st' ;;; throw (Thrown e)
  end.

(** A commit subscriber's calls to unsubscribe capabilities, then its
    throw if any. *)
Definition run_sub_effect (eff : sub_effect) : M unit :=
  forEach (se_unsubscribe eff)
    (fun id => modify (fun s =>
       set_subscribers (unsubscribe sub_id id (_subscribers s)) s)) ;;;
  match se_throw eff with
  | Some e => throw (Thrown e)
  | None => ret tt
  end.

Definition run_action_sub_effect (eff : sub_effect) : M unit :=
  forEach (se_unsubscribe eff)
    (fun id => modify (fun s =>
       set_actionSubscribers (unsubscribe as_id id (_actionSubscribers s)) s)) ;;;
  match se_throw eff with
  | Some e => throw (Thrown e)
  | None => ret tt
  end.

(** [sub(mutation, this.state)] *)
Definition call_subscriber (m : mutation) (sub : subscriber) : M unit :=
  st <- gets state ;;
  log (ESubscriber (sub_id sub) m st) ;;;
  run_sub_effect (sub_fn sub m st).

(** The part of [commit] that follows a successful lookup.  [subs] is the
    copy [this._subscribers.slice()]: the loop runs over it while the
    callbacks change the live list. *)
Definition commit_entry (type payload options : value)
    (entry : list wrappedMutation) : M unit :=
  _withCommit
    (forEach entry (fun handler => wrappedMutationHandler handler payload)) ;;;
  subs <- gets _subscribers ;;
  forEach subs (call_subscriber (type, payload)) ;;;
  when (__DEV__ && truthy options && truthy (own_prop options "silent"))
    (log (EConsoleWarn
       ("[vuex] mutation type: " +:+ to_string type
        +:+ ". Silent option has been removed. "
        +:+ "Use the filter functionality in the vue-devtools"))).

(** [commit (_type, _payload, _options)] *)
Definition commit (_type _payload _options : value) : M unit :=
  u <- unifyObjectStyle _type _payload _options ;;
  let type := u_type u in
  let payload := u_payload u in
  let options := u_options u in
  let mutation := (type, payload) in
  entry <- gets (fun s => _mutations s !! to_string type) ;;
  match entry with
  | None =>
      when __DEV__
        (log (EConsoleError ("[vuex] unknown mutation type: " +:+ to_string type)))
  | Some entry => commit_entry type payload options entry
  end.

(** [wrappedActionHandler (payload)] *)
Definition wrappedActionHandler (w : wrappedAction) (payload : value) : M promise :=
  st <- local_state (wa_local w) ;;
  rootState <- gets state ;;
  let ctx := {| ctx_state := st; ctx_rootState := rootState |} in
  log (EAction (af_id (wa_handler w)) ctx payload) ;;;
  res <- match af_body (wa_handler w) ctx payload with
         | AReturn v => ret (Promise_resolve v)
         | APromise p => ret p
         | AThrow e => throw (Thrown e)
         end ;;
  hook <- gets _devtoolHook ;;
  if hook then ret (promise_catch res (fun err => inr err)) else ret res.

Definition call_before (a : action) (sub : action_subscriber) : M unit :=
  match before sub with
  | Some f =>
      st <- gets state ;;
      log (EBefore (as_id sub) a st) ;;;
      run_action_sub_effect (f a st)
  | None => throw (TypeError "sub.before is not a function")
  end.

Definition call_after (a : action) (sub : action_subscriber) : M unit :=
  match after sub with
  | Some f =>
      st <- gets state ;;
      log (EAfter (as_id sub) a st) ;;;
      run_action_sub_effect (f a st)
  | None => throw (TypeError "sub.after is not a function")
  end.

Definition call_error (a : action) (err : value) (sub : action_subscriber) : M unit :=
  match error sub with
  | Some f =>
      st <- gets state ;;
      log (EErrorSub (as_id sub) a st err) ;;;
      run_action_sub_effect (f a st err)
  | None => throw (TypeError "sub.error is not a function")
  end.

(** The [catch (e)] blocks of [dispatch]. *)
Definition report (what : string) (e : exn) : M unit :=
  when __DEV__
    (log (EConsoleWarn ("[vuex] error in " +:+ what +:+ " action subscribers: ")) ;;;
     log (EConsoleErrorExn e)).

(** The [try] block that runs the [before] subscribers, over the copy
    [this._actionSubscribers.slice().filter(sub => sub.before)]. *)
Definition notify_before (a : action) : M unit :=
  try_catch
    (subs <- gets _actionSubscribers ;;
     forEach (filter has_before subs) (call_before a))
    (report "before").

(** The part of [dispatch] that follows a successful lookup. *)
Definition dispatch_entry (action : action) (entry : list wrappedAction)
  : M dispatched :=
  let payload := action.2 in
  notify_before action ;;;
  result <- (if (1 <? length entry)%nat
             then ps <- mapM entry (fun handler => wrappedActionHandler handler payload) ;;
                  ret (Promise_all ps)
             else match entry with
                  | handler :: _ => wrappedActionHandler handler payload
                  | [] => throw (TypeError "entry[0] is not a function")
                  end) ;;
  ret (DPromise action result).

(** [dispatch (_type, _payload)] *)
Definition dispatch (_type _payload : value) : M dispatched :=
  u <- unifyObjectStyle _type _payload VUndef ;;
  let type := u_type u in
  let payload := u_payload u in
  let action := (type, payload) in
  entry <- gets (fun s => _actions s !! to_string type) ;;
  match entry with
  | None =>
      when __DEV__
        (log (EConsoleError ("[vuex] unknown action type: " +:+ to_string type))) ;;;
      ret DUndefined
  | Some entry => dispatch_entry action entry
  end.

(** The fulfilment reaction [res => { ...; resolve(res) }], run on the
    store as it is when [result] is fulfilled. *)
Definition onFulfilled (a : action) (res : value) : M settled :=
  try_catch
    (subs <- gets _actionSubscribers ;;
     forEach (filter has_after subs) (call_after a))
    (report "after") ;;;
  ret (Resolve res).

(** The rejection reaction [error => { ...; reject(error) }]. *)
Definition onRejected (a : action) (err : value) : M settled :=
  try_catch
    (subs <- gets _actionSubscribers ;;
     forEach (filter has_error subs) (call_error a err))
    (report "error") ;;;
  ret (Reject err).

(** The settlement of the promise returned by [dispatch]: the time, and
    the reaction that runs then.  [None] when [result] never settles. *)
Definition settlement (d : dispatched) : option (nat * M settled) :=
  match d with
  | DUndefined => None
  | DPromise a (Fulfilled t res) => Some (t, onFulfilled a res)
  | DPromise a (Rejected t err) => Some (t, onRejected a err)
  | DPromise a Pending => None
  end.

(** [subscribe (fn, options)] *)
Definition subscribe (fn : subscriber) (options : value)
  : M (list subscriber -> list subscriber) :=
  subs <- gets _subscribers ;;
  let '(subs', capability) := genericSubscribe sub_id fn subs options in
  modify (set_subscribers subs') ;;;
  ret capability.

(** [subscribeAction (fn, options)] with [fn] an object; a function [f]
    is first wrapped as [{ before: f }]. *)
Definition subscribeAction (subs : action_subscriber) (options : value)
  : M (list action_subscriber -> list action_subscriber) :=
  live <- gets _actionSubscribers ;;
  let '(live', capability) := genericSubscribe as_id subs live options in
  modify (set_actionSubscribers live') ;;;
  ret capability.

(** [replaceState (state)] *)
Definition replaceState (st : value) : M unit :=
  _withCommit
    (c <- gets _committing ;;
     log (EStateSwap st c) ;;;
     modify (set_state st)).

End StoreMethods.

(** ** Installing modules *)

Definition set_mutations (m : gmap string (list wrappedMutation)) (s : Store) : Store :=
  {| _committing := _committing s; _actions := _actions s;
     _actionSubscribers := _actionSubscribers s; _mutations := m;
     _wrappedGetters := _wrappedGetters s; _modules := _modules s;
     _modulesNamespaceMap := _modulesNamespaceMap s;
     _subscribers := _subscribers s; strict := strict s;
     _devtoolHook := _devtoolHook s; state := state s |}.

Definition set_actions (m : gmap string (list wrappedAction)) (s : Store) : Store :=
  {| _committing := _committing s; _actions := m;
     _actionSubscribers := _actionSubscribers s; _mutations := _mutations s;
     _wrappedGetters := _wrappedGetters s; _modules := _modules s;
     _modulesNamespaceMap := _modulesNamespaceMap s;
     _subscribers := _subscribers s; strict := strict s;
     _devtoolHook := _devtoolHook s; state := state s |}.

Definition set_wrappedGetters (m : gmap string wrappedGetter) (s : Store) : Store :=
  {| _committing := _committing s; _actions := _actions s;
     _actionSubscribers := _actionSubscribers s; _mutations := _mutations s;
     _wrappedGetters := m; _modules := _modules s;
     _modulesNamespaceMap := _modulesNamespaceMap s;
     _subscribers := _subscribers s; strict := strict s;
     _devtoolHook := _devtoolHook s; state := state s |}.

Definition set_modulesNamespaceMap (m : gmap string Module_) (s : Store) : Store :=
  {| _committing := _committing s; _actions := _actions s;
     _actionSubscribers := _actionSubscribers s; _mutations := _mutations s;
     _wrappedGetters := _wrappedGetters s; _modules := _modules s;
     _modulesNamespaceMap := m;
     _subscribers := _subscribers s; strict := strict s;
     _devtoolHook := _devtoolHook s; state := state s |}.

(** Modelled from the spec: module/module-collection.js is not in src.
    [getNamespace (path)] walks from the root along [path], accumulating
    each module's own contribution: its key and the separator when the
    module is namespaced, nothing otherwise. *)
Fixpoint getNamespace (m : Module_) (path : list string) : string :=
  match path with
  | [] => ""
  | key :: rest =>
      match getChild m key with
      | Some child =>
          (if namespaced child then key +:+ "/" else "") +:+ getNamespace child rest
      | None => ""
      end
  end.

(** [path.join(sep)] *)
Fixpoint join (sep : string) (path : list string) : string :=
  match path with
  | [] => ""
  | [x] => x
  | x :: rest => x +:+ sep +:+ join sep rest
  end.

(** [makeLocalContext (store, namespace, path)]: the closures of the
    context close over [namespace] and [path]. *)
Definition makeLocalContext (namespace : string) (path : list string) : localContext :=
  {| lc_namespace := namespace; lc_path := path |}.

(** The double-quote character, as a string. *)
Definition dquote : string := String (Ascii.ascii_of_nat 34) EmptyString.

(** [key in target] *)
Definition in_op (key : string) (target : value) : exn + bool :=
  match target with
  | VObj fields => inr (Obj.has key fields)
  | _ => inl (TypeError ("Cannot use 'in' operator to search for '" +:+ key
                         +:+ "' in " +:+ to_string target))
  end.

(** [Vue.set (target, key, val)] of the host framework, on a plain object:
    the property is defined or overwritten. *)
Definition Vue_set (target : value) (key : string) (val : value) : exn + value :=
  match target with
  | VObj fields => inr (VObj (Obj.set key val fields))
  | _ => inl (TypeError "Cannot set reactive property on undefined, null, or primitive value")
  end.

Section Install.

Variable __DEV__ : bool.

(** [registerMutation (store, type, handler, local)] *)
Definition registerMutation (type : string) (handler : mutation_fn)
    (local : localContext) : M unit :=
  modify (fun s =>
    let entry := default [] (_mutations s !! type) in
    set_mutations
      (<[type := entry ++ [{| wm_handler := handler; wm_local := local |}]]>
         (_mutations s)) s).

(** [registerAction (store, type, handler, local)] *)
Definition registerAction (type : string) (handler : action_fn)
    (local : localContext) : M unit :=
  modify (fun s =>
    let entry := default [] (_actions s !! type) in
    set_actions
      (<[type := entry ++ [{| wa_handler := handler; wa_local := local |}]]>
         (_actions s)) s).

(** [registerGetter (store, type, rawGetter, local)] *)
Definition registerGetter (type : string) (rawGetter : getter_fn)
    (local : localContext) : M unit :=
  present <- gets (fun s => _wrappedGetters s !! type) ;;
  match present with
  | Some _ =>
      when __DEV__ (log (EConsoleError ("[vuex] duplicate getter key: " +:+ type)))
  | None =>
      modify (fun s =>
        set_wrappedGetters
          (<[type := {| wg_rawGetter := rawGetter; wg_local := local |}]>
             (_wrappedGetters s)) s)
  end.

(** Modelled from the spec: util's [forEachValue] is not in src; it calls
    [fn (value, key)] for each entry of [obj], in key order. *)
Definition forEachValue {A} (obj : list (string * A)) (fn : A -> string -> M unit)
  : M unit :=
  forEach obj (fun kv => fn (snd kv) (fst kv)).

(** [module.forEachMutation (fn)] and its siblings *)
Definition forEachMutation (m : Module_) (fn : mutation_fn -> string -> M unit) : M unit :=
  match mutations (_rawModule m) with
  | Some ms => forEachValue ms fn
  | None => ret tt
  end.

Definition forEachAction (m : Module_) (fn : action_def -> string -> M unit) : M unit :=
  match actions (_rawModule m) with
  | Some acts => forEachValue acts fn
  | None => ret tt
  end.

Definition forEachGetter (m : Module_) (fn : getter_fn -> string -> M unit) : M unit :=
  match getters (_rawModule m) with
  | Some gs => forEachValue gs fn
  | None => ret tt
  end.

(** The block [if (module.namespaced) { ... }] of [installModule]. *)
Definition registerNamespace (namespace : string) (path : list string)
    (module : Module_) : M unit :=
  when (namespaced module)
    (present <- gets (fun s => _modulesNamespaceMap s !! namespace) ;;
     when (bool_decide (is_Some present) && __DEV__)
       (log (EConsoleError
          ("[vuex] duplicate namespace " +:+ namespace
           +:+ " for the namespaced module " +:+ join "/" path))) ;;;
     modify (fun s =>
       set_modulesNamespaceMap (<[namespace := module]> (_modulesNamespaceMap s)) s)).

(** The block [if (!isRoot && !hot) { ... }] of [installModule]; the
    [rootState] argument is at every call site the object held in
    [store.state]. *)
Definition setModuleState (path : list string) (module : Module_) (hot : bool)
  : M unit :=
  let isRoot := bool_decide (path = []) in
  when (negb isRoot && negb hot)
    (rootState <- gets state ;;
     parentState <- lift (getNestedState rootState (removelast path)) ;;
     let moduleName := List.last path "" in
     _withCommit
       (when __DEV__
          (present <- lift (in_op moduleName parentState) ;;
           when present
             (log (EConsoleWarn
                ("[vuex] state field " +:+ dquote +:+ moduleName +:+ dquote
                 +:+ " was overridden by a module with the same name at "
                 +:+ dquote +:+ join "." path +:+ dquote)))) ;;;
        c <- gets _committing ;;
        log (EVueSet (removelast path) moduleName (mstate module) c) ;;;
        parentState' <- lift (Vue_set parentState moduleName (mstate module)) ;;
        modify (fun s =>
          set_state (setNestedState (state s) (removelast path) parentState') s))).

(** The registrations of [installModule] for the module itself. *)
Definition registerHandlers (namespace : string) (local : localContext)
    (module : Module_) : M unit :=
  forEachMutation module (fun mutation key =>
    let namespacedType := namespace +:+ key in
    registerMutation namespacedType mutation local) ;;;
  forEachAction module (fun action key =>
    match action with
    | ActionFn f => registerAction (namespace +:+ key) f local
    | ActionObj handler root =>
        let type := if truthy root then key else namespace +:+ key in
        registerAction type handler local
    end) ;;;
  forEachGetter module (fun getter key =>
    let namespacedType := namespace +:+ key in
    registerGetter namespacedType getter local).

(** [installModule (store, rootState, path, module, hot)] *)
Fixpoint installModule (path : list string) (module : Module_) (hot : bool)
    {struct module} : M unit :=
  namespace <- gets (fun s => getNamespace (_modules s) path) ;;
  registerNamespace namespace path module ;;;
  setModuleState path module hot ;;;
  let local := makeLocalContext namespace path in
  registerHandlers namespace local module ;;;
  match module with
  | mkModule _ children _ _ =>
      (fix forEachChild (children : list (string * Module_)) : M unit :=
         match children with
         | [] => ret tt
         | (key, child) :: rest =>
             installModule (path ++ [key]) child hot ;;; forEachChild rest
         end) children
  end.

(** The constructor, [new Store ({ strict })] for the module tree
    [root], up to and including [installModule]; plugins and devtools
    are left out. *)
Definition blank (root : Module_) (strict_ : bool) : Store :=
  {| _committing := false; _actions := ∅; _actionSubscribers := [];
     _mutations := ∅; _wrappedGetters := ∅; _modules := root;
     _modulesNamespaceMap := ∅; _subscribers := []; strict := strict_;
     _devtoolHook := false; state := mstate root |}.

Definition new_Store (root : Module_) (strict_ : bool) : res unit * Store * list event :=
  installModule [] root false (blank root strict_).

End Install.

(** ** Specification vocabulary *)

(** The type a call resolves to: [type.type] for the object style,
    [type] itself otherwise (first lines of [unifyObjectStyle]). *)
Definition call_type (_type : value) : value :=
  if isObject _type && truthy (own_prop _type "type")
  then own_prop _type "type"
  else _type.

(** The payload a call resolves to. *)
Definition call_payload (_type _payload : value) : value :=
  if isObject _type && truthy (own_prop _type "type") then _type else _payload.

(** The root tree after a callee changed the slice [old] found at [path]
    into [new]. *)
Definition written (root : value) (path : list string) (old new : value) : value :=
  if is_ref old then setNestedState root path (mutated_in_place old new) else root.

(** [handlers_run root entry payload tr root']: starting from the root
    tree [root], each handler of [entry], in order, is called once with
    its own module's slice of the current tree and with [payload], under
    the committing flag, and returns; [tr] lists the calls and [root'] is
    the tree they leave. *)
Inductive handlers_run (payload : value)
  : value -> list wrappedMutation -> list event -> value -> Prop :=
| handlers_run_nil root :
    handlers_run payload root [] [] root
| handlers_run_cons root w rest st st' tr root' :
    getNestedState root (lc_path (wm_local w)) = inr st ->
    mf_body (wm_handler w) st payload = HReturn st' ->
    handlers_run payload (written root (lc_path (wm_local w)) st st') rest tr root' ->
    handlers_run payload root (w :: rest)
      (EMutation (mf_id (wm_handler w)) st payload true :: tr) root'.

(** The event of commit subscriber [sub] being called with
    [(mutation, st)]. *)
Definition subscriber_event (m : mutation) (st : value) (sub : subscriber) : event :=
  ESubscriber (sub_id sub) m st.

(** The trace of a failed lookup: one [console.error] in a development
    build, nothing otherwise. *)
Definition unknown_type_report (dev : bool) (what type : string) : list event :=
  if dev then [EConsoleError ("[vuex] unknown " +:+ what +:+ " type: " +:+ type)] else [].


(** The promise an action handler's result is turned into by
    [wrappedActionHandler]; none when the handler throws. *)
Definition handler_promise (r : aresult) : option promise :=
  match r with
  | AReturn v => Some (Promise_resolve v)
  | APromise p => Some p
  | AThrow _ => None
  end.

(** The slice of [root] at [path], [undefined] when there is none. *)
Definition local_of (root : value) (path : list string) : value :=
  match getNestedState root path with
  | inr st => st
  | inl _ => VUndef
  end.

(** The context handler [w] is called with when the root state is [root]. *)
Definition context_of (root : value) (w : wrappedAction) : action_context :=
  {| ctx_state := local_of root (lc_path (wa_local w)); ctx_rootState := root |}.

(** The event of action handler [w] being called. *)
Definition action_event (root payload : value) (w : wrappedAction) : event :=
  EAction (af_id (wa_handler w)) (context_of root w) payload.

(** Called on root state [root] with [payload], handler [w] finds its
    state slice and returns (a value or a promise); [p] is the promise
    [wrappedActionHandler] makes of its result. *)
Definition handler_returns (root payload : value) (w : wrappedAction) (p : promise) : Prop :=
  (exists st, getNestedState root (lc_path (wa_local w)) = inr st) /\
  handler_promise (af_body (wa_handler w) (context_of root w) payload) = Some p.

(** The events of action subscribers being called. *)
Definition before_event (a : action) (st : value) (sub : action_subscriber) : event :=
  EBefore (as_id sub) a st.
Definition after_event (a : action) (st : value) (sub : action_subscriber) : event :=
  EAfter (as_id sub) a st.
Definition error_event (a : action) (st err : value) (sub : action_subscriber) : event :=
  EErrorSub (as_id sub) a st err.

(** How the promise returned by [dispatch] ends up when its reaction runs
    on the store [s_then]: the time, and what the reaction did. *)
Definition outcome (dev : bool) (d : dispatched) (s_then : Store)
  : option (nat * res settled) :=
  match settlement dev d with
  | Some (t, reaction) => Some (t, (reaction s_then).1.1)
  | None => None
  end.

(** The result a settled promise carries over to the promise [dispatch]
    returns. *)
Definition carried (result : promise) : option (nat * res settled) :=
  match result with
  | Fulfilled t v => Some (t, Ret (Resolve v))
  | Rejected t e => Some (t, Ret (Reject e))
  | Pending => None
  end.


(** What the callbacks of one phase do when called with the action and
    the state [st] (and the error, for the [error] phase). *)
Definition before_effect (a : action) (st : value) (sub : action_subscriber)
  : option sub_effect := (fun f => f a st) <$> before sub.
Definition after_effect_of (a : action) (st : value) (sub : action_subscriber)
  : option sub_effect := (fun f => f a st) <$> after sub.
Definition error_effect (a : action) (st err : value) (sub : action_subscriber)
  : option sub_effect := (fun f => f a st err) <$> error sub.

(** The subscribers of [l] that get called when the callbacks behave as
    [cb] says: all of them up to and including the first one that throws,
    together with what that one throws. *)
Fixpoint notified (cb : action_subscriber -> option sub_effect)
    (l : list action_subscriber) : list action_subscriber * option value :=
  match l with
  | [] => ([], None)
  | sub :: rest =>
      match cb sub ≫= se_throw with
      | Some v => ([sub], Some v)
      | None => let '(called, thrown) := notified cb rest in (sub :: called, thrown)
      end
  end.

(** The console output of a [catch] block of [dispatch]. *)
Definition report_trace (dev : bool) (what : string) (thrown : option value) : list event :=
  match thrown with
  | Some v =>
      if dev
      then [EConsoleWarn ("[vuex] error in " +:+ what +:+ " action subscribers: ");
            EConsoleErrorExn (Thrown v)]
      else []
  | None => []
  end.

(** The trace of one subscriber phase of a dispatch. *)
Definition phase_trace (dev : bool) (what : string)
    (cb : action_subscriber -> option sub_effect)
    (ev : action_subscriber -> event) (l : list action_subscriber) : list event :=
  map ev (notified cb l).1 ++ report_trace dev what (notified cb l).2.


(** ** Vocabulary for the install walk *)

(** The module found at [path] below [m]. *)
Fixpoint module_at (m : Module_) (path : list string) : option Module_ :=
  match path with
  | [] => Some m
  | key :: rest =>
      match getChild m key with
      | Some child => module_at child rest
      | None => None
      end
  end.

(** The keys of a children object are distinct, at every level. *)
Fixpoint unique_keys (m : Module_) : Prop :=
  match m with
  | mkModule _ children _ _ =>
      NoDup (map fst children) /\
      (fix all (l : list (string * Module_)) : Prop :=
         match l with
         | [] => True
         | (_, child) :: rest => unique_keys child /\ all rest
         end) children
  end.

(** The states of the module and of all modules below it are plain
    objects. *)
Fixpoint object_states (m : Module_) : Prop :=
  match m with
  | mkModule _ children _ st =>
      (exists fields, st = VObj fields) /\
      (fix all (l : list (string * Module_)) : Prop :=
         match l with
         | [] => True
         | (_, child) :: rest => object_states child /\ all rest
         end) children
  end.

(** [target[key] = v] on a plain object. *)
Definition with_field (target : value) (key : string) (v : value) : value :=
  match target with
  | VObj fields => VObj (Obj.set key v fields)
  | _ => target
  end.

(** The state object of a module once the walk has installed the modules
    below it: each child's state object sits under the child's key. *)
Fixpoint installed_state (m : Module_) : value :=
  match m with
  | mkModule _ children _ st =>
      (fix graft (l : list (string * Module_)) (acc : value) : value :=
         match l with
         | [] => acc
         | (key, child) :: rest => graft rest (with_field acc key (installed_state child))
         end) children st
  end.

(** The console output of the namespace block of [installModule]. *)
Definition duplicate_namespace_report (dev : bool) (namespace : string)
    (path : list string) (present : option Module_) : list event :=
  if bool_decide (is_Some present) && dev
  then [EConsoleError ("[vuex] duplicate namespace " +:+ namespace
                       +:+ " for the namespaced module " +:+ join "/" path)]
  else [].

(** The console output of the state block of [installModule]. *)
Definition override_report (dev : bool) (moduleName : string) (path : list string)
    (fields : list (string * value)) : list event :=
  if dev && Obj.has moduleName fields
  then [EConsoleWarn
          ("[vuex] state field " +:+ dquote +:+ moduleName +:+ dquote
           +:+ " was overridden by a module with the same name at "
           +:+ dquote +:+ join "." path +:+ dquote)]
  else [].

(** The console output of [registerGetter]. *)
Definition duplicate_getter_report (dev : bool) (type : string) : list event :=
  if dev then [EConsoleError ("[vuex] duplicate getter key: " +:+ type)] else [].

(** A step that leaves the state tree, the module tree, the namespace map
    and the flag alone, and replaces no registered getter. *)
Definition registry_step (s s' : Store) : Prop :=
  state s' = state s /\
  _modules s' = _modules s /\
  _modulesNamespaceMap s' = _modulesNamespaceMap s /\
  _committing s' = _committing s /\
  forall type g, _wrappedGetters s !! type = Some g ->
                 _wrappedGetters s' !! type = Some g.


(** The state object [acc] after the children [l] have been installed
    below it, in order. *)
Definition graft_all (l : list (string * Module_)) (acc : value) : value :=
  fold_left (fun acc kc => with_field acc kc.1 (installed_state kc.2)) l acc.


(** ** A small store used for concrete runs

    [new Vuex.Store({ state: { count: 0 }, mutations: { increment },
    actions: { load }, getters: { total }, modules: { a: { state:
    { count: 10 }, mutations: { increment }, actions: { load }, getters:
    { total }, modules: { b: { namespaced: true, state: { n: 1 } } } },
    b: { namespaced: true, state: { n: 2 } } } })] *)

(** [(state, n) => { state.count += n }], which throws on a payload that
    is not a number. *)
Definition increment (id : nat) : mutation_fn :=
  {| mf_id := id;
     mf_body := fun st n =>
       match st, n with
       | VObj fields, VNum k =>
           match Obj.get "count" fields with
           | Some (VNum c) => HReturn (VObj (Obj.set "count" (VNum (c + k)) fields))
           | _ => HReturn st
           end
       | _, _ => HThrow st (VStr "not a number")
       end |}.

(** An action that returns a promise fulfilled at time [t] with [v]. *)
Definition resolves_later (id t : nat) (v : value) : action_fn :=
  {| af_id := id; af_body := fun _ _ => APromise (Fulfilled t v) |}.

(** An action that returns the payload itself, not a promise. *)
Definition returns_payload (id : nat) : action_fn :=
  {| af_id := id; af_body := fun _ payload => AReturn payload |}.

(** An action that returns a promise rejected at time [t] with [e]. *)
Definition rejects_later (id t : nat) (e : value) : action_fn :=
  {| af_id := id; af_body := fun _ _ => APromise (Rejected t e) |}.

Definition namespaced_leaf (n : Z) : Module_ :=
  mkModule false []
    {| namespaced_raw := VBool true; mutations := None; actions := None;
       getters := None |}
    (VObj [("n", VNum n)]).

Definition module_a : Module_ :=
  mkModule false [("b", namespaced_leaf 1)]
    {| namespaced_raw := VUndef;
       mutations := Some [("increment", increment 2)];
       actions := Some [("load", ActionFn (returns_payload 2))];
       getters := Some [("total", {| gf_id := 2 |})] |}
    (VObj [("count", VNum 10)]).

Definition root_module : Module_ :=
  mkModule false [("a", module_a); ("b", namespaced_leaf 2)]
    {| namespaced_raw := VUndef;
       mutations := Some [("increment", increment 1)];
       actions := Some [("load", ActionFn (resolves_later 1 3 (VStr "done")))];
       getters := Some [("total", {| gf_id := 1 |})] |}
    (VObj [("count", VNum 0)]).

(** The store right after construction, in a development build. *)
Definition fresh_store : Store := (new_Store true root_module false).1.2.

(** A commit subscriber that only observes. *)
Definition watcher (id : nat) : subscriber :=
  {| sub_id := id; sub_fn := fun _ _ => quiet |}.

(** A commit subscriber that calls its own unsubscribe capability. *)
Definition once (id : nat) : subscriber :=
  {| sub_id := id;
     sub_fn := fun _ _ => {| se_unsubscribe := [id]; se_throw := None |} |}.

(** A commit subscriber that throws. *)
Definition faulty (id : nat) : subscriber :=
  {| sub_id := id;
     sub_fn := fun _ _ => {| se_unsubscribe := []; se_throw := Some (VStr "boom") |} |}.

(** Action subscribers [{ before }] that observe, and that throw. *)
Definition before_watcher (id : nat) : action_subscriber :=
  {| as_id := id; before := Some (fun _ _ => quiet); after := None; error := None |}.

Definition before_faulty (id : nat) : action_subscriber :=
  {| as_id := id;
     before := Some (fun _ _ => {| se_unsubscribe := []; se_throw := Some (VStr "boom") |});
     after := None; error := None |}.

(** The store with commit subscribers 7 (unsubscribes itself) and 8. *)
Definition watched_store : Store :=
  set_subscribers [once 7; watcher 8] fresh_store.

(** The store with a throwing commit subscriber before an observing one,
    and a throwing [before] subscriber before an observing one. *)
Definition faulty_store : Store :=
  set_actionSubscribers [before_faulty 5; before_watcher 6]
    (set_subscribers [faulty 3; watcher 4] fresh_store).

(** A root state that already has a field named like a module:
    [new Vuex.Store({ state: { a: 1 }, modules: { a: { state: { x: 0 } } } })] *)
Definition plain_leaf : Module_ :=
  mkModule false []
    {| namespaced_raw := VUndef; mutations := None; actions := None; getters := None |}
    (VObj [("x", VNum 0)]).

Definition clash_root : Module_ :=
  mkModule false [("a", plain_leaf)]
    {| namespaced_raw := VUndef; mutations := None; actions := None; getters := None |}
    (VObj [("a", VNum 1)]).


(** The registry entries the walk over [root_module] builds. *)
Definition increment_entry : list wrappedMutation :=
  [{| wm_handler := increment 1; wm_local := makeLocalContext "" [] |};
   {| wm_handler := increment 2; wm_local := makeLocalContext "" ["a"] |}].

Definition load_entry : list wrappedAction :=
  [{| wa_handler := resolves_later 1 3 (VStr "done"); wa_local := makeLocalContext "" [] |};
   {| wa_handler := returns_payload 2; wa_local := makeLocalContext "" ["a"] |}].

(** The promises the two [load] handlers return for payload 5. *)
Definition load_promises : list promise :=
  [Fulfilled 3 (VStr "done"); Fulfilled 0 (VNum 5)].

(** An action that throws before it returns anything. *)
Definition throws_now (id : nat) (e : value) : action_fn :=
  {| af_id := id; af_body := fun _ _ => AThrow e |}.

(** The store with a [load] entry whose second handler throws. *)
Definition throwing_store : Store :=
  set_actions
    (<["load" := [{| wa_handler := returns_payload 1; wa_local := makeLocalContext "" [] |};
                  {| wa_handler := throws_now 2 (VStr "boom");
                     wa_local := makeLocalContext "" [] |};
                  {| wa_handler := returns_payload 3; wa_local := makeLocalContext "" [] |}]]>
       (_actions fresh_store))
    fresh_store.


(** ** Vocabulary of the proofs *)

(** The value of [_committing] an event was performed under, for the
    events that are writes to the state tree. *)
Definition event_committing (ev : event) : option bool :=
  match ev with
  | EMutation _ _ _ c | EVueSet _ _ _ c | EStateSwap _ c => Some c
  | _ => None
  end.

(** Every write of the trace happened with the flag up. *)
Definition guarded (tr : list event) : Prop :=
  Forall (fun ev => event_committing ev <> Some false) tr.

(** [fn] does not lower the flag: started with [_committing] true it
    ends, by returning or by throwing, with [_committing] true, and its
    writes all happen under the flag. *)
Definition keeps_guard {A} (fn : M A) : Prop :=
  forall s, _committing s = true ->
    _committing (fn s).1.2 = true /\ guarded (fn s).2.

(** The subscriber list after the callback's calls to unsubscribe
    capabilities. *)
Definition after_effect {A} (ident : A -> nat) (eff : sub_effect) (subs : list A) : list A :=
  foldl (fun l id => unsubscribe ident id l) subs (se_unsubscribe eff).

(** The console warning about the removed [silent] option. *)
Definition silent_report (dev : bool) (type options : value) : list event :=
  if dev && truthy options && truthy (own_prop options "silent")
  then [EConsoleWarn
          ("[vuex] mutation type: " +:+ to_string type
           +:+ ". Silent option has been removed. "
           +:+ "Use the filter functionality in the vue-devtools")]
  else [].

(** Only console events. *)
Definition console_only (tr : list event) : Prop :=
  Forall (fun ev => match ev with
                    | EConsoleError _ | EConsoleWarn _ | EConsoleErrorExn _ => True
                    | _ => False
                    end) tr.

Definition is_mutation_event (ev : event) : Prop :=
  match ev with EMutation _ _ _ _ => True | _ => False end.

(** A computation that touches nothing of the store but the list of
    action subscribers. *)
Definition subscribers_only {A} (m : M A) : Prop :=
  forall s, (m s).1.2 = set_actionSubscribers (_actionSubscribers (m s).1.2) s.

(** The promises of handlers that are fulfilled at the times and with the
    values listed. *)
Definition fulfilled_with (tvs : list (nat * value)) : list promise :=
  map (fun tv => Fulfilled tv.1 tv.2) tvs.

(** The promise [dispatch] builds its result from. *)
Definition aggregate (ps : list promise) : promise :=
  if (1 <? length ps)%nat then Promise_all ps else default Pending (head ps).

(** Steps of the walk that only fill the registries. *)
Definition registers (m : M unit) : Prop :=
  forall s, (m s).1.1 = Ret tt /\ registry_step s (m s).1.2 /\ console_only (m s).2.

(** What the walk over one module below an object does to the state. *)
Definition grafts (dev : bool) (m : Module_) : Prop :=
  forall parentPath key s fields,
    object_states m ->
    getNestedState (state s) parentPath = inr (VObj fields) ->
    exists s' report rest,
      installModule dev (parentPath ++ [key]) m false s =
        (Ret tt, s',
         report ++ override_report dev key (parentPath ++ [key]) fields
           ++ [EVueSet parentPath key (mstate m) true] ++ rest) /\
      state s' =
        setNestedState (state s) parentPath
          (VObj (Obj.set key (installed_state m) fields)) /\
      _committing s' = _committing s /\
      console_only report /\
      guarded rest.

(** A computation that keeps the module tree [root] and all entries of
    the namespace map whose key is no longer than [bound], [except]
    possibly one. *)
Definition ns_frame {A} (root : Module_) (bound : nat) (except : option string)
    (m : M A) : Prop :=
  forall s, _modules s = root ->
    _modules (m s).1.2 = root /\
    forall k, (String.length k <= bound)%nat -> except <> Some k ->
      _modulesNamespaceMap (m s).1.2 !! k = _modulesNamespaceMap s !! k.

(** A computation that does not change the part [f] of the store. *)
Definition unaffected {A X} (f : Store -> X) (m : M A) : Prop :=
  forall s, f (m s).1.2 = f s.

(** What the walk over one module found at [path] in the module tree does
    to the namespace map: it writes the module's own namespace, when the
    module is namespaced, and longer keys only. *)
Definition writes_own_namespace (dev : bool) (m : Module_) : Prop :=
  forall hot path root,
    module_at root path = Some m ->
    unique_keys m ->
    ns_frame root (String.length (getNamespace root path)) None
      (setModuleState dev path m hot ;;;
       registerHandlers dev (getNamespace root path)
         (makeLocalContext (getNamespace root path) path) m ;;;
       forEach (_children m)
         (fun kc => installModule dev (path ++ [kc.1]) kc.2 hot)) /\
    ns_frame root (String.length (getNamespace root path))
      (if namespaced m then Some (getNamespace root path) else None)
      (installModule dev path m hot).

(** A computation that replaces no registered getter. *)
Definition keeps_getters {A} (m : M A) : Prop :=
  forall s type g, _wrappedGetters s !! type = Some g ->
                   _wrappedGetters (m s).1.2 !! type = Some g.

(** Induction over a module tree, the children of a module coming with
    the property. *)
Section ModuleInduction.

Variable P : Module_ -> Prop.
Hypothesis step : forall r children raw st,
  Forall (fun kc => P kc.2) children -> P (mkModule r children raw st).

Fixpoint Module_ind' (m : Module_) : P m :=
  match m with
  | mkModule r children raw st =>
      step r children raw st
        ((fix go (l : list (string * Module_)) : Forall (fun kc => P kc.2) l :=
            match l with
            | [] => @List.Forall_nil _ (fun kc => P kc.2)
            | (key, child) :: rest =>
                @List.Forall_cons _ (fun kc => P kc.2) (key, child) rest
                  (Module_ind' child) (go rest)
            end) children)
  end.

End ModuleInduction.

(** ** The rest of the [Module] class *)

(** [obj[key] = v] on a children object: an existing key keeps its place,
    a new one comes last. *)
Fixpoint assoc_set {A : Type} (key : string) (v : A) (l : list (string * A))
  : list (string * A) :=
  match l with
  | [] => [(key, v)]
  | (k, w) :: rest =>
      if String.eqb k key then (k, v) :: rest else (k, w) :: assoc_set key v rest
  end.

(** [delete obj[key]] *)
Fixpoint assoc_delete {A : Type} (key : string) (l : list (string * A))
  : list (string * A) :=
  match l with
  | [] => []
  | (k, w) :: rest =>
      if String.eqb k key then assoc_delete key rest else (k, w) :: assoc_delete key rest
  end.

(** [addChild (key, module)] *)
Definition addChild (key : string) (module : Module_) (m : Module_) : Module_ :=
  mkModule (runtime m) (assoc_set key module (_children m)) (_rawModule m) (mstate m).

(** [removeChild (key)] *)
Definition removeChild (key : string) (m : Module_) : Module_ :=
  mkModule (runtime m) (assoc_delete key (_children m)) (_rawModule m) (mstate m).

(** [hasChild (key)]: [key in this._children] *)
Definition hasChild (key : string) (m : Module_) : bool :=
  bool_decide (is_Some (assoc key (_children m))).

(** [update (rawModule)] *)
Definition update (rawModule_ : rawModule) (m : Module_) : Module_ :=
  let old := _rawModule m in
  mkModule (runtime m) (_children m)
    {| namespaced_raw := namespaced_raw rawModule_;
       actions := match actions rawModule_ with
                  | Some acts => Some acts
                  | None => actions old
                  end;
       mutations := match mutations rawModule_ with
                    | Some ms => Some ms
                    | None => mutations old
                    end;
       getters := match getters rawModule_ with
                  | Some gs => Some gs
                  | None => getters old
                  end |}
    (mstate m).

(** ** The rest of the store *)

Definition set_modules (root : Module_) (s : Store) : Store :=
  {| _committing := _committing s; _actions := _actions s;
     _actionSubscribers := _actionSubscribers s; _mutations := _mutations s;
     _wrappedGetters := _wrappedGetters s; _modules := root;
     _modulesNamespaceMap := _modulesNamespaceMap s;
     _subscribers := _subscribers s; strict := strict s;
     _devtoolHook := _devtoolHook s; state := state s |}.

(** The first four assignments of [resetStore]: every registry is a
    fresh empty object. *)
Definition clear_registries (s : Store) : Store :=
  {| _committing := _committing s; _actions := ∅;
     _actionSubscribers := _actionSubscribers s; _mutations := ∅;
     _wrappedGetters := ∅; _modules := _modules s;
     _modulesNamespaceMap := ∅;
     _subscribers := _subscribers s; strict := strict s;
     _devtoolHook := _devtoolHook s; state := state s |}.

Section Rest.

Variable __DEV__ : bool.

(** [resetStore (store, hot)], up to the rebuild of the Vue instance:
    the registries are emptied and the whole module tree is installed
    again, with the hot flag, on the state the store has. *)
Definition resetStore (hot : bool) : M unit :=
  modify clear_registries ;;;
  root <- gets _modules ;;
  installModule __DEV__ [] root true.

(** [local.commit] of [makeLocalContext (store, namespace, path)] *)
Definition local_commit (namespace : string) (_type _payload _options : value) : M unit :=
  if String.eqb namespace "" then commit __DEV__ _type _payload _options
  else
    args <- unifyObjectStyle __DEV__ _type _payload _options ;;
    let payload := u_payload args in
    let options := u_options args in
    if negb (truthy options) || negb (truthy (own_prop options "root")) then
      let type := namespace +:+ to_string (u_type args) in
      known <- gets (fun s => bool_decide (is_Some (_mutations s !! type))) ;;
      if __DEV__ && negb known then
        log (EConsoleError ("[vuex] unknown local mutation type: "
                            +:+ to_string (u_type args) +:+ ", global type: " +:+ type))
      else commit __DEV__ (VStr type) payload options
    else commit __DEV__ (u_type args) payload options.

(** [local.dispatch] of [makeLocalContext (store, namespace, path)];
    [store.dispatch] is the bound function, which takes a type and a
    payload. *)
Definition local_dispatch (namespace : string) (_type _payload _options : value)
  : M dispatched :=
  if String.eqb namespace "" then dispatch __DEV__ _type _payload
  else
    args <- unifyObjectStyle __DEV__ _type _payload _options ;;
    let payload := u_payload args in
    let options := u_options args in
    if negb (truthy options) || negb (truthy (own_prop options "root")) then
      let type := namespace +:+ to_string (u_type args) in
      known <- gets (fun s => bool_decide (is_Some (_actions s !! type))) ;;
      if __DEV__ && negb known then
        log (EConsoleError ("[vuex] unknown local action type: "
                            +:+ to_string (u_type args) +:+ ", global type: " +:+ type)) ;;;
        ret DUndefined
      else dispatch __DEV__ (VStr type) payload
    else dispatch __DEV__ (u_type args) payload.

End Rest.


(** The options a call resolves to: the second argument for the object
    style, the third otherwise. *)
Definition call_options (_type _payload _options : value) : value :=
  if isObject _type && truthy (own_prop _type "type") then _payload else _options.

(** [options && options.root] as a condition *)
Definition to_root (options : value) : bool :=
  truthy options && truthy (own_prop options "root").



(** ** Local getters *)

(** [type.slice (0, n)] and [type.slice (n)] *)
Fixpoint slice_to (n : nat) (s : string) : string :=
  match n, s with
  | S n', String c rest => String c (slice_to n' rest)
  | _, _ => EmptyString
  end.

Fixpoint slice_from (n : nat) (s : string) : string :=
  match n, s with
  | S n', String _ rest => slice_from n' rest
  | _, _ => s
  end.

(** The proxy object built by [makeLocalGetters]: for each local getter
    name the type whose getter of [store.getters] the property reads. *)
Definition gettersProxy : Type := list (string * string).

(** The loop [Object.keys (store.getters).forEach (type => ...)] of
    [makeLocalGetters]; [Object.defineProperty] throws when the property
    is already defined, the descriptor being not configurable. *)
Fixpoint defineLocalGetters (namespace : string) (types : list string)
    (proxy : gettersProxy) : exn + gettersProxy :=
  match types with
  | [] => inr proxy
  | type :: rest =>
      let splitPos := String.length namespace in
      if bool_decide (slice_to splitPos type = namespace) then
        let localType := slice_from splitPos type in
        match assoc localType proxy with
        | Some _ => inl (TypeError ("Cannot redefine property: " +:+ localType))
        | None => defineLocalGetters namespace rest (proxy ++ [(localType, type)])
        end
      else defineLocalGetters namespace rest proxy
  end.

(** [makeLocalGetters (store, namespace)], on the keys [getters] of
    [store.getters] and the cache [store._makeLocalGettersCache]. *)
Definition makeLocalGetters (getters : list string) (namespace : string)
    (cache : gmap string gettersProxy) : exn + gettersProxy * gmap string gettersProxy :=
  match cache !! namespace with
  | Some proxy => inr (proxy, cache)
  | None =>
      match defineLocalGetters namespace getters [] with
      | inl e => inl e
      | inr proxy => inr (proxy, <[namespace := proxy]> cache)
      end
  end.

(** The properties the loop adds for the keys [types]. *)
Definition local_properties (namespace : string) (types : list string) : gettersProxy :=
  map (fun type => (slice_from (String.length namespace) type, type))
    (filter (fun type => slice_to (String.length namespace) type = namespace) types).


(** ** The mixin

    [vuexInit] of mixin.js, the hook that [applyMixin] installs as
    [beforeCreate] (as [init] for Vue 1). *)

Section Mixin.

Variable store_ref : Type.

(** [options.store]: a store, or a function that returns one. *)
Inductive store_option : Type :=
| StoreObject (st : store_ref)
| StoreFunction (f : unit -> store_ref).

(** A component instance: [$options.store], [$options.parent] and
    [$store] ([None] for [undefined]). *)
Inductive component : Type :=
| mkComponent (opt_store : option store_option) (opt_parent : option component)
    (store_ : option store_ref).

Definition opt_store (c : component) : option store_option :=
  match c with mkComponent o _ _ => o end.

Definition opt_parent (c : component) : option component :=
  match c with mkComponent _ p _ => p end.

Definition store_ (c : component) : option store_ref :=
  match c with mkComponent _ _ st => st end.

(** [vuexInit ()], [this] being the component *)
Definition vuexInit (this : component) : component :=
  match opt_store this with
  | Some (StoreFunction f) => mkComponent (opt_store this) (opt_parent this) (Some (f tt))
  | Some (StoreObject st) => mkComponent (opt_store this) (opt_parent this) (Some st)
  | None =>
      match opt_parent this with
      | Some parent =>
          match store_ parent with
          | Some st => mkComponent (opt_store this) (opt_parent this) (Some st)
          | None => this
          end
      | None => this
      end
  end.

(** The components the framework creates: a component is given its
    options and its parent, which has been created before it, and the
    hook runs before anything else sets [$store]. *)
Inductive created : component -> Prop :=
| created_root o : created (vuexInit (mkComponent o None None))
| created_child o parent :
    created parent -> created (vuexInit (mkComponent o (Some parent) None)).

(** The store given by the nearest [store] option, from the component
    upwards. *)
Fixpoint nearest_store (c : component) : option store_ref :=
  match c with
  | mkComponent (Some (StoreObject st)) _ _ => Some st
  | mkComponent (Some (StoreFunction f)) _ _ => Some (f tt)
  | mkComponent None (Some parent) _ => nearest_store parent
  | mkComponent None None _ => None
  end.

End Mixin.

Arguments StoreObject {store_ref} st.
Arguments StoreFunction {store_ref} f.
Arguments mkComponent {store_ref} opt_store opt_parent store_.
Arguments opt_store {store_ref} c.
Arguments opt_parent {store_ref} c.
Arguments store_ {store_ref} c.
Arguments vuexInit {store_ref} this.
Arguments created {store_ref} _.
Arguments nearest_store {store_ref} c.


(** ** Vocabulary of the further properties *)

(** The wrapped handler [w] is in the registry entry of [type]. *)
Definition held {A} (registry : gmap string (list A)) (type : string) (w : A) : Prop :=
  exists entry, registry !! type = Some entry /\ w ∈ entry.

(** A computation that takes no handler out of the registry [f]. *)
Definition keeps_entries {A X} (f : Store -> gmap string (list A)) (m : M X) : Prop :=
  forall s type w, held (f s) type w -> held (f (m s).1.2) type w.

(** The type an action of a module is registered under, and the function
    that is registered: [action.root ? key : namespace + key] and
    [action.handler || action]. *)
Definition action_type (namespace key : string) (a : action_def) : string :=
  match a with
  | ActionFn _ => namespace +:+ key
  | ActionObj _ root => if truthy root then key else namespace +:+ key
  end.

Definition action_handler (a : action_def) : action_fn :=
  match a with
  | ActionFn f => f
  | ActionObj handler _ => handler
  end.

(** Steps that return, log to the console at most, and leave everything
    but the four registries as it is. *)
Definition rebuilds (m : M unit) : Prop :=
  forall s, (m s).1.1 = Ret tt /\
            clear_registries (m s).1.2 = clear_registries s /\
            console_only (m s).2.

(** The mutation handler [w] registered under [type] is one that a module
    of the tree [root] declares, wrapped with the local context of that
    module and registered under its namespaced type. *)
Definition declared_mutation (root : Module_) (type : string) (w : wrappedMutation)
  : Prop :=
  exists path m ms key,
    module_at root path = Some m /\
    mutations (_rawModule m) = Some ms /\
    (key, wm_handler w) ∈ ms /\
    type = getNamespace root path +:+ key /\
    wm_local w = makeLocalContext (getNamespace root path) path.

(** Every registered mutation handler is declared in the tree. *)
Definition sound_mutations (root : Module_) (s : Store) : Prop :=
  forall type w, held (_mutations s) type w -> declared_mutation root type w.



(** The registries of [s] hold every mutation and every action that the
    module [m], installed at [path] in the tree [root], declares: each
    under its namespaced type (an action with [root: true] under its bare
    key) and wrapped with the local context of the module. *)
Definition registered_handlers (root : Module_) (path : list string) (m : Module_)
    (s : Store) : Prop :=
  let namespace := getNamespace root path in
  let local := makeLocalContext namespace path in
  (forall key h,
      (key, h) ∈ default [] (mutations (_rawModule m)) ->
      held (_mutations s) (namespace +:+ key) {| wm_handler := h; wm_local := local |}) /\
  (forall key a,
      (key, a) ∈ default [] (actions (_rawModule m)) ->
      held (_actions s) (action_type namespace key a)
        {| wa_handler := action_handler a; wa_local := local |}).

(** A step of the walk over the tree [root] that keeps the tree and
    registers declared mutations only. *)
Definition keeps_sound (root : Module_) (m : M unit) : Prop :=
  forall s, _modules s = root -> sound_mutations root s ->
            _modules (m s).1.2 = root /\ sound_mutations root (m s).1.2.



(** * Properties *)

(** ** Plain objects *)

Lemma Obj_get_set_eq key v fields : Obj.get key (Obj.set key v fields) = Some v.
Proof.
  induction fields as [|[k w] rest IH]; simpl.
  - by rewrite String.eqb_refl.
  - destruct (String.eqb k key) eqn:E; simpl; rewrite E; auto.
Qed.

Lemma Obj_get_set_ne key key' v fields :
  key <> key' -> Obj.get key' (Obj.set key v fields) = Obj.get key' fields.
Proof.
  intros Hne. induction fields as [|[k w] rest IH]; simpl.
  - destruct (String.eqb key key') eqn:E; auto.
    apply String.eqb_eq in E. contradiction.
  - destruct (String.eqb k key) eqn:E; simpl.
    + apply String.eqb_eq in E. subst k.
      destruct (String.eqb key key') eqn:E'; auto.
      apply String.eqb_eq in E'. contradiction.
    + destruct (String.eqb k key'); auto.
Qed.

Lemma Obj_has_get key fields : Obj.has key fields = true <-> is_Some (Obj.get key fields).
Proof.
  induction fields as [|[k w] rest IH]; simpl.
  - split; [discriminate | intros [? ?]; discriminate].
  - destruct (String.eqb k key); auto. split; eauto.
Qed.

(** ** Running computations *)

Lemma bind_run {A B} (m : M A) (k : A -> M B) s r s1 tr1 :
  m s = (r, s1, tr1) ->
  bind m k s =
    match r with
    | Ret a => let '(r2, s2, tr2) := k a s1 in (r2, s2, tr1 ++ tr2)
    | Exc e => (Exc e, s1, tr1)
    end.
Proof. intros H. unfold bind. rewrite H. by destruct r. Qed.

Lemma forEach_app {A} (l1 l2 : list A) (f : A -> M unit) s :
  forEach (l1 ++ l2) f s = (forEach l1 f ;;; forEach l2 f) s.
Proof.
  revert s. induction l1 as [|x l1 IH]; intros s; simpl.
  - unfold bind, ret. simpl. by destruct (forEach l2 f s) as [[r s'] tr].
  - unfold bind. destruct (f x s) as [[[[]|e] s1] tr1]; [|done].
    rewrite IH. unfold bind.
    destruct (forEach l1 f s1) as [[[[]|e] s2] tr2]; [|done].
    destruct (forEach l2 f s2) as [[r3 s3] tr3]. by rewrite app_assoc.
Qed.

(** ** The committing guard *)

Lemma guarded_app tr1 tr2 : guarded tr1 -> guarded tr2 -> guarded (tr1 ++ tr2).
Proof. apply Forall_app_2. Qed.

Lemma keeps_guard_ret {A} (a : A) : keeps_guard (ret a).
Proof. intros s Hs. split; [done | constructor]. Qed.

Lemma keeps_guard_throw {A} e : keeps_guard (@throw A e).
Proof. intros s Hs. split; [done | constructor]. Qed.

Lemma keeps_guard_gets {A} (f : Store -> A) : keeps_guard (gets f).
Proof. intros s Hs. split; [done | constructor]. Qed.

Lemma keeps_guard_lift {A} (r : exn + A) : keeps_guard (lift r).
Proof. destruct r; [apply keeps_guard_throw | apply keeps_guard_ret]. Qed.

Lemma keeps_guard_bind {A B} (m : M A) (k : A -> M B) :
  keeps_guard m -> (forall a, keeps_guard (k a)) -> keeps_guard (bind m k).
Proof.
  intros Hm Hk s Hs. destruct (Hm s Hs) as [Hc Hg]. unfold bind.
  destruct (m s) as [[[a|e] s1] tr1]; simpl in *; [|done].
  destruct (Hk a s1 Hc) as [Hc2 Hg2].
  destruct (k a s1) as [[r2 s2] tr2]; simpl in *.
  split; [done | by apply guarded_app].
Qed.

Lemma keeps_guard_when b (m : M unit) : keeps_guard m -> keeps_guard (when b m).
Proof. destruct b; [done | intros _; apply keeps_guard_ret]. Qed.

Lemma keeps_guard_forEach {A} (l : list A) (f : A -> M unit) :
  (forall x, keeps_guard (f x)) -> keeps_guard (forEach l f).
Proof.
  intros Hf. induction l as [|x l IH]; simpl.
  - apply keeps_guard_ret.
  - apply keeps_guard_bind; auto.
Qed.

Lemma keeps_guard_set_state (f : Store -> value) :
  keeps_guard (modify (fun s => set_state (f s) s)).
Proof. intros s Hs. split; [done | constructor]. Qed.

Lemma keeps_guard_write_local local old new : keeps_guard (write_local local old new).
Proof.
  unfold write_local. apply keeps_guard_when.
  apply (keeps_guard_set_state
           (fun s => setNestedState (state s) (lc_path local) (mutated_in_place old new))).
Qed.

Lemma keeps_guard_committing {A} (k : bool -> M A) :
  keeps_guard (k true) -> keeps_guard (bind (gets _committing) k).
Proof.
  intros Hk s Hs. specialize (Hk s Hs). unfold bind, gets. rewrite Hs.
  destruct (k true s) as [[r2 s2] tr2]. done.
Qed.

Lemma keeps_guard_log ev :
  event_committing ev <> Some false -> keeps_guard (log ev).
Proof. intros Hev s Hs. split; [done|]. by constructor. Qed.

Lemma keeps_guard_wrappedMutationHandler w payload :
  keeps_guard (wrappedMutationHandler w payload).
Proof.
  unfold wrappedMutationHandler, local_state.
  apply keeps_guard_bind.
  { apply keeps_guard_bind; [apply keeps_guard_gets | intros; apply keeps_guard_lift]. }
  intros st. apply keeps_guard_committing.
  apply keeps_guard_bind; [by apply keeps_guard_log|]. intros _.
  destruct (mf_body (wm_handler w) st payload).
  - apply keeps_guard_write_local.
  - apply keeps_guard_bind; [apply keeps_guard_write_local|].
    intros; apply keeps_guard_throw.
Qed.

(** The body [commit] hands to [_withCommit]. *)
Lemma keeps_guard_handlers entry payload :
  keeps_guard (forEach entry (fun handler => wrappedMutationHandler handler payload)).
Proof. apply keeps_guard_forEach. intros; apply keeps_guard_wrappedMutationHandler. Qed.

Lemma withCommit_run (fn : M unit) s :
  _withCommit fn s =
    match fn (set_committing true s) with
    | (Ret _, s0, tr0) => (Ret tt, set_committing (_committing s) s0, tr0)
    | (Exc e, s0, tr0) => (Exc e, s0, tr0)
    end.
Proof.
  unfold _withCommit, bind, gets, modify. simpl.
  destruct (fn (set_committing true s)) as [[[[]|e] s0] tr0]; simpl; [|done].
  by rewrite app_nil_r.
Qed.

Lemma keeps_guard_withCommit (fn : M unit) :
  keeps_guard fn -> keeps_guard (_withCommit fn).
Proof.
  intros Hfn s Hs. rewrite withCommit_run.
  destruct (Hfn (set_committing true s) eq_refl) as [Hc Hg].
  destruct (fn (set_committing true s)) as [[[[]|e] s0] tr0]; simpl in *; auto.
Qed.

(** ** Commit *)

Lemma unifyObjectStyle_string dev type payload options s :
  unifyObjectStyle dev (VStr type) payload options s =
    (Ret {| u_type := VStr type; u_payload := payload; u_options := options |}, s, []).
Proof. unfold unifyObjectStyle. simpl. by destruct dev. Qed.

Lemma commit_string dev type payload options s :
  commit dev (VStr type) payload options s =
    match _mutations s !! type with
    | None =>
        when dev (log (EConsoleError ("[vuex] unknown mutation type: " +:+ type))) s
    | Some entry => commit_entry dev (VStr type) payload options entry s
    end.
Proof.
  unfold commit.
  rewrite (bind_run _ _ _ _ _ _ (unifyObjectStyle_string dev type payload options s)).
  simpl. unfold bind at 1, gets at 1. simpl.
  destruct (_mutations s !! type) as [entry|]; simpl.
  - unfold commit_entry. simpl. by destruct (bind _ _ s) as [[r s'] tr].
  - by destruct (when dev _ s) as [[r s'] tr].
Qed.

(** A throw inside the mutation handlers ends [commit] on the spot. *)
Lemma commit_entry_throw dev type payload options entry s e s0 tr0 :
  forEach entry (fun handler => wrappedMutationHandler handler payload)
    (set_committing true s) = (Exc e, s0, tr0) ->
  commit_entry dev type payload options entry s = (Exc e, s0, tr0).
Proof.
  intros H. unfold commit_entry, bind at 1. by rewrite withCommit_run, H.
Qed.

(** C9. [_withCommit(fn)] runs [fn] with [_committing] set to true, and the
    flag stays true for all of [fn]'s writes, also through nested
    [_withCommit] calls ([_withCommit fn] is itself a body that keeps the
    flag up).  When [fn] returns, the flag is restored to the value it had
    before the call; when [fn] throws, the exception propagates and the flag
    is left true.  In particular a [commit] whose mutation handler throws
    ends with that exception and with [_committing] true. *)
Theorem withCommit_flag (fn : M unit) (s : Store) :
  keeps_guard fn ->
  (_withCommit fn s).2 = (fn (set_committing true s)).2 /\
  guarded (_withCommit fn s).2 /\
  match (fn (set_committing true s)).1.1 with
  | Ret _ =>
      (_withCommit fn s).1.1 = Ret tt /\
      _committing (_withCommit fn s).1.2 = _committing s
  | Exc e =>
      (_withCommit fn s).1.1 = Exc e /\
      _committing (_withCommit fn s).1.2 = true
  end /\
  keeps_guard (_withCommit fn) /\
  (forall dev type payload options entry e s0 tr0,
      _mutations s !! type = Some entry ->
      fn = forEach entry (fun handler => wrappedMutationHandler handler payload) ->
      fn (set_committing true s) = (Exc e, s0, tr0) ->
      commit dev (VStr type) payload options s = (Exc e, s0, tr0) /\
      _committing s0 = true).
Proof.
  intros Hfn.
  destruct (Hfn (set_committing true s) eq_refl) as [Hc Hg].
  rewrite withCommit_run.
  destruct (fn (set_committing true s)) as [[[[]|e] s0] tr0] eqn:Hrun; simpl in *.
  - split_and!; auto using keeps_guard_withCommit.
    intros; discriminate.
  - split_and!; auto using keeps_guard_withCommit.
    intros dev type payload options entry e' s0' tr0' Hentry -> Heq.
    split; [|congruence].
    rewrite commit_string, Hentry. apply commit_entry_throw. congruence.
Qed.

Lemma unifyObjectStyle_resolved dev _type _payload _options t s :
  call_type _type = VStr t ->
  unifyObjectStyle dev _type _payload _options s =
    (Ret {| u_type := VStr t;
            u_payload := call_payload _type _payload;
            u_options := if isObject _type && truthy (own_prop _type "type")
                         then _payload else _options |}, s, []).
Proof.
  unfold call_type, call_payload, unifyObjectStyle.
  destruct (isObject _type && truthy (own_prop _type "type")); intros ->;
    simpl; by destruct dev.
Qed.

Lemma commit_resolved dev _type _payload _options t s :
  call_type _type = VStr t ->
  commit dev _type _payload _options s =
    match _mutations s !! t with
    | None =>
        when dev (log (EConsoleError ("[vuex] unknown mutation type: " +:+ t))) s
    | Some entry =>
        commit_entry dev (VStr t) (call_payload _type _payload)
          (if isObject _type && truthy (own_prop _type "type")
           then _payload else _options) entry s
    end.
Proof.
  intros Ht. unfold commit.
  rewrite (bind_run _ _ _ _ _ _ (unifyObjectStyle_resolved dev _ _payload _options _ s Ht)).
  simpl. unfold bind at 1, gets at 1. simpl.
  destruct (_mutations s !! t) as [entry|]; simpl.
  - unfold commit_entry. simpl. by destruct (bind _ _ s) as [[r s'] tr].
  - by destruct (when dev _ s) as [[r s'] tr].
Qed.

(** The part of [dispatch] that follows a successful lookup. *)
Lemma dispatch_resolved dev _type _payload t s :
  call_type _type = VStr t ->
  dispatch dev _type _payload s =
    match _actions s !! t with
    | None =>
        (when dev (log (EConsoleError ("[vuex] unknown action type: " +:+ t))) ;;;
         ret DUndefined) s
    | Some entry =>
        dispatch_entry dev (VStr t, call_payload _type _payload) entry s
    end.
Proof.
  intros Ht. unfold dispatch.
  rewrite (bind_run _ _ _ _ _ _ (unifyObjectStyle_resolved dev _ _payload VUndef _ s Ht)).
  simpl. unfold bind at 1, gets at 1. simpl.
  destruct (_actions s !! t) as [entry|]; simpl.
  - unfold dispatch_entry. simpl. by destruct (bind _ _ s) as [[r s'] tr].
  - by destruct (bind _ _ s) as [[r s'] tr].
Qed.

(** C3. A commit or a dispatch whose type has no registered handler
    returns normally and leaves the store, hence the state, as it was:
    [commit] returns without calling any handler or subscriber, [dispatch]
    returns [undefined], not a promise, without calling any handler or
    action subscriber.  The only thing either does is report the unknown
    type on the console in a development build. *)
Theorem unknown_type_is_noop (dev : bool) (_type _payload _options : value)
    (t : string) (s : Store) :
  call_type _type = VStr t ->
  (_mutations s !! t = None ->
   commit dev _type _payload _options s =
     (Ret tt, s, unknown_type_report dev "mutation" t)) /\
  (_actions s !! t = None ->
   dispatch dev _type _payload s =
     (Ret DUndefined, s, unknown_type_report dev "action" t)).
Proof.
  intros Ht. split; intros Hnone.
  - rewrite (commit_resolved _ _ _ _ _ _ Ht), Hnone. by destruct dev.
  - rewrite (dispatch_resolved _ _ _ _ _ Ht), Hnone. by destruct dev.
Qed.

(** C8. [replaceState(newState)] returns normally with the root state
    replaced by [newState], the write being made with [_committing] true,
    and leaves every other part of the store as it was: the mutation,
    action and getter registries, the namespace map, the module tree with
    its local contexts, both subscriber lists, and the value of
    [_committing] itself. *)
Theorem replaceState_frame (newState : value) (s : Store) :
  replaceState newState s = (Ret tt, set_state newState s, [EStateSwap newState true]) /\
  state (set_state newState s) = newState /\
  _mutations (set_state newState s) = _mutations s /\
  _actions (set_state newState s) = _actions s /\
  _wrappedGetters (set_state newState s) = _wrappedGetters s /\
  _modulesNamespaceMap (set_state newState s) = _modulesNamespaceMap s /\
  _modules (set_state newState s) = _modules s /\
  _subscribers (set_state newState s) = _subscribers s /\
  _actionSubscribers (set_state newState s) = _actionSubscribers s /\
  _committing (set_state newState s) = _committing s.
Proof. split_and!; reflexivity. Qed.

(** ** Handlers and subscribers of a commit *)

Lemma set_state_same s : set_state (state s) s = s.
Proof. by destruct s. Qed.

Lemma wrappedMutationHandler_run w payload s :
  wrappedMutationHandler w payload s =
    match getNestedState (state s) (lc_path (wm_local w)) with
    | inl e => (Exc e, s, [])
    | inr st =>
        let ev := EMutation (mf_id (wm_handler w)) st payload (_committing s) in
        match mf_body (wm_handler w) st payload with
        | HReturn st' =>
            (Ret tt, set_state (written (state s) (lc_path (wm_local w)) st st') s, [ev])
        | HThrow st' e =>
            (Exc (Thrown e),
             set_state (written (state s) (lc_path (wm_local w)) st st') s, [ev])
        end
    end.
Proof.
  unfold wrappedMutationHandler, local_state, bind, gets, lift, log, written, write_local.
  simpl.
  destruct (getNestedState (state s) (lc_path (wm_local w))) as [e|st]; simpl; [done|].
  destruct (mf_body (wm_handler w) st payload) as [st'|st' e];
    destruct (is_ref st); simpl; by rewrite ?set_state_same.
Qed.

Lemma handlers_loop payload entry : forall s1 s0 tr0,
  _committing s1 = true ->
  forEach entry (fun handler => wrappedMutationHandler handler payload) s1
    = (Ret tt, s0, tr0) ->
  handlers_run payload (state s1) entry tr0 (state s0) /\
  s0 = set_state (state s0) s1.
Proof.
  induction entry as [|w rest IH]; intros s1 s0 tr0 Hc Hrun; simpl in Hrun.
  - injection Hrun as <- <-. split; [constructor | by rewrite set_state_same].
  - unfold bind in Hrun. rewrite wrappedMutationHandler_run in Hrun.
    destruct (getNestedState (state s1) (lc_path (wm_local w))) as [e|st] eqn:Hst;
      [discriminate|].
    simpl in Hrun.
    destruct (mf_body (wm_handler w) st payload) as [st'|st' e] eqn:Hbody;
      [|discriminate].
    set (s2 := set_state (written (state s1) (lc_path (wm_local w)) st st') s1) in *.
    destruct (forEach rest _ s2) as [[[[]|e] s3] tr3] eqn:Hrest; [|discriminate].
    injection Hrun as <- <-.
    destruct (IH s2 s3 tr3 Hc Hrest) as [Hruns Hs3].
    split.
    + rewrite Hc. simpl. econstructor; eauto.
    + rewrite Hs3. reflexivity.
Qed.

Lemma run_sub_effect_run eff s :
  run_sub_effect eff s =
    (match se_throw eff with Some e => Exc (Thrown e) | None => Ret tt end,
     set_subscribers (after_effect sub_id eff (_subscribers s)) s, []).
Proof.
  unfold run_sub_effect, after_effect.
  assert (Hloop : forall ids s,
    forEach ids (fun id => modify (fun s =>
       set_subscribers (unsubscribe sub_id id (_subscribers s)) s)) s
    = (Ret tt, set_subscribers
                 (foldl (fun l id => unsubscribe sub_id id l) (_subscribers s) ids) s, [])).
  { induction ids as [|id ids IH]; intros s'; simpl.
    - unfold ret. by destruct s'.
    - unfold bind, modify. rewrite IH. simpl. reflexivity. }
  unfold bind. rewrite Hloop. by destruct (se_throw eff).
Qed.

Lemma call_subscriber_run m sub s :
  call_subscriber m sub s =
    (match se_throw (sub_fn sub m (state s)) with
     | Some e => Exc (Thrown e) | None => Ret tt end,
     set_subscribers (after_effect sub_id (sub_fn sub m (state s)) (_subscribers s)) s,
     [subscriber_event m (state s) sub]).
Proof.
  unfold call_subscriber, bind, gets, log. simpl. by rewrite run_sub_effect_run.
Qed.

(** A notification loop calls a prefix of the list it iterates, with the
    state it started from, and touches nothing but the live subscriber
    list; it calls the whole list unless a subscriber throws. *)
Lemma subscribers_loop m subs : forall s r s' tr,
  forEach subs (call_subscriber m) s = (r, s', tr) ->
  exists called,
    called `prefix_of` subs /\
    tr = map (subscriber_event m (state s)) called /\
    (r = Ret tt -> called = subs) /\
    s' = set_subscribers (_subscribers s') s.
Proof.
  induction subs as [|sub rest IH]; intros s r s' tr Hrun; simpl in Hrun.
  - injection Hrun as <- <- <-. exists []. split_and!; auto. by destruct s.
  - unfold bind in Hrun. rewrite call_subscriber_run in Hrun.
    destruct (se_throw (sub_fn sub m (state s))) as [e|].
    + injection Hrun as <- <- <-. exists [sub]. split_and!; auto.
      * by apply prefix_cons, prefix_nil.
      * discriminate.
    + set (s1 := set_subscribers _ s) in *.
      destruct (forEach rest (call_subscriber m) s1) as [[r2 s2] tr2] eqn:Hrest.
      injection Hrun as <- <- <-.
      destruct (IH _ _ _ _ Hrest) as (called & Hpre & Htr & Hall & Hs2).
      exists (sub :: called). split_and!.
      * by apply prefix_cons.
      * simpl. by rewrite Htr.
      * intros Hr. by rewrite (Hall Hr).
      * rewrite Hs2. reflexivity.
Qed.

Lemma commit_entry_run dev type payload options entry s s0 tr0 :
  forEach entry (fun handler => wrappedMutationHandler handler payload)
    (set_committing true s) = (Ret tt, s0, tr0) ->
  commit_entry dev type payload options entry s =
    let s0' := set_committing (_committing s) s0 in
    match forEach (_subscribers s0') (call_subscriber (type, payload)) s0' with
    | (Ret _, s1, tr1) => (Ret tt, s1, tr0 ++ tr1 ++ silent_report dev type options)
    | (Exc e, s1, tr1) => (Exc e, s1, tr0 ++ tr1)
    end.
Proof.
  intros Hloop. unfold commit_entry, bind at 1. rewrite withCommit_run, Hloop.
  unfold bind at 1, gets at 1. simpl. unfold bind.
  destruct (forEach (_subscribers s0) _ _) as [[[[]|e] s1] tr1]; [|done].
  unfold silent_report.
  destruct (dev && truthy options && truthy (own_prop options "silent")); simpl;
    by rewrite ?app_nil_r.
Qed.

(** C1. In a commit of a type with registered handlers [entry], none of
    which throws: every handler of [entry] is called exactly once, in
    registration order, with its own module's state slice and the payload,
    while [_committing] is true ([handlers_run]); the handler calls make up
    the beginning of the trace, so all of them have completed before the
    first commit subscriber is called; and each subscriber that is called
    is handed the mutation and the state the handlers produced.  The
    subscribers called are those of the list as it was when the handlers
    finished, in order, all of them when the commit returns. *)
Theorem commit_runs_all_handlers (dev : bool) (_type _payload _options : value)
    (t : string) (s : Store) (entry : list wrappedMutation) :
  let payload := call_payload _type _payload in
  let loop := forEach entry (fun handler => wrappedMutationHandler handler payload)
                (set_committing true s) in
  call_type _type = VStr t ->
  _mutations s !! t = Some entry ->
  loop.1.1 = Ret tt ->
  handlers_run payload (state s) entry loop.2 (state loop.1.2) /\
  length loop.2 = length entry /\
  (forall type handler local s0,
      _mutations (registerMutation type handler local s0).1.2 !! type =
        Some (default [] (_mutations s0 !! type)
              ++ [{| wm_handler := handler; wm_local := local |}])) /\
  exists called report,
    (commit dev _type _payload _options s).2 =
      loop.2 ++ map (subscriber_event (VStr t, payload) (state loop.1.2)) called
             ++ report /\
    called `prefix_of` _subscribers s /\
    ((commit dev _type _payload _options s).1.1 = Ret tt -> called = _subscribers s) /\
    console_only report /\
    state (commit dev _type _payload _options s).1.2 = state loop.1.2.
Proof.
  intros payload loop Ht Hentry Hok.
  destruct loop as [[r0 s0] tr0] eqn:Hloop. simpl in Hok. subst r0. simpl.
  destruct (handlers_loop payload entry (set_committing true s) s0 tr0 eq_refl Hloop)
    as [Hruns Hs0].
  split; [done|]. split.
  { clear -Hruns. induction Hruns; simpl; auto. }
  split.
  { intros type handler local s'. simpl. apply lookup_insert_eq. }
  rewrite (commit_resolved _ _ _ _ _ _ Ht), Hentry.
  fold payload. rewrite (commit_entry_run _ _ _ _ _ _ _ _ Hloop). simpl.
  destruct (forEach (_subscribers s0) _ _) as [[r1 s1] tr1] eqn:Hsubs.
  destruct (subscribers_loop _ _ _ _ _ _ Hsubs) as (called & Hpre & Htr & Hall & Hs1).
  assert (Hsubs0 : _subscribers s0 = _subscribers s) by (by rewrite Hs0).
  simpl in Hpre, Hall, Htr. rewrite Hsubs0 in Hpre.
  destruct r1 as [[]|e]; simpl.
  - exists called, (silent_report dev (VStr t)
       (if isObject _type && truthy (own_prop _type "type") then _payload else _options)).
    split_and!; auto.
    + by rewrite Htr.
    + intros _. rewrite <- Hsubs0. by apply Hall.
    + unfold silent_report. destruct (_ && _); repeat constructor.
    + by rewrite Hs1.
  - exists called, []. split_and!; auto.
    + by rewrite Htr, app_nil_r.
    + discriminate.
    + constructor.
    + by rewrite Hs1.
Qed.

(** ** Subscriber lists *)

Section SubscriberLists.

Context {A : Type} (ident : A -> nat).

Lemma indexOf_lower id (subs : list A) : -1 <= indexOf ident id subs.
Proof.
  induction subs as [|x rest IH]; simpl; [lia|].
  destruct (Nat.eqb (ident x) id); [lia|].
  destruct (indexOf ident id rest <? 0) eqn:E; lia.
Qed.

Lemma indexOf_absent id (subs : list A) :
  indexOf ident id subs < 0 <-> id ∉ ident <$> subs.
Proof.
  induction subs as [|x rest IH]; simpl.
  - split; [intros _; apply not_elem_of_nil | lia].
  - rewrite not_elem_of_cons.
    destruct (Nat.eqb (ident x) id) eqn:E.
    + apply Nat.eqb_eq in E. split; [lia | intros [Hne _]; congruence].
    + apply Nat.eqb_neq in E. pose proof (indexOf_lower id rest).
      destruct (indexOf ident id rest <? 0) eqn:E'.
      * apply Z.ltb_lt in E'. split; [|lia]. intros _. split; [congruence|].
        by apply IH.
      * apply Z.ltb_ge in E'. split; [lia|]. intros [_ Hnot].
        apply IH in Hnot. lia.
Qed.

Lemma indexOf_present id (subs : list A) :
  0 <= indexOf ident id subs ->
  (ident <$> subs) !! Z.to_nat (indexOf ident id subs) = Some id.
Proof.
  induction subs as [|x rest IH]; simpl; [lia|].
  destruct (Nat.eqb (ident x) id) eqn:E.
  - apply Nat.eqb_eq in E. intros _. simpl. by rewrite E.
  - destruct (indexOf ident id rest <? 0) eqn:E'; [lia|].
    apply Z.ltb_ge in E'. intros _.
    replace (Z.to_nat (indexOf ident id rest + 1))
      with (S (Z.to_nat (indexOf ident id rest))) by lia.
    simpl. by apply IH.
Qed.

Lemma unsubscribe_sublist id (subs : list A) :
  (ident <$> unsubscribe ident id subs) `sublist_of` (ident <$> subs).
Proof.
  unfold unsubscribe. destruct (-1 <? indexOf ident id subs); [|done].
  rewrite list_fmap_delete. apply sublist_delete.
Qed.

Lemma unsubscribe_removes id (subs : list A) :
  NoDup (ident <$> subs) -> id ∉ ident <$> unsubscribe ident id subs.
Proof.
  intros Hnd. unfold unsubscribe.
  destruct (-1 <? indexOf ident id subs) eqn:E.
  - apply Z.ltb_lt in E.
    assert (Hi : (ident <$> subs) !! Z.to_nat (indexOf ident id subs) = Some id)
      by (apply indexOf_present; lia).
    rewrite list_fmap_delete. intros Hin.
    apply list_elem_of_lookup in Hin as [j Hj].
    set (i := Z.to_nat (indexOf ident id subs)) in *.
    destruct (decide (j < i)%nat) as [Hlt|Hge].
    + rewrite list_lookup_delete_lt in Hj by done.
      pose proof (NoDup_lookup _ _ _ _ Hnd Hi Hj). lia.
    + rewrite list_lookup_delete_ge in Hj by lia.
      pose proof (NoDup_lookup _ _ _ _ Hnd Hi Hj). lia.
  - apply Z.ltb_ge in E. apply indexOf_absent.
    pose proof (indexOf_lower id subs). lia.
Qed.

Lemma unsubscribe_keeps id x (subs : list A) :
  x ∈ subs -> ident x <> id -> x ∈ unsubscribe ident id subs.
Proof.
  intros Hin Hne. unfold unsubscribe.
  destruct (-1 <? indexOf ident id subs) eqn:E; [|done].
  apply Z.ltb_lt in E.
  assert (Hi : (ident <$> subs) !! Z.to_nat (indexOf ident id subs) = Some id)
    by (apply indexOf_present; lia).
  set (i := Z.to_nat (indexOf ident id subs)) in *.
  apply list_elem_of_lookup in Hin as [j Hj].
  assert (j <> i).
  { intros ->. rewrite list_lookup_fmap, Hj in Hi. simpl in Hi. congruence. }
  apply list_elem_of_lookup.
  destruct (decide (j < i)%nat).
  - exists j. by rewrite list_lookup_delete_lt.
  - exists (pred j). rewrite list_lookup_delete_ge by lia.
    by replace (S (pred j)) with j by lia.
Qed.

Lemma after_effect_sublist eff (subs : list A) :
  (ident <$> after_effect ident eff subs) `sublist_of` (ident <$> subs).
Proof.
  unfold after_effect. revert subs.
  induction (se_unsubscribe eff) as [|id ids IH]; intros subs; simpl; [done|].
  etrans; [apply IH | apply unsubscribe_sublist].
Qed.

Lemma after_effect_removes eff id (subs : list A) :
  NoDup (ident <$> subs) -> id ∈ se_unsubscribe eff ->
  id ∉ ident <$> after_effect ident eff subs.
Proof.
  unfold after_effect. revert subs.
  induction (se_unsubscribe eff) as [|x ids IH]; intros subs Hnd Hin; simpl.
  - by apply elem_of_nil in Hin.
  - apply elem_of_cons in Hin as [->|Hin].
    + intros Hin. eapply unsubscribe_removes; [exact Hnd|].
      eapply elem_of_sublist; [exact Hin|].
      apply (after_effect_sublist {| se_unsubscribe := ids; se_throw := None |}).
    + apply IH; [|done].
      eapply sublist_NoDup; [exact Hnd|]; apply unsubscribe_sublist.
Qed.

Lemma genericSubscribe_append fn (subs : list A) :
  (genericSubscribe ident fn subs VUndef).1 =
    if bool_decide (ident fn ∈ ident <$> subs) then subs else subs ++ [fn].
Proof.
  unfold genericSubscribe. simpl.
  destruct (indexOf ident (ident fn) subs <? 0) eqn:E.
  - apply Z.ltb_lt, indexOf_absent in E. by rewrite bool_decide_eq_false_2.
  - apply Z.ltb_ge in E. rewrite bool_decide_eq_true_2; [done|].
    destruct (decide (ident fn ∈ ident <$> subs)) as [|Hn]; [done|].
    apply indexOf_absent in Hn. lia.
Qed.

Lemma genericSubscribe_NoDup fn (subs : list A) options :
  NoDup (ident <$> subs) -> NoDup (ident <$> (genericSubscribe ident fn subs options).1).
Proof.
  intros Hnd. unfold genericSubscribe. simpl.
  destruct (indexOf ident (ident fn) subs <? 0) eqn:E; [|done].
  apply Z.ltb_lt, indexOf_absent in E.
  destruct (truthy options && truthy (own_prop options "prepend")).
  - rewrite fmap_cons. by constructor.
  - rewrite fmap_app. simpl. apply NoDup_app. split_and!; [done| |apply NoDup_singleton].
    intros x Hx Hx'. apply list_elem_of_singleton in Hx'. by subst.
Qed.

End SubscriberLists.

(** ** Unsubscribing during a notification *)

Lemma subscribers_loop_sublist m snapshot : forall s,
  (sub_id <$> _subscribers (forEach snapshot (call_subscriber m) s).1.2)
    `sublist_of` (sub_id <$> _subscribers s).
Proof.
  induction snapshot as [|sub rest IH]; intros s; simpl; [done|].
  unfold bind. rewrite call_subscriber_run.
  destruct (se_throw (sub_fn sub m (state s))); simpl.
  - apply after_effect_sublist.
  - set (s1 := set_subscribers _ s).
    specialize (IH s1).
    destruct (forEach rest (call_subscriber m) s1) as [[r2 s2] tr2]; simpl in *.
    etrans; [exact IH | apply after_effect_sublist].
Qed.

Lemma subscribers_loop_returns m snapshot : forall s,
  (forall sub, sub ∈ snapshot -> se_throw (sub_fn sub m (state s)) = None) ->
  (forEach snapshot (call_subscriber m) s).1.1 = Ret tt.
Proof.
  induction snapshot as [|sub rest IH]; intros s Hquiet; simpl; [done|].
  unfold bind. rewrite call_subscriber_run.
  rewrite (Hquiet sub) by apply list_elem_of_here.
  set (s1 := set_subscribers _ s).
  assert (H1 : (forEach rest (call_subscriber m) s1).1.1 = Ret tt).
  { apply IH. intros sub' Hin. apply Hquiet. by apply list_elem_of_further. }
  destruct (forEach rest (call_subscriber m) s1) as [[r2 s2] tr2]; simpl in *. done.
Qed.

(** A subscriber of the snapshot that calls its own unsubscribe capability
    is gone from the live list when the loop has returned. *)
Lemma subscribers_loop_unsubscribes m fn snapshot : forall s,
  NoDup (sub_id <$> _subscribers s) ->
  fn ∈ snapshot ->
  sub_id fn ∈ se_unsubscribe (sub_fn fn m (state s)) ->
  (forEach snapshot (call_subscriber m) s).1.1 = Ret tt ->
  sub_id fn ∉ sub_id <$> _subscribers (forEach snapshot (call_subscriber m) s).1.2.
Proof.
  induction snapshot as [|sub rest IH]; intros s Hnd Hin Hself Hret.
  - by apply elem_of_nil in Hin.
  - simpl in *. unfold bind in *. rewrite call_subscriber_run in *.
    destruct (se_throw (sub_fn sub m (state s))); [discriminate|].
    set (s1 := set_subscribers _ s) in *.
    pose proof (subscribers_loop_sublist m rest s1) as Hsub.
    assert (Hnd1 : NoDup (sub_id <$> _subscribers s1)).
    { eapply sublist_NoDup; [exact Hnd|]. apply after_effect_sublist. }
    apply elem_of_cons in Hin as [->|Hin].
    + assert (Hgone : sub_id sub ∉ sub_id <$> _subscribers s1)
        by (by apply after_effect_removes).
      destruct (forEach rest (call_subscriber m) s1) as [[r2 s2] tr2]; simpl in *.
      intros Hin. apply Hgone. eapply elem_of_sublist; eauto.
    + specialize (IH s1 Hnd1 Hin Hself).
      destruct (forEach rest (call_subscriber m) s1) as [[r2 s2] tr2]; simpl in *.
      by apply IH.
Qed.

Lemma unifyObjectStyle_pure dev _type _payload _options s :
  exists r, unifyObjectStyle dev _type _payload _options s = (r, s, []).
Proof.
  unfold unifyObjectStyle.
  destruct (isObject _type && truthy (own_prop _type "type")); destruct dev; simpl;
    unfold bind, assert; simpl.
  - destruct (is_string (own_prop _type "type")); simpl; eauto.
  - eauto.
  - destruct (is_string _type); simpl; eauto.
  - eauto.
Qed.

(** The handler loop, however it ends, records handler calls only and
    leaves the subscriber list alone. *)
Lemma handlers_loop_frame payload entry : forall s,
  Forall is_mutation_event
    (forEach entry (fun handler => wrappedMutationHandler handler payload) s).2 /\
  _subscribers
    (forEach entry (fun handler => wrappedMutationHandler handler payload) s).1.2
    = _subscribers s.
Proof.
  induction entry as [|w rest IH]; intros s; simpl.
  - split; [constructor | done].
  - unfold bind. rewrite wrappedMutationHandler_run.
    destruct (getNestedState (state s) (lc_path (wm_local w))) as [e|st]; simpl.
    { split; [constructor | done]. }
    destruct (mf_body (wm_handler w) st payload) as [st'|st' e]; simpl.
    + set (s1 := set_state _ s). destruct (IH s1) as [Htr Hsubs].
      destruct (forEach rest _ s1) as [[r2 s2] tr2]; simpl in *.
      split; [by constructor | done].
    + split; [by repeat constructor | done].
Qed.

(** Whatever a commit does, the commit subscribers it calls are members
    of the subscriber list it started with. *)
Lemma commit_calls_members dev _type _payload _options s id m st :
  ESubscriber id m st ∈ (commit dev _type _payload _options s).2 ->
  id ∈ sub_id <$> _subscribers s.
Proof.
  unfold commit, bind at 1.
  destruct (unifyObjectStyle_pure dev _type _payload _options s) as [r ->].
  destruct r as [u|e]; simpl; [|by intros ?%elem_of_nil].
  unfold bind at 1, gets at 1. simpl.
  destruct (_mutations s !! to_string (u_type u)) as [entry|]; simpl.
  - unfold commit_entry, bind at 1. rewrite withCommit_run.
    destruct (handlers_loop_frame (u_payload u) entry (set_committing true s))
      as [Hmut Hsubs].
    destruct (forEach entry _ (set_committing true s)) as [[[[]|e] s0] tr0];
      simpl in *.
    + unfold bind at 1, gets at 1. simpl. unfold bind.
      destruct (forEach (_subscribers s0) _ _) as [[r1 s1] tr1] eqn:Hloop.
      destruct (subscribers_loop _ _ _ _ _ _ Hloop) as (called & Hpre & Htr & _ & _).
      assert (Hcalled : ESubscriber id m st ∈ tr1 -> id ∈ sub_id <$> _subscribers s).
      { rewrite Htr. intros (sub & Heq & Hin)%list_elem_of_fmap.
        injection Heq as -> _ _. apply list_elem_of_fmap. exists sub. split; [done|].
        rewrite <- Hsubs. destruct Hpre as [k ->]. apply elem_of_app. by left. }
      assert (Hmut' : ESubscriber id m st ∈ tr0 -> False).
      { intros Hin. rewrite Forall_forall in Hmut. by apply Hmut in Hin. }
      destruct r1 as [[]|e]; simpl.
      * match goal with |- context [when ?b ?k] => destruct b end; simpl;
          rewrite ?app_nil_r, ?elem_of_app.
        -- intros [H|[H|H%list_elem_of_singleton]]; auto; done.
        -- intros [H|H]; auto; done.
      * rewrite ?app_nil_r, ?elem_of_app. intros [H|H]; auto. done.
    + intros Hin. rewrite Forall_forall in Hmut. by apply Hmut in Hin.
  - destruct dev; simpl; [|by intros ?%elem_of_nil].
    intros H%list_elem_of_singleton. discriminate.
Qed.

(** C7. [subscribe(fn)] appends [fn] to the subscriber list unless a
    subscriber with the same identity is already there, so the list stays
    free of duplicates; the capability it returns removes [fn] from the
    list and keeps every other member.  When [fn] calls that capability
    while it is being notified by a commit, the notification loop goes on
    over the snapshot taken before it started: every subscriber of the
    snapshot is called, in order, and the commit returns.  After that
    commit [fn] is no longer in the list, and a commit on a store whose
    list does not hold [fn] never calls it. *)
Theorem subscribe_then_unsubscribe (fn : subscriber) (s : Store) :
  NoDup (sub_id <$> _subscribers s) ->
  let s1 := (subscribe fn VUndef s).1.2 in
  (subscribe fn VUndef s).1.1 = Ret (unsubscribe sub_id (sub_id fn)) /\
  _subscribers s1 =
    (if bool_decide (sub_id fn ∈ sub_id <$> _subscribers s)
     then _subscribers s else _subscribers s ++ [fn]) /\
  NoDup (sub_id <$> _subscribers s1) /\
  (forall live : list subscriber,
      NoDup (sub_id <$> live) ->
      (sub_id fn ∉ sub_id <$> unsubscribe sub_id (sub_id fn) live) /\
      forall x, x ∈ live -> sub_id x <> sub_id fn ->
                x ∈ unsubscribe sub_id (sub_id fn) live) /\
  (forall dev _type _payload _options t entry (s2 : Store),
      let payload := call_payload _type _payload in
      let m := (VStr t, payload) in
      let loop := forEach entry (fun handler => wrappedMutationHandler handler payload)
                    (set_committing true s2) in
      let c := commit dev _type _payload _options s2 in
      call_type _type = VStr t ->
      _mutations s2 !! t = Some entry ->
      loop.1.1 = Ret tt ->
      NoDup (sub_id <$> _subscribers s2) ->
      fn ∈ _subscribers s2 ->
      sub_id fn ∈ se_unsubscribe (sub_fn fn m (state loop.1.2)) ->
      (forall sub, sub ∈ _subscribers s2 ->
                   se_throw (sub_fn sub m (state loop.1.2)) = None) ->
      c.1.1 = Ret tt /\
      (exists report,
          c.2 = loop.2 ++ map (subscriber_event m (state loop.1.2)) (_subscribers s2)
                       ++ report /\
          console_only report) /\
      sub_id fn ∉ sub_id <$> _subscribers c.1.2) /\
  (forall dev _type _payload _options (s3 : Store) m st,
      sub_id fn ∉ sub_id <$> _subscribers s3 ->
      ESubscriber (sub_id fn) m st ∉ (commit dev _type _payload _options s3).2).
Proof.
  intros Hnd s1. split_and!.
  - done.
  - apply genericSubscribe_append.
  - by apply genericSubscribe_NoDup.
  - intros live Hlive. split.
    + by apply unsubscribe_removes.
    + intros x Hx Hne. by apply unsubscribe_keeps.
  - intros dev _type _payload _options t entry s2 payload m loop c
      Ht Hentry Hok Hnd2 Hin Hself Hquiet.
    destruct loop as [[r0 s0] tr0] eqn:Hloop. simpl in Hok. subst r0. simpl in *.
    destruct (handlers_loop payload entry (set_committing true s2) s0 tr0 eq_refl Hloop)
      as [_ Hs0].
    unfold c. rewrite (commit_resolved _ _ _ _ _ _ Ht), Hentry.
    fold payload. rewrite (commit_entry_run _ _ _ _ _ _ _ _ Hloop). simpl.
    set (s0' := set_committing (_committing s2) s0).
    assert (Hsubs0 : _subscribers s0 = _subscribers s2) by (by rewrite Hs0).
    rewrite Hsubs0.
    assert (Hret : (forEach (_subscribers s2) (call_subscriber m) s0').1.1 = Ret tt)
      by (by apply subscribers_loop_returns).
    assert (Hgone : sub_id fn ∉ sub_id <$>
              _subscribers (forEach (_subscribers s2) (call_subscriber m) s0').1.2).
    { apply subscribers_loop_unsubscribes; auto. simpl. by rewrite Hsubs0. }
    fold m.
    destruct (forEach (_subscribers s2) (call_subscriber m) s0') as [[r1 s1'] tr1]
      eqn:Hsubs.
    simpl in Hret, Hgone. subst r1.
    destruct (subscribers_loop _ _ _ _ _ _ Hsubs) as (called & _ & Htr & Hall & _).
    rewrite (Hall eq_refl) in Htr. simpl. split_and!; auto.
    eexists. split; [by rewrite Htr|].
    unfold silent_report. destruct (_ && _); repeat constructor.
  - intros dev _type _payload _options s3 m st Hnot Hin.
    by apply commit_calls_members in Hin.
Qed.

(** ** Dispatch *)

Lemma set_actionSubscribers_same s : set_actionSubscribers (_actionSubscribers s) s = s.
Proof. by destruct s. Qed.

Lemma subscribers_only_pure {A} (m : M A) :
  (forall s, (m s).1.2 = s) -> subscribers_only m.
Proof. intros H s. by rewrite H, set_actionSubscribers_same. Qed.

Lemma subscribers_only_bind {A B} (m : M A) (k : A -> M B) :
  subscribers_only m -> (forall a, subscribers_only (k a)) ->
  subscribers_only (bind m k).
Proof.
  intros Hm Hk s. unfold bind. specialize (Hm s).
  destruct (m s) as [[[a|e] s1] tr1]; simpl in *; [|done].
  specialize (Hk a s1). destruct (k a s1) as [[r2 s2] tr2]; simpl in *.
  rewrite Hk, Hm. reflexivity.
Qed.

Lemma subscribers_only_try {A} (m : M A) (h : exn -> M A) :
  subscribers_only m -> (forall e, subscribers_only (h e)) ->
  subscribers_only (try_catch m h).
Proof.
  intros Hm Hh s. unfold try_catch. specialize (Hm s).
  destruct (m s) as [[[a|e] s1] tr1]; simpl in *; [done|].
  specialize (Hh e s1). destruct (h e s1) as [[r2 s2] tr2]; simpl in *.
  rewrite Hh, Hm. reflexivity.
Qed.

Lemma subscribers_only_forEach {A} (l : list A) (f : A -> M unit) :
  (forall x, subscribers_only (f x)) -> subscribers_only (forEach l f).
Proof.
  intros Hf. induction l as [|x l IH]; simpl.
  - by apply subscribers_only_pure.
  - by apply subscribers_only_bind.
Qed.

Lemma subscribers_only_effect eff : subscribers_only (run_action_sub_effect eff).
Proof.
  unfold run_action_sub_effect. apply subscribers_only_bind.
  - apply subscribers_only_forEach. intros id s. reflexivity.
  - intros _. destruct (se_throw eff); by apply subscribers_only_pure.
Qed.

Lemma subscribers_only_report dev what e : subscribers_only (report dev what e).
Proof. apply subscribers_only_pure. intros s. by destruct dev. Qed.

Lemma subscribers_only_call_before a sub : subscribers_only (call_before a sub).
Proof.
  unfold call_before. destruct (before sub); [|by apply subscribers_only_pure].
  apply subscribers_only_bind; [by apply subscribers_only_pure|]. intros st.
  apply subscribers_only_bind; [by apply subscribers_only_pure|]. intros _.
  apply subscribers_only_effect.
Qed.

Lemma subscribers_only_call_after a sub : subscribers_only (call_after a sub).
Proof.
  unfold call_after. destruct (after sub); [|by apply subscribers_only_pure].
  apply subscribers_only_bind; [by apply subscribers_only_pure|]. intros st.
  apply subscribers_only_bind; [by apply subscribers_only_pure|]. intros _.
  apply subscribers_only_effect.
Qed.

Lemma subscribers_only_call_error a err sub : subscribers_only (call_error a err sub).
Proof.
  unfold call_error. destruct (error sub); [|by apply subscribers_only_pure].
  apply subscribers_only_bind; [by apply subscribers_only_pure|]. intros st.
  apply subscribers_only_bind; [by apply subscribers_only_pure|]. intros _.
  apply subscribers_only_effect.
Qed.

Lemma report_returns dev what e s : (report dev what e s).1.1 = Ret tt.
Proof. by destruct dev. Qed.

(** A [try] block of [dispatch] around a subscriber loop always returns. *)
Lemma try_report_returns dev what (m : M unit) s :
  (try_catch m (report dev what) s).1.1 = Ret tt.
Proof.
  unfold try_catch. destruct (m s) as [[[[]|e] s1] tr1]; simpl; [done|].
  pose proof (report_returns dev what e s1).
  by destruct (report dev what e s1) as [[r2 s2] tr2].
Qed.

Lemma notify_before_returns dev a s : (notify_before dev a s).1.1 = Ret tt.
Proof. apply try_report_returns. Qed.

Lemma notify_before_frame dev a : subscribers_only (notify_before dev a).
Proof.
  unfold notify_before. apply subscribers_only_try.
  - apply subscribers_only_bind; [by apply subscribers_only_pure|]. intros subs.
    apply subscribers_only_forEach. intros; apply subscribers_only_call_before.
  - intros e. apply subscribers_only_report.
Qed.

Lemma promise_catch_rethrow p : promise_catch p (fun err => inr err) = p.
Proof. by destruct p. Qed.

Lemma wrappedActionHandler_run w payload s p :
  handler_returns (state s) payload w p ->
  wrappedActionHandler w payload s = (Ret p, s, [action_event (state s) payload w]).
Proof.
  intros [[st Hst] Hp].
  unfold wrappedActionHandler, local_state, bind, gets, lift, log. simpl.
  unfold action_event, context_of, local_of in *. rewrite Hst in *. simpl.
  destruct (af_body (wa_handler w) _ payload) as [v|q|e]; simpl in *;
    try discriminate; injection Hp as <-;
    destruct (_devtoolHook s); by rewrite ?promise_catch_rethrow.
Qed.

Lemma mapM_handlers payload entry : forall ps s,
  Forall2 (handler_returns (state s) payload) entry ps ->
  mapM entry (fun handler => wrappedActionHandler handler payload) s =
    (Ret ps, s, map (action_event (state s) payload) entry).
Proof.
  induction entry as [|w rest IH]; intros ps s Hall.
  - apply Forall2_nil_inv_l in Hall as ->. reflexivity.
  - apply Forall2_cons_inv_l in Hall as (p & ps' & Hp & Hps & ->).
    simpl. unfold bind at 1. rewrite (wrappedActionHandler_run _ _ _ _ Hp).
    unfold bind. rewrite (IH _ _ Hps). unfold ret. simpl.
    by rewrite app_nil_r.
Qed.

Lemma first_rejection_in ps t e :
  first_rejection ps = Some (t, e) -> exists j, ps !! j = Some (Rejected t e).
Proof.
  revert t e. induction ps as [|p rest IH]; intros t e H; simpl in H; [discriminate|].
  destruct p as [t0 v|t0 e0|].
  - destruct (IH _ _ H) as [j Hj]. by exists (S j).
  - destruct (first_rejection rest) as [[t' e']|] eqn:Hrest.
    + destruct (t0 <=? t')%nat.
      * injection H as <- <-. by exists 0%nat.
      * injection H as <- <-. destruct (IH _ _ eq_refl) as [j Hj]. by exists (S j).
    + injection H as <- <-. by exists 0%nat.
  - destruct (IH _ _ H) as [j Hj]. by exists (S j).
Qed.

(** [Promise.all] rejects with the earliest rejection, whatever the other
    promises do. *)
Lemma first_rejection_earliest ps : forall i t e,
  ps !! i = Some (Rejected t e) ->
  (forall j t' e', ps !! j = Some (Rejected t' e') ->
                   (t < t' \/ (t = t' /\ i <= j))%nat) ->
  first_rejection ps = Some (t, e).
Proof.
  induction ps as [|p rest IH]; intros i t e Hi Hmin; [done|].
  destruct i as [|i]; simpl in Hi.
  - injection Hi as ->. simpl.
    destruct (first_rejection rest) as [[t' e']|] eqn:Hrest; [|done].
    destruct (first_rejection_in _ _ _ Hrest) as [j Hj].
    destruct (Hmin (S j) t' e' Hj) as [Hlt|[-> _]].
    + by rewrite (proj2 (Nat.leb_le t t')) by lia.
    + by rewrite Nat.leb_refl.
  - assert (Hrest : first_rejection rest = Some (t, e)).
    { apply (IH i); [done|]. intros j t' e' Hj.
      destruct (Hmin (S j) t' e' Hj) as [?|[? ?]]; [left | right]; lia. }
    simpl. rewrite Hrest. destruct p as [t0 v|t0 e0|]; try done.
    destruct (Hmin 0%nat t0 e0 eq_refl) as [Hlt|[_ Hle]]; [|lia].
    by rewrite (proj2 (Nat.leb_gt t0 t)) by lia.
Qed.

Lemma Promise_all_rejects ps i t e :
  ps !! i = Some (Rejected t e) ->
  (forall j t' e', ps !! j = Some (Rejected t' e') ->
                   (t < t' \/ (t = t' /\ i <= j))%nat) ->
  Promise_all ps = Rejected t e.
Proof.
  intros Hi Hmin. unfold Promise_all.
  by rewrite (first_rejection_earliest _ _ _ _ Hi Hmin).
Qed.

Lemma Promise_all_resolves tvs :
  Promise_all (fulfilled_with tvs) =
    Fulfilled (foldr Nat.max 0%nat (map fst tvs)) (VArr (map snd tvs)).
Proof.
  unfold Promise_all.
  assert (H1 : first_rejection (fulfilled_with tvs) = None)
    by (induction tvs as [|[t v] tvs IH]; simpl; auto).
  assert (H2 : all_fulfilled (fulfilled_with tvs)
               = Some (foldr Nat.max 0%nat (map fst tvs), map snd tvs)).
  { induction tvs as [|[t v] tvs IH]; simpl; [done|]. by rewrite IH. }
  by rewrite H1, H2.
Qed.

Lemma reactions_settle dev a s_then :
  (forall res, (onFulfilled dev a res s_then).1.1 = Ret (Resolve res)) /\
  (forall err, (onRejected dev a err s_then).1.1 = Ret (Reject err)).
Proof.
  split; intros x; unfold onFulfilled, onRejected, bind.
  - match goal with |- context [try_catch ?m ?h s_then] =>
      pose proof (try_report_returns dev "after" m s_then) as H;
      destruct (try_catch m h s_then) as [[[[]|e] s1] tr1] end; simpl in *; done.
  - match goal with |- context [try_catch ?m ?h s_then] =>
      pose proof (try_report_returns dev "error" m s_then) as H;
      destruct (try_catch m h s_then) as [[[[]|e] s1] tr1] end; simpl in *; done.
Qed.

Lemma outcome_carried dev a result s_then :
  outcome dev (DPromise a result) s_then = carried result.
Proof.
  destruct (reactions_settle dev a s_then) as [Hf Hr].
  unfold outcome, carried. destruct result as [t v|t e|]; simpl; [|  |done].
  - by rewrite Hf.
  - by rewrite Hr.
Qed.

(** A dispatch whose handlers all return: the [before] phase, then every
    handler started in order, then the promise. *)
Lemma dispatch_entry_run dev a entry ps s :
  entry <> [] ->
  Forall2 (handler_returns (state s) a.2) entry ps ->
  dispatch_entry dev a entry s =
    (Ret (DPromise a (aggregate ps)),
     (notify_before dev a s).1.2,
     (notify_before dev a s).2 ++ map (action_event (state s) a.2) entry).
Proof.
  intros Hne Hall. unfold dispatch_entry, bind at 1.
  pose proof (notify_before_returns dev a s) as Hret.
  pose proof (notify_before_frame dev a s) as Hframe.
  destruct (notify_before dev a s) as [[[[]|e] s1] tr1]; simpl in *; [|done].
  assert (Hst : state s1 = state s) by (by rewrite Hframe).
  rewrite <- Hst in Hall |- *.
  unfold aggregate. rewrite <- (Forall2_length _ _ _ Hall).
  unfold bind at 1.
  destruct (1 <? length entry)%nat eqn:Hlen.
  - unfold bind at 1. rewrite (mapM_handlers _ _ _ _ Hall). simpl.
    by rewrite !app_nil_r.
  - destruct entry as [|w rest]; [done|].
    apply Forall2_cons_inv_l in Hall as (p & ps' & Hp & Hps & ->).
    rewrite (wrappedActionHandler_run _ _ _ _ Hp). simpl.
    destruct rest; [|simpl in Hlen; discriminate].
    simpl. reflexivity.
Qed.

(** C2. In a dispatch of a type with registered handlers, none of which
    throws synchronously: after the [before] subscribers, every handler is
    started, in registration order, inside the [dispatch] call itself, so
    before anything is awaited, and [dispatch] returns one promise, which
    settles as the promise [aggregate ps] does.  With more than one handler
    that promise is fulfilled, once all handlers' promises are, with the
    array of their results in registration order, and is rejected with the
    earliest rejection, at the time of that rejection, whatever the other
    handlers do.  With exactly one handler it is that handler's promise, a
    non-promise return value counting as already fulfilled.  Registration
    order is the order of [entry]: [registerAction] puts the new handler at
    the end. *)
Theorem dispatch_aggregates (dev : bool) (_type _payload : value) (t : string)
    (s : Store) (entry : list wrappedAction) (ps : list promise) :
  let payload := call_payload _type _payload in
  let a := (VStr t, payload) in
  let d := dispatch dev _type _payload s in
  call_type _type = VStr t ->
  _actions s !! t = Some entry ->
  entry <> [] ->
  Forall2 (handler_returns (state s) payload) entry ps ->
  d.1.1 = Ret (DPromise a (aggregate ps)) /\
  d.2 = (notify_before dev a s).2 ++ map (action_event (state s) payload) entry /\
  (forall type handler local s0,
      _actions (registerAction type handler local s0).1.2 !! type =
        Some (default [] (_actions s0 !! type)
              ++ [{| wa_handler := handler; wa_local := local |}])) /\
  (forall s_then,
      outcome dev (DPromise a (aggregate ps)) s_then = carried (aggregate ps)) /\
  ((1 < length entry)%nat ->
   (forall tvs, ps = fulfilled_with tvs ->
      aggregate ps = Fulfilled (foldr Nat.max 0%nat (map fst tvs)) (VArr (map snd tvs))) /\
   (forall i t' e,
      ps !! i = Some (Rejected t' e) ->
      (forall j t'' e', ps !! j = Some (Rejected t'' e') ->
                        (t' < t'' \/ (t' = t'' /\ i <= j))%nat) ->
      aggregate ps = Rejected t' e)) /\
  (forall w, entry = [w] ->
     exists p, ps = [p] /\ aggregate ps = p /\
       forall v, af_body (wa_handler w) (context_of (state s) w) payload = AReturn v ->
                 p = Fulfilled 0 v).
Proof.
  intros payload a d Ht Hentry Hne Hall.
  unfold d. rewrite (dispatch_resolved _ _ _ _ _ Ht), Hentry. fold payload. fold a.
  rewrite (dispatch_entry_run dev a entry ps s Hne Hall). simpl.
  pose proof (Forall2_length _ _ _ Hall) as Hlen.
  split_and!; auto.
  - intros type handler local s0. simpl. apply lookup_insert_eq.
  - intros s_then. apply outcome_carried.
  - intros Hmany. unfold aggregate. rewrite <- Hlen.
    rewrite (proj2 (Nat.ltb_lt 1 (length entry)) Hmany). split.
    + intros tvs ->. apply Promise_all_resolves.
    + intros i t' e Hi Hmin. by apply Promise_all_rejects with i.
  - intros w ->.
    apply Forall2_cons_inv_l in Hall as (p & ps' & [_ Hp] & Hps & ->).
    apply Forall2_nil_inv_l in Hps as ->.
    exists p. split_and!; auto.
    intros v Hv. rewrite Hv in Hp. simpl in Hp. by injection Hp as <-.
Qed.

(** ** Action subscribers that throw *)

Lemma run_action_sub_effect_run eff s :
  run_action_sub_effect eff s =
    (match se_throw eff with Some e => Exc (Thrown e) | None => Ret tt end,
     set_actionSubscribers (after_effect as_id eff (_actionSubscribers s)) s, []).
Proof.
  unfold run_action_sub_effect, after_effect.
  assert (Hloop : forall ids s,
    forEach ids (fun id => modify (fun s =>
       set_actionSubscribers (unsubscribe as_id id (_actionSubscribers s)) s)) s
    = (Ret tt, set_actionSubscribers
                 (foldl (fun l id => unsubscribe as_id id l) (_actionSubscribers s) ids) s,
       [])).
  { induction ids as [|id ids IH]; intros s'; simpl.
    - unfold ret. by destruct s'.
    - unfold bind, modify. rewrite IH. simpl. reflexivity. }
  unfold bind. rewrite Hloop. by destruct (se_throw eff).
Qed.

(** The loop of one phase: [call] is the phase's way of calling a
    subscriber, [cb] what the callbacks do on the state of the store, and
    [ev] the event a call leaves. *)
Lemma phase_loop (call : action_subscriber -> M unit)
    (cb : value -> action_subscriber -> option sub_effect)
    (ev : value -> action_subscriber -> event) :
  (forall sub s eff, cb (state s) sub = Some eff ->
     call sub s =
       (match se_throw eff with Some e => Exc (Thrown e) | None => Ret tt end,
        set_actionSubscribers (after_effect as_id eff (_actionSubscribers s)) s,
        [ev (state s) sub])) ->
  forall l s,
    Forall (fun sub => is_Some (cb (state s) sub)) l ->
    (forEach l call s).1.1 =
      match (notified (cb (state s)) l).2 with
      | Some v => Exc (Thrown v)
      | None => Ret tt
      end /\
    (forEach l call s).2 = map (ev (state s)) (notified (cb (state s)) l).1.
Proof.
  intros Hcall. induction l as [|sub rest IH]; intros s Hall; simpl; [done|].
  apply Forall_cons in Hall as [[eff Heff] Hrest].
  unfold bind. rewrite (Hcall _ _ _ Heff). rewrite Heff. simpl.
  destruct (se_throw eff) as [v|]; simpl; [done|].
  set (s1 := set_actionSubscribers _ s).
  destruct (IH s1 Hrest) as [Hr Htr].
  change (state s1) with (state s) in *.
  destruct (forEach rest call s1) as [[r2 s2] tr2]; simpl in *.
  destruct (notified (cb (state s)) rest) as [called thrown]; simpl in *.
  by rewrite Hr, Htr.
Qed.

Lemma try_phase dev what (m : M unit) s thrown tr :
  (m s).1.1 = match thrown with Some v => Exc (Thrown v) | None => Ret tt end ->
  (m s).2 = tr ->
  (try_catch m (report dev what) s).2 = tr ++ report_trace dev what thrown.
Proof.
  unfold try_catch. destruct (m s) as [[r s1] tr1]; simpl. intros -> ->.
  destruct thrown as [v|]; simpl; [|by rewrite app_nil_r].
  by destruct dev.
Qed.

Lemma filter_all {A} (P : A -> bool) (l : list A) :
  Forall (fun x => P x = true) (filter P l).
Proof.
  apply Forall_forall. intros x Hx. apply list_elem_of_filter in Hx as [Hx _].
  by apply Is_true_true.
Qed.

(** The [try] block of one phase of [dispatch]. *)
Lemma phase_try dev what (has : action_subscriber -> bool)
    (call : action_subscriber -> M unit)
    (cb : value -> action_subscriber -> option sub_effect)
    (ev : value -> action_subscriber -> event) s :
  (forall sub s eff, cb (state s) sub = Some eff ->
     call sub s =
       (match se_throw eff with Some e => Exc (Thrown e) | None => Ret tt end,
        set_actionSubscribers (after_effect as_id eff (_actionSubscribers s)) s,
        [ev (state s) sub])) ->
  (forall st sub, has sub = true -> is_Some (cb st sub)) ->
  (try_catch (subs <- gets _actionSubscribers ;; forEach (filter has subs) call)
     (report dev what) s).2
  = phase_trace dev what (cb (state s)) (ev (state s))
      (filter has (_actionSubscribers s)).
Proof.
  intros Hcall Hhas. unfold phase_trace.
  set (l := filter has (_actionSubscribers s)).
  destruct (phase_loop call cb ev Hcall l s) as [Hr Htr].
  { eapply Forall_impl; [apply (filter_all has)|]. intros sub Hsub. by apply Hhas. }
  apply try_phase.
  - unfold bind at 1, gets at 1. simpl. fold l.
    destruct (forEach l call s) as [[r s1] tr1]; simpl in *. exact Hr.
  - unfold bind at 1, gets at 1. simpl. fold l.
    destruct (forEach l call s) as [[r s1] tr1]; simpl in *. by rewrite Htr.
Qed.

Lemma notify_before_trace dev a s :
  (notify_before dev a s).2 =
    phase_trace dev "before" (before_effect a (state s)) (before_event a (state s))
      (filter has_before (_actionSubscribers s)).
Proof.
  apply (phase_try dev "before" has_before (call_before a) (before_effect a)
           (before_event a)).
  - intros sub s' eff Heff. unfold before_effect, call_before in *.
    destruct (before sub) as [f|]; [|done]. injection Heff as <-.
    unfold bind, gets, log. simpl. by rewrite run_action_sub_effect_run.
  - intros st sub Hsub. unfold has_before in Hsub. apply bool_decide_eq_true in Hsub.
    unfold before_effect. destruct Hsub as [f ->]. by eexists.
Qed.

Lemma onFulfilled_trace dev a res s :
  (onFulfilled dev a res s).2 =
    phase_trace dev "after" (after_effect_of a (state s)) (after_event a (state s))
      (filter has_after (_actionSubscribers s)).
Proof.
  unfold onFulfilled, bind at 1.
  rewrite <- (phase_try dev "after" has_after (call_after a) (after_effect_of a)
                (after_event a)).
  - pose proof (try_report_returns dev "after"
      (subs <- gets _actionSubscribers ;; forEach (filter has_after subs) (call_after a)) s).
    destruct (try_catch _ _ s) as [[[[]|e] s1] tr1]; simpl in *; [|done].
    by rewrite app_nil_r.
  - intros sub s' eff Heff. unfold after_effect_of, call_after in *.
    destruct (after sub) as [f|]; [|done]. injection Heff as <-.
    unfold bind, gets, log. simpl. by rewrite run_action_sub_effect_run.
  - intros st sub Hsub. unfold has_after in Hsub. apply bool_decide_eq_true in Hsub.
    unfold after_effect_of. destruct Hsub as [f ->]. by eexists.
Qed.

Lemma onRejected_trace dev a err s :
  (onRejected dev a err s).2 =
    phase_trace dev "error" (error_effect a (state s) err) (error_event a (state s) err)
      (filter has_error (_actionSubscribers s)).
Proof.
  unfold onRejected, bind at 1.
  rewrite <- (phase_try dev "error" has_error (call_error a err)
                (fun st => error_effect a st err) (fun st => error_event a st err)).
  - pose proof (try_report_returns dev "error"
      (subs <- gets _actionSubscribers ;;
       forEach (filter has_error subs) (call_error a err)) s).
    destruct (try_catch _ _ s) as [[[[]|e] s1] tr1]; simpl in *; [|done].
    by rewrite app_nil_r.
  - intros sub s' eff Heff. unfold error_effect, call_error in *.
    destruct (error sub) as [f|]; [|done]. injection Heff as <-.
    unfold bind, gets, log. simpl. by rewrite run_action_sub_effect_run.
  - intros st sub Hsub. unfold has_error in Hsub. apply bool_decide_eq_true in Hsub.
    unfold error_effect. destruct Hsub as [f ->]. by eexists.
Qed.

Lemma notified_prefix cb l : (notified cb l).1 `prefix_of` l.
Proof.
  induction l as [|sub rest IH]; simpl; [done|].
  destruct (cb sub ≫= se_throw).
  - by apply prefix_cons, prefix_nil.
  - destruct (notified cb rest) as [called thrown]. by apply prefix_cons.
Qed.

Lemma notified_throw cb pre thrower post v :
  Forall (fun sub => cb sub ≫= se_throw = None) pre ->
  cb thrower ≫= se_throw = Some v ->
  notified cb (pre ++ thrower :: post) = (pre ++ [thrower], Some v).
Proof.
  intros Hpre Hthrow. induction Hpre as [|sub pre Hsub Hpre IH]; simpl.
  - by rewrite Hthrow.
  - by rewrite Hsub, IH.
Qed.

(** C10. When a [before] subscriber throws during a dispatch, the
    [before] subscribers that come after it are not called: the one [try]
    block around the whole loop catches the exception, which is reported
    in a development build.  The action handlers are all called all the
    same, and [dispatch] returns its promise, which settles as the
    handlers' aggregate does. *)
Theorem before_throw_skips_rest (dev : bool) (_type _payload : value) (t : string)
    (s : Store) (entry : list wrappedAction) (ps : list promise)
    (pre post : list action_subscriber) (thrower : action_subscriber) (v : value) :
  let payload := call_payload _type _payload in
  let a := (VStr t, payload) in
  let d := dispatch dev _type _payload s in
  call_type _type = VStr t ->
  _actions s !! t = Some entry ->
  entry <> [] ->
  Forall2 (handler_returns (state s) payload) entry ps ->
  filter has_before (_actionSubscribers s) = pre ++ thrower :: post ->
  Forall (fun sub => before_effect a (state s) sub ≫= se_throw = None) pre ->
  before_effect a (state s) thrower ≫= se_throw = Some v ->
  d.1.1 = Ret (DPromise a (aggregate ps)) /\
  d.2 = map (before_event a (state s)) (pre ++ [thrower])
        ++ report_trace dev "before" (Some v)
        ++ map (action_event (state s) payload) entry /\
  (forall s_then,
      outcome dev (DPromise a (aggregate ps)) s_then = carried (aggregate ps)).
Proof.
  intros payload a d Ht Hentry Hne Hall Hsubs Hpre Hthrow.
  unfold d. rewrite (dispatch_resolved _ _ _ _ _ Ht), Hentry. fold payload. fold a.
  rewrite (dispatch_entry_run dev a entry ps s Hne Hall). simpl.
  split_and!; auto.
  - rewrite notify_before_trace. unfold phase_trace.
    rewrite Hsubs, (notified_throw _ _ _ _ _ Hpre Hthrow). simpl.
    by rewrite <- app_assoc.
  - intros s_then. apply outcome_carried.
Qed.

(** C4 (as amended). An exception thrown by a [before], [after] or [error]
    action subscriber never interrupts the dispatch: whatever the
    subscribers do, [dispatch] returns its promise, every action handler is
    called, and the promise settles with the handlers' own result or
    rejection.  In each phase the subscribers are called in order up to
    and including the first one that throws; those after it are skipped,
    and the exception is reported in a development build. *)
Theorem subscriber_errors_do_not_stop_dispatch (dev : bool) (_type _payload : value)
    (t : string) (s : Store) (entry : list wrappedAction) (ps : list promise) :
  let payload := call_payload _type _payload in
  let a := (VStr t, payload) in
  let d := dispatch dev _type _payload s in
  call_type _type = VStr t ->
  _actions s !! t = Some entry ->
  entry <> [] ->
  Forall2 (handler_returns (state s) payload) entry ps ->
  d.1.1 = Ret (DPromise a (aggregate ps)) /\
  d.2 = phase_trace dev "before" (before_effect a (state s)) (before_event a (state s))
          (filter has_before (_actionSubscribers s))
        ++ map (action_event (state s) payload) entry /\
  (forall s_then,
      outcome dev (DPromise a (aggregate ps)) s_then = carried (aggregate ps) /\
      (forall res,
          (onFulfilled dev a res s_then).2 =
            phase_trace dev "after" (after_effect_of a (state s_then))
              (after_event a (state s_then))
              (filter has_after (_actionSubscribers s_then))) /\
      (forall err,
          (onRejected dev a err s_then).2 =
            phase_trace dev "error" (error_effect a (state s_then) err)
              (error_event a (state s_then) err)
              (filter has_error (_actionSubscribers s_then)))).
Proof.
  intros payload a d Ht Hentry Hne Hall.
  unfold d. rewrite (dispatch_resolved _ _ _ _ _ Ht), Hentry. fold payload. fold a.
  rewrite (dispatch_entry_run dev a entry ps s Hne Hall). simpl.
  split_and!; auto.
  - by rewrite notify_before_trace.
  - intros s_then. split_and!.
    + apply outcome_carried.
    + intros res. apply onFulfilled_trace.
    + intros err. apply onRejected_trace.
Qed.

(** ** The install walk *)

Lemma bind_ext {A B} (m : M A) (k1 k2 : A -> M B) s :
  (forall a s', k1 a s' = k2 a s') -> bind m k1 s = bind m k2 s.
Proof.
  intros H. unfold bind. destruct (m s) as [[[a|e] s1] tr1]; [|done]. by rewrite H.
Qed.

(** [installModule] as the source reads: the module's own blocks, then
    [module.forEachChild]. *)
Lemma installModule_eq dev path m hot s :
  installModule dev path m hot s =
    (namespace <- gets (fun s => getNamespace (_modules s) path) ;;
     registerNamespace dev namespace path m ;;;
     setModuleState dev path m hot ;;;
     registerHandlers dev namespace (makeLocalContext namespace path) m ;;;
     forEach (_children m)
       (fun kc => installModule dev (path ++ [kc.1]) kc.2 hot)) s.
Proof.
  destruct m as [r children raw st]. simpl.
  apply bind_ext. intros ns s1. apply bind_ext. intros _ s2.
  apply bind_ext. intros _ s3. apply bind_ext. intros _ s4.
  clear. revert s4. induction children as [|[key child] rest IH]; intros s4; [done|].
  simpl. apply bind_ext. intros _ s5. apply IH.
Qed.

Lemma registerNamespace_run dev namespace path m s :
  registerNamespace dev namespace path m s =
    if namespaced m
    then (Ret tt,
          set_modulesNamespaceMap (<[namespace := m]> (_modulesNamespaceMap s)) s,
          duplicate_namespace_report dev namespace path
            (_modulesNamespaceMap s !! namespace))
    else (Ret tt, s, []).
Proof.
  unfold registerNamespace, duplicate_namespace_report.
  destruct (namespaced m); simpl; [|done].
  unfold bind, gets. simpl.
  destruct (bool_decide (is_Some (_modulesNamespaceMap s !! namespace)) && dev); done.
Qed.

Lemma registerGetter_run dev type rawGetter local s :
  registerGetter dev type rawGetter local s =
    match _wrappedGetters s !! type with
    | Some _ => (Ret tt, s, duplicate_getter_report dev type)
    | None =>
        (Ret tt,
         set_wrappedGetters
           (<[type := {| wg_rawGetter := rawGetter; wg_local := local |}]>
              (_wrappedGetters s)) s, [])
    end.
Proof.
  unfold registerGetter, bind, gets, duplicate_getter_report. simpl.
  destruct (_wrappedGetters s !! type); [by destruct dev | done].
Qed.

Lemma registry_step_refl s : registry_step s s.
Proof. by split_and!. Qed.

Lemma registry_step_trans s1 s2 s3 :
  registry_step s1 s2 -> registry_step s2 s3 -> registry_step s1 s3.
Proof.
  intros (H1 & H2 & H3 & H4 & H5) (K1 & K2 & K3 & K4 & K5).
  split_and!; try congruence. auto.
Qed.

Lemma console_only_app tr1 tr2 :
  console_only tr1 -> console_only tr2 -> console_only (tr1 ++ tr2).
Proof. apply Forall_app_2. Qed.

Lemma registers_ret : registers (ret tt).
Proof. intros s. split_and!; [done | apply registry_step_refl | constructor]. Qed.

Lemma registers_bind (m : M unit) (k : unit -> M unit) :
  registers m -> (forall u, registers (k u)) -> registers (bind m k).
Proof.
  intros Hm Hk s. unfold bind. destruct (Hm s) as (Hr & Hs & Ht).
  destruct (m s) as [[[[]|e] s1] tr1]; simpl in *; [|done].
  destruct (Hk tt s1) as (Hr2 & Hs2 & Ht2).
  destruct (k tt s1) as [[r2 s2] tr2]; simpl in *.
  split_and!; [done | by eapply registry_step_trans | by apply console_only_app].
Qed.

Lemma registers_forEach {A} (l : list A) (f : A -> M unit) :
  (forall x, registers (f x)) -> registers (forEach l f).
Proof.
  intros Hf. induction l as [|x l IH]; simpl; [apply registers_ret|].
  apply registers_bind; auto.
Qed.

Lemma registers_registerMutation type handler local :
  registers (registerMutation type handler local).
Proof. intros s. split_and!; [done| by split_and! | constructor]. Qed.

Lemma registers_registerAction type handler local :
  registers (registerAction type handler local).
Proof. intros s. split_and!; [done| by split_and! | constructor]. Qed.

Lemma registers_registerGetter dev type rawGetter local :
  registers (registerGetter dev type rawGetter local).
Proof.
  intros s. rewrite registerGetter_run.
  destruct (_wrappedGetters s !! type) as [g|] eqn:Hg; simpl.
  - split_and!; [done | apply registry_step_refl |].
    unfold duplicate_getter_report. destruct dev; repeat constructor.
  - split_and!; [done | | constructor]. split_and!; try done.
    intros type' g' Hg'. simpl. rewrite lookup_insert_ne; [done|]. congruence.
Qed.

Lemma registers_registerHandlers dev namespace local m :
  registers (registerHandlers dev namespace local m).
Proof.
  unfold registerHandlers, forEachMutation, forEachAction, forEachGetter, forEachValue.
  apply registers_bind.
  { destruct (mutations (_rawModule m)); [|apply registers_ret].
    apply registers_forEach. intros; apply registers_registerMutation. }
  intros _. apply registers_bind.
  { destruct (actions (_rawModule m)); [|apply registers_ret].
    apply registers_forEach. intros [key [f|handler root]];
      apply registers_registerAction. }
  intros _. destruct (getters (_rawModule m)); [|apply registers_ret].
  apply registers_forEach. intros; apply registers_registerGetter.
Qed.

Lemma setModuleState_skip dev path m hot s :
  path = [] \/ hot = true -> setModuleState dev path m hot s = (Ret tt, s, []).
Proof.
  unfold setModuleState. intros [-> | ->]; simpl; [done|].
  by rewrite andb_false_r.
Qed.

(** The state block for a module below an object: the module's state is
    set under its key, the flag being up, after a warning if the key was
    taken. *)
Lemma setModuleState_run dev parentPath key m s fields :
  getNestedState (state s) parentPath = inr (VObj fields) ->
  setModuleState dev (parentPath ++ [key]) m false s =
    (Ret tt,
     set_state (setNestedState (state s) parentPath
                  (VObj (Obj.set key (mstate m) fields))) s,
     override_report dev key (parentPath ++ [key]) fields
       ++ [EVueSet parentPath key (mstate m) true]).
Proof.
  intros Hparent. unfold setModuleState.
  rewrite bool_decide_eq_false_2 by (by destruct parentPath).
  simpl. rewrite removelast_last, last_last.
  unfold bind at 1, gets at 1. simpl. unfold bind at 1. rewrite Hparent. simpl.
  rewrite withCommit_run. unfold override_report.
  destruct dev; simpl; unfold bind, gets, log, modify; simpl.
  - destruct (Obj.has key fields); simpl; by destruct s.
  - by destruct s.
Qed.

(** ** Paths in the state tree *)

Lemma Obj_set_set key v1 v2 fields :
  Obj.set key v2 (Obj.set key v1 fields) = Obj.set key v2 fields.
Proof.
  induction fields as [|[k w] rest IH]; simpl.
  - by rewrite String.eqb_refl.
  - destruct (String.eqb k key) eqn:E; simpl; rewrite E; [done | by rewrite IH].
Qed.

Lemma own_prop_set key v fields : own_prop (VObj (Obj.set key v fields)) key = v.
Proof. simpl. by rewrite Obj_get_set_eq. Qed.

(** A path that leads to an object starts at an object. *)
Lemma getNestedState_object root key rest fields :
  getNestedState root (key :: rest) = inr (VObj fields) ->
  exists f, root = VObj f /\ getNestedState (own_prop root key) rest = inr (VObj fields).
Proof.
  simpl. destruct root; simpl; try discriminate; try (by destruct rest); eauto.
Qed.

Lemma getNestedState_set root : forall path v q fields,
  getNestedState root path = inr (VObj fields) ->
  getNestedState (setNestedState root path v) (path ++ q) = getNestedState v q.
Proof.
  intros path. revert root. induction path as [|key rest IH]; intros root v q fields H.
  - done.
  - apply getNestedState_object in H as (f & -> & H).
    change (getNestedState (setNestedState (VObj f) (key :: rest) v) ((key :: rest) ++ q))
      with (getNestedState
              (own_prop (VObj (Obj.set key (setNestedState (own_prop (VObj f) key) rest v) f)) key)
              (rest ++ q)).
    rewrite own_prop_set. by eapply IH.
Qed.

Lemma setNestedState_set root : forall path v1 v2 q fields,
  getNestedState root path = inr (VObj fields) ->
  setNestedState (setNestedState root path v1) (path ++ q) v2 =
    setNestedState root path (setNestedState v1 q v2).
Proof.
  intros path. revert root.
  induction path as [|key rest IH]; intros root v1 v2 q fields H.
  - done.
  - apply getNestedState_object in H as (f & -> & H).
    change (VObj (Obj.set key
              (setNestedState
                 (own_prop (VObj (Obj.set key (setNestedState (own_prop (VObj f) key) rest v1) f)) key)
                 (rest ++ q) v2)
              (Obj.set key (setNestedState (own_prop (VObj f) key) rest v1) f))
            = VObj (Obj.set key
                      (setNestedState (own_prop (VObj f) key) rest (setNestedState v1 q v2)) f)).
    rewrite own_prop_set, Obj_set_set. by erewrite IH.
Qed.

Lemma installed_state_eq r children raw st :
  installed_state (mkModule r children raw st) = graft_all children st.
Proof.
  unfold graft_all. simpl. revert st.
  induction children as [|[key child] rest IH]; intros st; simpl; [done|]. apply IH.
Qed.

Lemma graft_all_object l : forall fields, exists fields', graft_all l (VObj fields) = VObj fields'.
Proof.
  induction l as [|[key child] rest IH]; intros fields; simpl; [eauto|].
  unfold graft_all in *. simpl. apply IH.
Qed.

Lemma console_only_guarded tr : console_only tr -> guarded tr.
Proof.
  intros H. eapply Forall_impl; [exact H|]. intros ev Hev. by destruct ev.
Qed.

Lemma object_states_children r children raw st :
  object_states (mkModule r children raw st) ->
  (exists fields, st = VObj fields) /\ Forall (fun kc => object_states kc.2) children.
Proof.
  simpl. intros [Hst Hall]. split; [done|].
  induction children as [|[key child] rest IH]; constructor.
  - apply Hall.
  - apply IH, Hall.
Qed.

(** ** The state tree after the walk *)

Lemma Obj_set_same key v fields :
  Obj.get key fields = Some v -> Obj.set key v fields = fields.
Proof.
  induction fields as [|[k w] rest IH]; simpl; [done|].
  destruct (String.eqb k key) eqn:E.
  - by intros [= ->].
  - intros H. by rewrite IH.
Qed.

(** Writing back the object a path leads to changes nothing. *)
Lemma setNestedState_same path : forall root acc,
  getNestedState root path = inr (VObj acc) ->
  setNestedState root path (VObj acc) = root.
Proof.
  induction path as [|key rest IH]; intros root acc H.
  - simpl in *. by injection H as ->.
  - apply getNestedState_object in H as (f & -> & H).
    change (setNestedState (VObj f) (key :: rest) (VObj acc))
      with (VObj (Obj.set key (setNestedState (own_prop (VObj f) key) rest (VObj acc)) f)).
    rewrite (IH _ _ H). f_equal. apply Obj_set_same.
    unfold own_prop in *. destruct (Obj.get key f) as [v|]; [done|].
    simpl in H. destruct rest; simpl in H; discriminate.
Qed.

Lemma guarded_graft dev key path fields parentPath st :
  guarded (override_report dev key path fields ++ [EVueSet parentPath key st true]).
Proof.
  apply guarded_app.
  - apply console_only_guarded. unfold override_report.
    destruct (_ && _); repeat constructor.
  - constructor; [done | constructor].
Qed.

Lemma grafts_children dev path children :
  Forall (fun kc => grafts dev kc.2) children ->
  Forall (fun kc => object_states kc.2) children ->
  forall s acc,
    getNestedState (state s) path = inr (VObj acc) ->
    exists s' tr,
      forEach children
        (fun kc => installModule dev (path ++ [kc.1]) kc.2 false) s = (Ret tt, s', tr) /\
      state s' = setNestedState (state s) path (graft_all children (VObj acc)) /\
      _committing s' = _committing s /\
      guarded tr.
Proof.
  intros HP Hobj. induction children as [|[key child] rest IH]; intros s acc Hpath.
  - exists s, []. split_and!; auto; [|constructor].
    unfold graft_all. simpl. by rewrite (setNestedState_same _ _ _ Hpath).
  - apply Forall_cons in HP as [Hchild HP]. apply Forall_cons in Hobj as [Hco Hobj].
    specialize (IH HP Hobj). simpl in Hchild, Hco.
    destruct (Hchild path key s acc Hco Hpath)
      as (s1 & report & more & Hrun & Hst & Hc & Hrep & Hmore).
    assert (Hpath1 : getNestedState (state s1) path
                     = inr (VObj (Obj.set key (installed_state child) acc))).
    { rewrite Hst.
      pose proof (getNestedState_set (state s) path
                    (VObj (Obj.set key (installed_state child) acc)) [] acc Hpath) as H.
      by rewrite app_nil_r in H. }
    destruct (IH s1 _ Hpath1) as (s2 & tr2 & Hrun2 & Hst2 & Hc2 & Hg2).
    eexists s2, _. split_and!.
    + simpl. unfold bind. rewrite Hrun, Hrun2. reflexivity.
    + rewrite Hst2, Hst.
      pose proof (setNestedState_set (state s) path
                    (VObj (Obj.set key (installed_state child) acc))
                    (graft_all rest (VObj (Obj.set key (installed_state child) acc)))
                    [] acc Hpath) as H.
      rewrite app_nil_r in H. exact H.
    + congruence.
    + apply guarded_app; [|done].
      apply guarded_app; [by apply console_only_guarded|].
      rewrite app_assoc. apply guarded_app; [apply guarded_graft | done].
Qed.

Lemma grafts_all dev m : grafts dev m.
Proof.
  induction m as [r children raw st IH] using Module_ind'.
  intros parentPath key s fields Hobj Hparent.
  apply object_states_children in Hobj as [[mfields ->] Hobj].
  set (ns := getNamespace (_modules s) (parentPath ++ [key])).
  set (m := mkModule r children raw (VObj mfields)).
  assert (Hstep1 : exists s1 tr1,
    registerNamespace dev ns (parentPath ++ [key]) m s = (Ret tt, s1, tr1) /\
    state s1 = state s /\ _committing s1 = _committing s /\ console_only tr1).
  { rewrite registerNamespace_run.
    destruct (namespaced m); do 2 eexists; split_and!; eauto; [|constructor].
    unfold duplicate_namespace_report. destruct (_ && _); repeat constructor. }
  destruct Hstep1 as (s1 & tr1 & Hrun1 & Hst1 & Hc1 & Htr1).
  assert (Hparent1 : getNestedState (state s1) parentPath = inr (VObj fields))
    by (by rewrite Hst1).
  pose proof (setModuleState_run dev parentPath key m s1 fields Hparent1) as Hrun2.
  set (X := setNestedState (state s1) parentPath (VObj (Obj.set key (mstate m) fields)))
    in *.
  destruct (registers_registerHandlers dev ns (makeLocalContext ns (parentPath ++ [key])) m
              (set_state X s1)) as (Hr3 & (Hst3 & _ & _ & Hc3 & _) & Htr3).
  destruct (registerHandlers dev ns _ m (set_state X s1)) as [[r3 s3] tr3] eqn:Hrun3;
    simpl in Hr3, Hst3, Hc3, Htr3. subst r3.
  assert (Hpath3 : getNestedState (state s3) (parentPath ++ [key]) = inr (VObj mfields)).
  { rewrite Hst3. unfold X.
    rewrite (getNestedState_set _ _ _ [key] fields Hparent1). simpl.
    by rewrite Obj_get_set_eq. }
  destruct (grafts_children dev (parentPath ++ [key]) children IH Hobj s3 mfields Hpath3)
    as (s4 & tr4 & Hrun4 & Hst4 & Hc4 & Hg4).
  exists s4, tr1, (tr3 ++ tr4). split_and!.
  - rewrite installModule_eq.
    unfold bind at 1, gets at 1. simpl. fold ns.
    unfold bind at 1. fold m. rewrite Hrun1.
    unfold bind at 1. rewrite Hrun2.
    unfold bind at 1. rewrite Hrun3.
    change (_children m) with children. rewrite Hrun4.
    by rewrite <- !app_assoc.
  - rewrite Hst4, Hst3. unfold X.
    rewrite (setNestedState_set _ _ _ _ [key] fields Hparent1).
    change (setNestedState (VObj (Obj.set key (mstate m) fields)) [key]
              (graft_all children (VObj mfields)))
      with (VObj (Obj.set key (graft_all children (VObj mfields))
                    (Obj.set key (mstate m) fields))).
    rewrite Obj_set_set, Hst1. unfold m. by rewrite installed_state_eq.
  - congruence.
  - done.
  - apply guarded_app; [by apply console_only_guarded | done].
Qed.

(** C6 (as amended). For a module installed below the root without the
    hot flag, whose parent state is an object: the walk sets the module's
    state object under the module's key in the parent's state, whether or
    not that key is already there, so a field of the same name is
    overridden; the write is made with [_committing] true, as is every
    write of the walk, and the flag is back to its value afterwards; when
    the key is already there a development build warns, and the walk
    returns all the same.  [installed_state] is the module's state object
    with its own children's states set in it by the rest of the walk. *)
Theorem install_grafts_state (dev : bool) (parentPath : list string) (key : string)
    (m : Module_) (s : Store) (fields : list (string * value)) :
  object_states m ->
  getNestedState (state s) parentPath = inr (VObj fields) ->
  let run := installModule dev (parentPath ++ [key]) m false s in
  run.1.1 = Ret tt /\
  state run.1.2 =
    setNestedState (state s) parentPath (VObj (Obj.set key (installed_state m) fields)) /\
  getNestedState (state run.1.2) (parentPath ++ [key]) = inr (installed_state m) /\
  guarded run.2 /\
  _committing run.1.2 = _committing s /\
  exists report rest,
    console_only report /\
    run.2 = report ++ override_report dev key (parentPath ++ [key]) fields
              ++ [EVueSet parentPath key (mstate m) true] ++ rest.
Proof.
  intros Hobj Hparent run.
  destruct (grafts_all dev m parentPath key s fields Hobj Hparent)
    as (s' & report & rest & Hrun & Hst & Hc & Hrep & Hrest).
  unfold run. rewrite Hrun. simpl. split_and!; auto.
  - rewrite Hst, (getNestedState_set _ _ _ [key] fields Hparent). simpl.
    by rewrite Obj_get_set_eq.
  - apply guarded_app; [by apply console_only_guarded|].
    apply guarded_app.
    + apply console_only_guarded. unfold override_report.
      destruct (_ && _); repeat constructor.
    + by constructor.
  - eauto.
Qed.

(** ** The namespace map after the walk *)

Lemma length_append (a b : string) :
  String.length (a +:+ b) = (String.length a + String.length b)%nat.
Proof. induction a as [|c a IH]; simpl; [done | by rewrite IH]. Qed.

Lemma module_at_child root : forall path m key child,
  module_at root path = Some m ->
  getChild m key = Some child ->
  module_at root (path ++ [key]) = Some child.
Proof.
  intros path. revert root. induction path as [|k rest IH]; intros root m key child Hm Hc.
  - simpl in *. injection Hm as ->. by rewrite Hc.
  - simpl in *. destruct (getChild root k) as [c0|]; [|done]. by eapply IH.
Qed.

(** The namespace of a child extends its parent's, properly so when the
    child is namespaced. *)
Lemma getNamespace_child root : forall path m key child,
  module_at root path = Some m ->
  getChild m key = Some child ->
  String.length (getNamespace root (path ++ [key])) =
    (String.length (getNamespace root path)
     + if namespaced child then S (String.length key) else 0)%nat.
Proof.
  intros path. revert root. induction path as [|k rest IH]; intros root m key child Hm Hc.
  - simpl in *. injection Hm as ->. rewrite Hc.
    destruct (namespaced child); simpl; rewrite ?length_append; simpl; lia.
  - simpl in *. destruct (getChild root k) as [c0|]; [|done].
    rewrite !length_append, (IH _ _ _ _ Hm Hc). lia.
Qed.

Lemma assoc_NoDup {A} key (x : A) (l : list (string * A)) :
  NoDup (map fst l) -> (key, x) ∈ l -> assoc key l = Some x.
Proof.
  induction l as [|[k y] rest IH]; intros Hnd Hin; [by apply elem_of_nil in Hin|].
  simpl in *. apply NoDup_cons in Hnd as [Hk Hnd].
  apply elem_of_cons in Hin as [[= -> ->]|Hin].
  - by rewrite String.eqb_refl.
  - destruct (String.eqb k key) eqn:E; [|by apply IH].
    apply String.eqb_eq in E. subst k. exfalso. apply Hk.
    apply list_elem_of_fmap. by exists (key, x).
Qed.

Lemma ns_frame_bind {A B} root bound except (m : M A) (k : A -> M B) :
  ns_frame root bound except m -> (forall a, ns_frame root bound except (k a)) ->
  ns_frame root bound except (bind m k).
Proof.
  intros Hm Hk s Hs. unfold bind. destruct (Hm s Hs) as [Hroot Hmap].
  destruct (m s) as [[[a|e] s1] tr1]; simpl in *; [|done].
  destruct (Hk a s1 Hroot) as [Hroot2 Hmap2].
  destruct (k a s1) as [[r2 s2] tr2]; simpl in *.
  split; [done|]. intros key Hlen Hex. by rewrite Hmap2, Hmap.
Qed.

Lemma ns_frame_same {A} root bound except (m : M A) :
  (forall s, _modules (m s).1.2 = _modules s /\
             _modulesNamespaceMap (m s).1.2 = _modulesNamespaceMap s) ->
  ns_frame root bound except m.
Proof. intros H s Hs. destruct (H s) as [-> ->]. done. Qed.

Lemma ns_frame_forEach {A} root bound except (l : list A) (f : A -> M unit) :
  (forall x, x ∈ l -> ns_frame root bound except (f x)) ->
  ns_frame root bound except (forEach l f).
Proof.
  induction l as [|x l IH]; intros Hf; simpl.
  - by apply ns_frame_same.
  - apply ns_frame_bind; [apply Hf, list_elem_of_here|]. intros _.
    apply IH. intros y Hy. by apply Hf, list_elem_of_further.
Qed.

Lemma ns_frame_weaken {A} root bound bound' except (m : M A) :
  ns_frame root bound' except m ->
  (bound <= bound')%nat ->
  (forall k, except = Some k -> (bound < String.length k)%nat) ->
  ns_frame root bound None m.
Proof.
  intros Hm Hle Hex s Hs. destruct (Hm s Hs) as [Hroot Hmap]. split; [done|].
  intros k Hlen _. apply Hmap; [lia|]. intros Heq. apply Hex in Heq. lia.
Qed.

Section Unaffected.

Context {X : Type} (f : Store -> X).
Hypothesis f_state : forall v s, f (set_state v s) = f s.
Hypothesis f_committing : forall b s, f (set_committing b s) = f s.

Lemma unaffected_pure {A} (m : M A) : (forall s, (m s).1.2 = s) -> unaffected f m.
Proof. intros H s. by rewrite H. Qed.

Lemma unaffected_bind {A B} (m : M A) (k : A -> M B) :
  unaffected f m -> (forall a, unaffected f (k a)) -> unaffected f (bind m k).
Proof.
  intros Hm Hk s. unfold bind. specialize (Hm s).
  destruct (m s) as [[[a|e] s1] tr1]; simpl in *; [|done].
  specialize (Hk a s1). destruct (k a s1) as [[r2 s2] tr2]; simpl in *.
  congruence.
Qed.

Lemma unaffected_when b (m : M unit) : unaffected f m -> unaffected f (when b m).
Proof. destruct b; [done | intros _; by apply unaffected_pure]. Qed.

Lemma unaffected_lift {A} (r : exn + A) : unaffected f (lift r).
Proof. apply unaffected_pure. intros s. by destruct r. Qed.

Lemma unaffected_withCommit (fn : M unit) :
  unaffected f fn -> unaffected f (_withCommit fn).
Proof.
  intros Hfn s. rewrite withCommit_run. specialize (Hfn (set_committing true s)).
  destruct (fn (set_committing true s)) as [[[[]|e] s0] tr0]; simpl in *;
    by rewrite ?f_committing in *.
Qed.

Lemma unaffected_setModuleState dev path m hot :
  unaffected f (setModuleState dev path m hot).
Proof.
  unfold setModuleState. apply unaffected_when.
  apply unaffected_bind; [by apply unaffected_pure|]. intros rootState.
  apply unaffected_bind; [apply unaffected_lift|]. intros parentState.
  apply unaffected_withCommit.
  apply unaffected_bind.
  { apply unaffected_when. apply unaffected_bind; [apply unaffected_lift|].
    intros present. apply unaffected_when. by apply unaffected_pure. }
  intros _. apply unaffected_bind; [by apply unaffected_pure|]. intros c.
  apply unaffected_bind; [by apply unaffected_pure|]. intros _.
  apply unaffected_bind; [apply unaffected_lift|]. intros parentState'.
  intros s. apply f_state.
Qed.

End Unaffected.

Lemma unique_keys_children r children raw st :
  unique_keys (mkModule r children raw st) ->
  NoDup (map fst children) /\ Forall (fun kc => unique_keys kc.2) children.
Proof.
  simpl. intros [Hnd Hall]. split; [done|].
  induction children as [|[key child] rest IH]; constructor.
  - apply Hall.
  - apply IH; [by apply NoDup_cons in Hnd as [_ ?] | apply Hall].
Qed.

Lemma ns_frame_registerNamespace dev root path m :
  ns_frame root (String.length (getNamespace root path))
    (if namespaced m then Some (getNamespace root path) else None)
    (registerNamespace dev (getNamespace root path) path m).
Proof.
  intros s Hs. rewrite registerNamespace_run.
  destruct (namespaced m); simpl; [|done]. split; [done|].
  intros k _ Hne. rewrite lookup_insert_ne; [done|]. congruence.
Qed.

Lemma ns_frame_except {A} root bound except (m : M A) :
  ns_frame root bound None m -> ns_frame root bound except m.
Proof.
  intros Hm s Hs. destruct (Hm s Hs) as [Hroot Hmap]. split; [done|].
  intros k Hlen _. by apply Hmap.
Qed.

Lemma writes_own_namespace_all dev m : writes_own_namespace dev m.
Proof.
  induction m as [r children raw st IH] using Module_ind'.
  intros hot path root Hat Huniq.
  set (m := mkModule r children raw st) in *.
  set (ns := getNamespace root path).
  apply unique_keys_children in Huniq as [Hnd Huniq].
  assert (Hrest : ns_frame root (String.length ns) None
            (setModuleState dev path m hot ;;;
             registerHandlers dev ns (makeLocalContext ns path) m ;;;
             forEach (_children m)
               (fun kc => installModule dev (path ++ [kc.1]) kc.2 hot))).
  { apply ns_frame_bind.
    { apply ns_frame_same. intros s.
      split; by apply unaffected_setModuleState. }
    intros _. apply ns_frame_bind.
    { apply ns_frame_same. intros s.
      destruct (registers_registerHandlers dev ns (makeLocalContext ns path) m s)
        as (_ & (_ & ? & ? & _) & _). done. }
    intros _. apply ns_frame_forEach. intros [key child] Hin.
    assert (Hchild : getChild m key = Some child) by (by apply assoc_NoDup).
    rewrite Forall_forall in IH, Huniq.
    destruct (IH _ Hin hot (path ++ [key]) root
                (module_at_child _ _ _ _ _ Hat Hchild) (Huniq _ Hin)) as [_ Hc].
    pose proof (getNamespace_child _ _ _ _ _ Hat Hchild) as Hlen. simpl in Hc |- *.
    eapply ns_frame_weaken; [exact Hc | |].
    - rewrite Hlen. fold ns. lia.
    - intros k Hk. destruct (namespaced child); [|done].
      injection Hk as <-. rewrite Hlen. fold ns. lia. }
  split; [exact Hrest|].
  assert (Hall : ns_frame root (String.length ns)
            (if namespaced m then Some ns else None)
            (registerNamespace dev ns path m ;;;
             setModuleState dev path m hot ;;;
             registerHandlers dev ns (makeLocalContext ns path) m ;;;
             forEach (_children m)
               (fun kc => installModule dev (path ++ [kc.1]) kc.2 hot))).
  { apply ns_frame_bind; [apply ns_frame_registerNamespace|].
    intros _. by apply ns_frame_except. }
  intros s Hs.
  assert (Heq : installModule dev path m hot s =
                (registerNamespace dev ns path m ;;;
                 setModuleState dev path m hot ;;;
                 registerHandlers dev ns (makeLocalContext ns path) m ;;;
                 forEach (_children m)
                   (fun kc => installModule dev (path ++ [kc.1]) kc.2 hot)) s).
  { rewrite installModule_eq. unfold bind at 1, gets at 1. simpl. rewrite Hs. fold ns.
    by destruct (bind _ _ s) as [[r2 s2] tr2]. }
  rewrite Heq. exact (Hall s Hs).
Qed.

(** ** Getters already registered *)

Lemma keeps_getters_unaffected {A} (m : M A) :
  unaffected _wrappedGetters m -> keeps_getters m.
Proof. intros H s type g Hg. by rewrite H. Qed.

Lemma keeps_getters_bind {A B} (m : M A) (k : A -> M B) :
  keeps_getters m -> (forall a, keeps_getters (k a)) -> keeps_getters (bind m k).
Proof.
  intros Hm Hk s type g Hg. unfold bind. specialize (Hm s type g Hg).
  destruct (m s) as [[[a|e] s1] tr1]; simpl in *; [|done].
  specialize (Hk a s1 type g Hm). by destruct (k a s1) as [[r2 s2] tr2].
Qed.

Lemma keeps_getters_forEach {A} (l : list A) (f : A -> M unit) :
  (forall x, x ∈ l -> keeps_getters (f x)) -> keeps_getters (forEach l f).
Proof.
  induction l as [|x l IH]; intros Hf; simpl.
  - by intros s type g Hg.
  - apply keeps_getters_bind; [apply Hf, list_elem_of_here|]. intros _.
    apply IH. intros y Hy. by apply Hf, list_elem_of_further.
Qed.

(** No install walk replaces a getter that is already registered. *)
Lemma keeps_getters_installModule dev m : forall path hot,
  keeps_getters (installModule dev path m hot).
Proof.
  induction m as [r children raw st IH] using Module_ind'.
  intros path hot s type g Hg. rewrite installModule_eq. revert s type g Hg.
  apply keeps_getters_bind; [by apply keeps_getters_unaffected|]. intros ns.
  apply keeps_getters_bind.
  { apply keeps_getters_unaffected. intros s. rewrite registerNamespace_run.
    by destruct (namespaced _). }
  intros _. apply keeps_getters_bind.
  { apply keeps_getters_unaffected. by apply unaffected_setModuleState. }
  intros _. apply keeps_getters_bind.
  { intros s type g Hg.
    destruct (registers_registerHandlers dev ns (makeLocalContext ns path)
                (mkModule r children raw st) s) as (_ & (_ & _ & _ & _ & H) & _).
    by apply H. }
  intros _. apply keeps_getters_forEach. intros [key child] Hin.
  rewrite Forall_forall in IH. apply (IH _ Hin).
Qed.

Lemma installModule_namespaced dev m path hot s :
  namespaced m = true ->
  module_at (_modules s) path = Some m ->
  unique_keys m ->
  _modulesNamespaceMap (installModule dev path m hot s).1.2
    !! getNamespace (_modules s) path = Some m /\
  exists rest,
    (installModule dev path m hot s).2 =
      duplicate_namespace_report dev (getNamespace (_modules s) path) path
        (_modulesNamespaceMap s !! getNamespace (_modules s) path) ++ rest.
Proof.
  intros Hns Hat Huniq.
  set (root := _modules s) in *. set (ns := getNamespace root path).
  destruct (writes_own_namespace_all dev m hot path root Hat Huniq) as [Hrest _].
  fold ns in Hrest.
  set (rest := (setModuleState dev path m hot ;;;
                registerHandlers dev ns (makeLocalContext ns path) m ;;;
                forEach (_children m)
                  (fun kc => installModule dev (path ++ [kc.1]) kc.2 hot))) in *.
  set (s1 := set_modulesNamespaceMap (<[ns := m]> (_modulesNamespaceMap s)) s).
  assert (Heq : installModule dev path m hot s =
                let '(r, s', tr) := rest s1 in
                (r, s', duplicate_namespace_report dev ns path
                          (_modulesNamespaceMap s !! ns) ++ tr)).
  { rewrite installModule_eq. unfold bind at 1, gets at 1. simpl. fold root ns.
    unfold bind at 1. rewrite registerNamespace_run, Hns. fold s1 rest.
    by destruct (rest s1) as [[r2 s2] tr2]. }
  rewrite Heq. destruct (Hrest s1 eq_refl) as [_ Hmap].
  destruct (rest s1) as [[r2 s2] tr2]; simpl in *. split; [|by eexists].
  rewrite Hmap; [|done|done]. unfold s1. simpl. apply lookup_insert_eq.
Qed.

(** C5 (as amended). Two registrations under one key are reported in a
    development build and are not fatal, and what is kept depends on the
    registry.  For getters the first registrant is kept: [registerGetter]
    on a key that is taken changes nothing, and no install walk replaces a
    getter that is already registered.  For namespaces the later
    registrant is kept: the namespace block of [installModule] overwrites
    the entry, and after the walk over a namespaced module the namespace
    map holds that module under its namespace, whatever was there. *)
Theorem duplicate_registrations (dev : bool) (s : Store) :
  (forall type rawGetter local first,
      _wrappedGetters s !! type = Some first ->
      registerGetter dev type rawGetter local s =
        (Ret tt, s, duplicate_getter_report dev type)) /\
  (forall m path hot type first,
      _wrappedGetters s !! type = Some first ->
      _wrappedGetters (installModule dev path m hot s).1.2 !! type = Some first) /\
  (forall m path namespace,
      namespaced m = true ->
      registerNamespace dev namespace path m s =
        (Ret tt,
         set_modulesNamespaceMap (<[namespace := m]> (_modulesNamespaceMap s)) s,
         duplicate_namespace_report dev namespace path
           (_modulesNamespaceMap s !! namespace))) /\
  (forall m path hot,
      namespaced m = true ->
      module_at (_modules s) path = Some m ->
      unique_keys m ->
      _modulesNamespaceMap (installModule dev path m hot s).1.2
        !! getNamespace (_modules s) path = Some m /\
      exists rest,
        (installModule dev path m hot s).2 =
          duplicate_namespace_report dev (getNamespace (_modules s) path) path
            (_modulesNamespaceMap s !! getNamespace (_modules s) path) ++ rest).
Proof.
  split_and!.
  - intros type rawGetter local first Hfirst.
    by rewrite registerGetter_run, Hfirst.
  - intros m path hot type first Hfirst. by apply keeps_getters_installModule.
  - intros m path namespace Hns. by rewrite registerNamespace_run, Hns.
  - intros m path hot Hns Hat Huniq. by apply installModule_namespaced.
Qed.

(** ** Concrete runs *)

Lemma commit_runs_all_handlers_witness :
  let loop := forEach increment_entry
                (fun handler => wrappedMutationHandler handler (VNum 5))
                (set_committing true watched_store) in
  call_type (VStr "increment") = VStr "increment" /\
  _mutations watched_store !! "increment" = Some increment_entry /\
  loop.1.1 = Ret tt /\
  handlers_run (VNum 5) (state watched_store) increment_entry loop.2 (state loop.1.2) /\
  length loop.2 = length increment_entry.
Proof.
  intros loop.
  assert (H1 : call_type (VStr "increment") = VStr "increment") by reflexivity.
  assert (H2 : _mutations watched_store !! "increment" = Some increment_entry)
    by (vm_compute; reflexivity).
  assert (H3 : loop.1.1 = Ret tt) by (vm_compute; reflexivity).
  pose proof (commit_runs_all_handlers true (VStr "increment") (VNum 5) VUndef
                "increment" watched_store increment_entry H1 H2 H3) as (H4 & H5 & _).
  split_and!; [exact H1 | exact H2 | exact H3 | exact H4 | exact H5].
Defined.

Lemma dispatch_aggregates_witness :
  call_type (VStr "load") = VStr "load" /\
  _actions fresh_store !! "load" = Some load_entry /\
  load_entry <> [] /\
  Forall2 (handler_returns (state fresh_store) (VNum 5)) load_entry load_promises /\
  (dispatch true (VStr "load") (VNum 5) fresh_store).1.1 =
    Ret (DPromise (VStr "load", VNum 5) (aggregate load_promises)) /\
  aggregate load_promises = Fulfilled 3 (VArr [VStr "done"; VNum 5]).
Proof.
  assert (H1 : call_type (VStr "load") = VStr "load") by reflexivity.
  assert (H2 : _actions fresh_store !! "load" = Some load_entry)
    by (vm_compute; reflexivity).
  assert (H3 : load_entry <> []) by discriminate.
  assert (H4 : Forall2 (handler_returns (state fresh_store) (VNum 5))
                 load_entry load_promises).
  { repeat constructor; by eexists. }
  pose proof (dispatch_aggregates true (VStr "load") (VNum 5) "load" fresh_store
                load_entry load_promises H1 H2 H3 H4) as (H5 & _ & _ & _ & H6 & _).
  split_and!; [exact H1 | exact H2 | exact H3 | exact H4 | exact H5 |].
  apply (proj1 (H6 ltac:(simpl; lia)) [(3%nat, VStr "done"); (0%nat, VNum 5)]).
  reflexivity.
Defined.

Lemma unknown_type_is_noop_witness :
  call_type (VStr "missing") = VStr "missing" /\
  _mutations fresh_store !! "missing" = None /\
  _actions fresh_store !! "missing" = None /\
  commit true (VStr "missing") (VNum 1) VUndef fresh_store =
    (Ret tt, fresh_store, unknown_type_report true "mutation" "missing") /\
  dispatch true (VStr "missing") (VNum 1) fresh_store =
    (Ret DUndefined, fresh_store, unknown_type_report true "action" "missing").
Proof.
  assert (H1 : call_type (VStr "missing") = VStr "missing") by reflexivity.
  assert (H2 : _mutations fresh_store !! "missing" = None) by (vm_compute; reflexivity).
  assert (H3 : _actions fresh_store !! "missing" = None) by (vm_compute; reflexivity).
  pose proof (unknown_type_is_noop true (VStr "missing") (VNum 1) VUndef "missing"
                fresh_store H1) as [Hc Hd].
  split_and!; [exact H1 | exact H2 | exact H3 | exact (Hc H2) | exact (Hd H3)].
Defined.

(** C4, as stated, fails.  With [before] subscribers 5 (throws) and 6, a
    dispatch calls 5 only: subscriber 6, which comes after the one that
    throws, is not run.  And with commit subscribers 3 (throws) and 4, the
    exception is not caught: the commit ends with it, and 4 is not run. *)
Lemma subscriber_errors_counterexample :
  (dispatch true (VStr "load") (VNum 5) faulty_store).2 =
    [EBefore 5 (VStr "load", VNum 5) (state faulty_store);
     EConsoleWarn "[vuex] error in before action subscribers: ";
     EConsoleErrorExn (Thrown (VStr "boom"));
     EAction 1 (context_of (state faulty_store) {| wa_handler := resolves_later 1 3 (VStr "done"); wa_local := makeLocalContext "" [] |}) (VNum 5);
     EAction 2 (context_of (state faulty_store) {| wa_handler := returns_payload 2; wa_local := makeLocalContext "" ["a"] |}) (VNum 5)] /\
  (forall a st, EBefore 6 a st ∉ (dispatch true (VStr "load") (VNum 5) faulty_store).2) /\
  (commit true (VStr "increment") (VNum 5) VUndef faulty_store).1.1
    = Exc (Thrown (VStr "boom")) /\
  (forall m st,
      ESubscriber 4 m st ∉ (commit true (VStr "increment") (VNum 5) VUndef faulty_store).2).
Proof.
  assert (Hd : (dispatch true (VStr "load") (VNum 5) faulty_store).2 =
    [EBefore 5 (VStr "load", VNum 5) (state faulty_store);
     EConsoleWarn "[vuex] error in before action subscribers: ";
     EConsoleErrorExn (Thrown (VStr "boom"));
     EAction 1 (context_of (state faulty_store) {| wa_handler := resolves_later 1 3 (VStr "done"); wa_local := makeLocalContext "" [] |}) (VNum 5);
     EAction 2 (context_of (state faulty_store) {| wa_handler := returns_payload 2; wa_local := makeLocalContext "" ["a"] |}) (VNum 5)])
    by (vm_compute; reflexivity).
  split_and!.
  - exact Hd.
  - intros a st. rewrite Hd. intros Hin.
    repeat (apply elem_of_cons in Hin as [Hin|Hin]; [discriminate|]).
    by apply elem_of_nil in Hin.
  - vm_compute; reflexivity.
  - intros m st Hin.
    assert (Hc : (commit true (VStr "increment") (VNum 5) VUndef faulty_store).2 =
      [EMutation 1 (state faulty_store) (VNum 5) true;
       EMutation 2 (VObj [("count", VNum 10); ("b", VObj [("n", VNum 1)])]) (VNum 5) true;
       ESubscriber 3 (VStr "increment", VNum 5)
         (VObj [("count", VNum 5);
                ("a", VObj [("count", VNum 15); ("b", VObj [("n", VNum 1)])]);
                ("b", VObj [("n", VNum 2)])])])
      by (vm_compute; reflexivity).
    rewrite Hc in Hin.
    repeat (apply elem_of_cons in Hin as [Hin|Hin]; [discriminate|]).
    by apply elem_of_nil in Hin.
Qed.

Lemma subscriber_errors_do_not_stop_dispatch_witness :
  call_type (VStr "load") = VStr "load" /\
  _actions faulty_store !! "load" = Some load_entry /\
  load_entry <> [] /\
  Forall2 (handler_returns (state faulty_store) (VNum 5)) load_entry load_promises /\
  (dispatch true (VStr "load") (VNum 5) faulty_store).1.1 =
    Ret (DPromise (VStr "load", VNum 5) (aggregate load_promises)) /\
  (forall s_then,
      outcome true (DPromise (VStr "load", VNum 5) (aggregate load_promises)) s_then
      = carried (aggregate load_promises)).
Proof.
  assert (H1 : call_type (VStr "load") = VStr "load") by reflexivity.
  assert (H2 : _actions faulty_store !! "load" = Some load_entry)
    by (vm_compute; reflexivity).
  assert (H3 : load_entry <> []) by discriminate.
  assert (H4 : Forall2 (handler_returns (state faulty_store) (VNum 5))
                 load_entry load_promises).
  { repeat constructor; by eexists. }
  pose proof (subscriber_errors_do_not_stop_dispatch true (VStr "load") (VNum 5) "load"
                faulty_store load_entry load_promises H1 H2 H3 H4) as (H5 & _ & H6).
  split_and!; [exact H1 | exact H2 | exact H3 | exact H4 | exact H5 |].
  intros s_then. exact (proj1 (H6 s_then)).
Defined.

(** C5, as stated, fails for namespaces.  In [root_module] the modules at
    [a/b] and at [b] both have the namespace [b/].  The walk reaches [a/b]
    first, and once it has been over [a] the map holds that module; when
    the walk is done the map holds the module at [b], registered later:
    the first registrant has been replaced. *)
Lemma duplicate_namespace_counterexample :
  getNamespace root_module ["a"; "b"] = "b/" /\
  getNamespace root_module ["b"] = "b/" /\
  module_at root_module ["a"; "b"] = Some (namespaced_leaf 1) /\
  module_at root_module ["b"] = Some (namespaced_leaf 2) /\
  _modulesNamespaceMap
    (installModule true ["a"] module_a false (blank root_module false)).1.2 !! "b/"
    = Some (namespaced_leaf 1) /\
  _modulesNamespaceMap fresh_store !! "b/" = Some (namespaced_leaf 2) /\
  _modulesNamespaceMap fresh_store !! "b/" <> Some (namespaced_leaf 1).
Proof.
  assert (H : _modulesNamespaceMap fresh_store !! "b/" = Some (namespaced_leaf 2))
    by (vm_compute; reflexivity).
  split_and!; try (vm_compute; reflexivity).
  rewrite H. discriminate.
Qed.

Lemma duplicate_registrations_witness :
  _wrappedGetters fresh_store !! "total"
    = Some {| wg_rawGetter := {| gf_id := 1 |}; wg_local := makeLocalContext "" [] |} /\
  namespaced (namespaced_leaf 2) = true /\
  module_at (_modules fresh_store) ["b"] = Some (namespaced_leaf 2) /\
  unique_keys (namespaced_leaf 2) /\
  registerGetter true "total" {| gf_id := 2 |} (makeLocalContext "" ["a"]) fresh_store =
    (Ret tt, fresh_store, duplicate_getter_report true "total") /\
  _modulesNamespaceMap
    (installModule true ["b"] (namespaced_leaf 2) true fresh_store).1.2
    !! getNamespace (_modules fresh_store) ["b"] = Some (namespaced_leaf 2).
Proof.
  assert (H1 : _wrappedGetters fresh_store !! "total"
    = Some {| wg_rawGetter := {| gf_id := 1 |}; wg_local := makeLocalContext "" [] |})
    by (vm_compute; reflexivity).
  assert (H2 : namespaced (namespaced_leaf 2) = true) by reflexivity.
  assert (H3 : module_at (_modules fresh_store) ["b"] = Some (namespaced_leaf 2))
    by (vm_compute; reflexivity).
  assert (H4 : unique_keys (namespaced_leaf 2)) by (simpl; split; [constructor | exact I]).
  pose proof (duplicate_registrations true fresh_store) as (Hg & _ & _ & Hn).
  split_and!; [exact H1 | exact H2 | exact H3 | exact H4 | |].
  - exact (Hg "total" {| gf_id := 2 |} (makeLocalContext "" ["a"]) _ H1).
  - exact (proj1 (Hn (namespaced_leaf 2) ["b"] true H2 H3 H4)).
Defined.

(** C6, as stated, fails.  The root state of [clash_root] has a field [a]
    when module [a] is installed; the module's state is set under [a] all
    the same, and the field is lost. *)
Lemma install_overrides_counterexample :
  state (blank clash_root false) = VObj [("a", VNum 1)] /\
  in_op "a" (state (blank clash_root false)) = inr true /\
  (installModule true ["a"] plain_leaf false (blank clash_root false)).1.1 = Ret tt /\
  state (installModule true ["a"] plain_leaf false (blank clash_root false)).1.2
    = VObj [("a", VObj [("x", VNum 0)])] /\
  state (new_Store true clash_root false).1.2 = VObj [("a", VObj [("x", VNum 0)])].
Proof. split_and!; vm_compute; reflexivity. Qed.

Lemma install_grafts_state_witness :
  object_states plain_leaf /\
  getNestedState (state (blank clash_root false)) [] = inr (VObj [("a", VNum 1)]) /\
  (installModule true ([] ++ ["a"]) plain_leaf false (blank clash_root false)).1.1 = Ret tt /\
  state (installModule true ([] ++ ["a"]) plain_leaf false (blank clash_root false)).1.2 =
    setNestedState (state (blank clash_root false)) []
      (VObj (Obj.set "a" (installed_state plain_leaf) [("a", VNum 1)])) /\
  guarded (installModule true ([] ++ ["a"]) plain_leaf false (blank clash_root false)).2.
Proof.
  assert (H1 : object_states plain_leaf) by (simpl; split; [by eexists | exact I]).
  assert (H2 : getNestedState (state (blank clash_root false)) []
               = inr (VObj [("a", VNum 1)])) by reflexivity.
  pose proof (install_grafts_state true [] "a" plain_leaf (blank clash_root false)
                [("a", VNum 1)] H1 H2) as (H3 & H4 & _ & H5 & _).
  split_and!; [exact H1 | exact H2 | exact H3 | exact H4 | exact H5].
Defined.

Lemma subscribe_then_unsubscribe_witness :
  NoDup (sub_id <$> _subscribers fresh_store) /\
  _subscribers (subscribe (once 7) VUndef fresh_store).1.2 = [once 7] /\
  (commit true (VStr "increment") (VNum 5) VUndef watched_store).1.1 = Ret tt /\
  (sub_id (once 7) ∉ sub_id <$>
     _subscribers (commit true (VStr "increment") (VNum 5) VUndef watched_store).1.2).
Proof.
  assert (H0 : NoDup (sub_id <$> _subscribers fresh_store)) by (vm_compute; constructor).
  pose proof (subscribe_then_unsubscribe (once 7) fresh_store H0)
    as (_ & H2 & _ & _ & Hcommit & _).
  assert (Hc1 : call_type (VStr "increment") = VStr "increment") by reflexivity.
  assert (Hc2 : _mutations watched_store !! "increment" = Some increment_entry)
    by (vm_compute; reflexivity).
  assert (Hc3 : (forEach increment_entry
                   (fun handler => wrappedMutationHandler handler (VNum 5))
                   (set_committing true watched_store)).1.1 = Ret tt)
    by (vm_compute; reflexivity).
  assert (Hc4 : NoDup (sub_id <$> _subscribers watched_store)).
  { vm_compute. repeat constructor; intros Hin;
      repeat (apply elem_of_cons in Hin as [Hin|Hin]; [discriminate|]);
      by apply elem_of_nil in Hin. }
  assert (Hc5 : once 7 ∈ _subscribers watched_store) by apply list_elem_of_here.
  pose proof (Hcommit true (VStr "increment") (VNum 5) VUndef "increment"
                increment_entry watched_store Hc1 Hc2 Hc3 Hc4 Hc5) as Hrun.
  simpl in Hrun.
  assert (Hc6 : (7%nat : nat) ∈ [7%nat]) by apply list_elem_of_here.
  assert (Hc7 : forall sub, sub ∈ _subscribers watched_store ->
                  se_throw (sub_fn sub (VStr "increment", VNum 5)
                    (state (forEach increment_entry
                       (fun handler => wrappedMutationHandler handler (VNum 5))
                       (set_committing true watched_store)).1.2)) = None).
  { intros sub Hin.
    apply elem_of_cons in Hin as [->|Hin]; [reflexivity|].
    apply elem_of_cons in Hin as [->|Hin]; [reflexivity|].
    by apply elem_of_nil in Hin. }
  destruct (Hrun Hc6 Hc7) as (H3 & _ & H4).
  split_and!; [exact H0 | exact H2 | exact H3 | exact H4].
Defined.

Lemma withCommit_flag_witness :
  let fn := forEach increment_entry
              (fun handler => wrappedMutationHandler handler (VStr "five")) in
  keeps_guard fn /\
  _committing fresh_store = false /\
  (_withCommit fn fresh_store).1.1 = Exc (Thrown (VStr "not a number")) /\
  _committing (_withCommit fn fresh_store).1.2 = true /\
  (commit true (VStr "increment") (VStr "five") VUndef fresh_store).1.1
    = Exc (Thrown (VStr "not a number")) /\
  _committing (commit true (VStr "increment") (VStr "five") VUndef fresh_store).1.2 = true.
Proof.
  intros fn.
  assert (H0 : keeps_guard fn) by apply keeps_guard_handlers.
  pose proof (withCommit_flag fn fresh_store H0) as (_ & _ & H3 & _ & H5).
  assert (E : (fn (set_committing true fresh_store)).1.1
              = Exc (Thrown (VStr "not a number"))) by (vm_compute; reflexivity).
  rewrite E in H3. destruct H3 as [H3 H4].
  assert (E2 : _mutations fresh_store !! "increment" = Some increment_entry)
    by (vm_compute; reflexivity).
  destruct (fn (set_committing true fresh_store)) as [[r0 s0] tr0] eqn:Hrun.
  simpl in E. subst r0.
  destruct (H5 true "increment" (VStr "five") VUndef increment_entry _ s0 tr0
              E2 eq_refl eq_refl) as [H6 H7].
  split_and!; [exact H0 | reflexivity | exact H3 | exact H4 | by rewrite H6 | by rewrite H6].
Defined.

Lemma before_throw_skips_rest_witness :
  call_type (VStr "load") = VStr "load" /\
  _actions faulty_store !! "load" = Some load_entry /\
  load_entry <> [] /\
  Forall2 (handler_returns (state faulty_store) (VNum 5)) load_entry load_promises /\
  filter has_before (_actionSubscribers faulty_store)
    = [] ++ before_faulty 5 :: [before_watcher 6] /\
  Forall (fun sub => before_effect (VStr "load", VNum 5) (state faulty_store) sub
                       ≫= se_throw = None) [] /\
  before_effect (VStr "load", VNum 5) (state faulty_store) (before_faulty 5)
    ≫= se_throw = Some (VStr "boom") /\
  (dispatch true (VStr "load") (VNum 5) faulty_store).1.1 =
    Ret (DPromise (VStr "load", VNum 5) (aggregate load_promises)) /\
  (dispatch true (VStr "load") (VNum 5) faulty_store).2 =
    map (before_event (VStr "load", VNum 5) (state faulty_store)) ([] ++ [before_faulty 5])
    ++ report_trace true "before" (Some (VStr "boom"))
    ++ map (action_event (state faulty_store) (VNum 5)) load_entry.
Proof.
  assert (H1 : call_type (VStr "load") = VStr "load") by reflexivity.
  assert (H2 : _actions faulty_store !! "load" = Some load_entry)
    by (vm_compute; reflexivity).
  assert (H3 : load_entry <> []) by discriminate.
  assert (H4 : Forall2 (handler_returns (state faulty_store) (VNum 5))
                 load_entry load_promises).
  { repeat constructor; by eexists. }
  assert (H5 : filter has_before (_actionSubscribers faulty_store)
               = [] ++ before_faulty 5 :: [before_watcher 6]) by reflexivity.
  assert (H6 : Forall (fun sub => before_effect (VStr "load", VNum 5)
                         (state faulty_store) sub ≫= se_throw = None) [])
    by constructor.
  assert (H7 : before_effect (VStr "load", VNum 5) (state faulty_store) (before_faulty 5)
               ≫= se_throw = Some (VStr "boom")) by reflexivity.
  pose proof (before_throw_skips_rest true (VStr "load") (VNum 5) "load" faulty_store
                load_entry load_promises [] [before_watcher 6] (before_faulty 5)
                (VStr "boom") H1 H2 H3 H4 H5 H6 H7) as (H8 & H9 & _).
  split_and!; [exact H1 | exact H2 | exact H3 | exact H4 | exact H5 | exact H6
              | exact H7 | exact H8 | exact H9].
Defined.

(** * Further properties *)

(** ** State paths *)

(** X1. Looking up a path in two steps is looking it up in one: the
    lookup of [p ++ q] fails where the lookup of [p] fails, with the same
    error, and otherwise goes on with [q] from what [p] leads to. *)
Theorem getNestedState_app (st : value) (p q : list string) :
  getNestedState st (p ++ q) =
    match getNestedState st p with
    | inl e => inl e
    | inr v => getNestedState v q
    end.
Proof.
  revert st. induction p as [|key rest IH]; intros st; simpl; [done|].
  destruct (get_prop st key) as [e|v]; [done | apply IH].
Qed.



(** ** Call styles *)

(** X3. The object style is the string style with the object as payload:
    [commit ({ type: t, ... }, options)] does what
    [commit (t, { type: t, ... }, options)] does, and likewise for
    [dispatch], for a type [t] that is a non-empty string. *)
Theorem object_style_is_string_style (dev : bool) (fields : list (string * value))
    (t : string) (second third : value) (s : Store) :
  Obj.get "type" fields = Some (VStr t) ->
  t <> "" ->
  commit dev (VObj fields) second third s = commit dev (VStr t) (VObj fields) second s /\
  dispatch dev (VObj fields) second s = dispatch dev (VStr t) (VObj fields) s.
Proof.
  intros Htype Hne.
  assert (Htruthy : truthy (own_prop (VObj fields) "type") = true).
  { simpl. rewrite Htype. simpl. destruct (String.eqb t "") eqn:E; [|done].
    by apply String.eqb_eq in E. }
  assert (Hcall : call_type (VObj fields) = VStr t).
  { unfold call_type. rewrite Htruthy. simpl. by rewrite Htype. }
  split.
  - rewrite (commit_resolved dev (VObj fields) second third t s Hcall).
    rewrite (commit_resolved dev (VStr t) (VObj fields) second t s eq_refl).
    unfold call_payload. rewrite Htruthy. reflexivity.
  - rewrite (dispatch_resolved dev (VObj fields) second t s Hcall).
    rewrite (dispatch_resolved dev (VStr t) (VObj fields) t s eq_refl).
    unfold call_payload. rewrite Htruthy. reflexivity.
Qed.

Lemma object_style_is_string_style_witness :
  Obj.get "type" [("type", VStr "increment"); ("by", VNum 2)] = Some (VStr "increment") /\
  "increment" <> "" /\
  commit true (VObj [("type", VStr "increment"); ("by", VNum 2)]) VUndef VUndef fresh_store =
    commit true (VStr "increment") (VObj [("type", VStr "increment"); ("by", VNum 2)])
      VUndef fresh_store.
Proof.
  assert (H1 : Obj.get "type" [("type", VStr "increment"); ("by", VNum 2)]
               = Some (VStr "increment")) by reflexivity.
  assert (H2 : "increment" <> "") by discriminate.
  split_and!; [exact H1 | exact H2 |].
  exact (proj1 (object_style_is_string_style true _ "increment" VUndef VUndef
                  fresh_store H1 H2)).
Defined.



(** ** Subscribing and unsubscribing *)

Lemma unsubscribe_absent {A} (ident : A -> nat) id (subs : list A) :
  id ∉ ident <$> subs -> unsubscribe ident id subs = subs.
Proof.
  intros Hnot. apply indexOf_absent in Hnot. unfold unsubscribe.
  destruct (-1 <? indexOf ident id subs) eqn:E; [|done]. apply Z.ltb_lt in E. lia.
Qed.

Lemma unsubscribe_cons {A} (ident : A -> nat) id x (subs : list A) :
  unsubscribe ident id (x :: subs) =
    if Nat.eqb (ident x) id then subs else x :: unsubscribe ident id subs.
Proof.
  unfold unsubscribe. simpl. destruct (Nat.eqb (ident x) id); [done|].
  pose proof (indexOf_lower ident id subs).
  destruct (indexOf ident id subs <? 0) eqn:E.
  - apply Z.ltb_lt in E. simpl.
    by rewrite (proj2 (Z.ltb_ge (-1) (indexOf ident id subs))) by lia.
  - apply Z.ltb_ge in E.
    rewrite (proj2 (Z.ltb_lt (-1) (indexOf ident id subs + 1))) by lia.
    rewrite (proj2 (Z.ltb_lt (-1) (indexOf ident id subs))) by lia.
    replace (Z.to_nat (indexOf ident id subs + 1))
      with (S (Z.to_nat (indexOf ident id subs))) by lia.
    reflexivity.
Qed.

Lemma unsubscribe_filter {A} (ident : A -> nat) id (subs : list A) :
  NoDup (ident <$> subs) ->
  unsubscribe ident id subs = filter (fun x => ident x <> id) subs.
Proof.
  induction subs as [|x rest IH]; intros Hnd; [done|].
  rewrite fmap_cons in Hnd. apply NoDup_cons in Hnd as [Hx Hnd].
  rewrite unsubscribe_cons. destruct (Nat.eqb (ident x) id) eqn:E.
  - apply Nat.eqb_eq in E. rewrite filter_cons_False by (intros H; by apply H).
    rewrite <- IH by done. symmetry. apply unsubscribe_absent. by rewrite <- E.
  - apply Nat.eqb_neq in E. rewrite filter_cons_True by done. by rewrite IH.
Qed.

(** X5. On a list without duplicates the unsubscribe capability takes out
    the subscriber it was made for and keeps the others in their order;
    calling it again, or calling it when the subscriber is not in the
    list, changes nothing. *)
Theorem unsubscribe_is_filter {A} (ident : A -> nat) (id : nat) (subs : list A) :
  NoDup (ident <$> subs) ->
  unsubscribe ident id subs = filter (fun x => ident x <> id) subs /\
  unsubscribe ident id (unsubscribe ident id subs) = unsubscribe ident id subs /\
  (id ∉ ident <$> subs -> unsubscribe ident id subs = subs).
Proof.
  intros Hnd. split_and!.
  - by apply unsubscribe_filter.
  - apply unsubscribe_absent. by apply unsubscribe_removes.
  - apply unsubscribe_absent.
Qed.

Lemma unsubscribe_is_filter_witness :
  NoDup (sub_id <$> [watcher 1; watcher 2; watcher 3]) /\
  unsubscribe sub_id 2 [watcher 1; watcher 2; watcher 3] =
    filter (fun x => sub_id x <> 2%nat) [watcher 1; watcher 2; watcher 3].
Proof.
  assert (H : NoDup (sub_id <$> [watcher 1; watcher 2; watcher 3])).
  { simpl. repeat constructor; intros Hin;
      repeat (apply elem_of_cons in Hin as [Hin|Hin]; [discriminate|]);
      by apply elem_of_nil in Hin. }
  split; [exact H|].
  exact (proj1 (unsubscribe_is_filter sub_id 2 [watcher 1; watcher 2; watcher 3] H)).
Defined.

Lemma unsubscribe_app_new {A} (ident : A -> nat) fn (subs : list A) :
  ident fn ∉ ident <$> subs -> unsubscribe ident (ident fn) (subs ++ [fn]) = subs.
Proof.
  induction subs as [|x rest IH]; intros Hnot.
  - simpl. rewrite unsubscribe_cons. by rewrite Nat.eqb_refl.
  - rewrite fmap_cons in Hnot. apply not_elem_of_cons in Hnot as [Hne Hnot].
    simpl. rewrite unsubscribe_cons.
    rewrite (proj2 (Nat.eqb_neq (ident x) (ident fn))) by congruence.
    by rewrite IH.
Qed.

(** X6. Subscribing and then calling the returned capability gives back
    the list as it was, whether the subscriber was appended or, with
    [{ prepend: true }], put first.  Subscribing a function that is
    already subscribed adds nothing, yet the capability returned by that
    second call removes the subscription all the same. *)
Theorem subscribe_capability (fn : subscriber) (options : value) (s : Store) :
  NoDup (sub_id <$> _subscribers s) ->
  exists capability,
    (subscribe fn options s).1.1 = Ret capability /\
    (sub_id fn ∉ sub_id <$> _subscribers s ->
     capability (_subscribers (subscribe fn options s).1.2) = _subscribers s) /\
    (sub_id fn ∈ sub_id <$> _subscribers s ->
     _subscribers (subscribe fn options s).1.2 = _subscribers s /\
     sub_id fn ∉ sub_id <$> capability (_subscribers (subscribe fn options s).1.2)).
Proof.
  intros Hnd. exists (unsubscribe sub_id (sub_id fn)).
  unfold subscribe, bind, gets, genericSubscribe. simpl.
  split_and!; [done | |].
  - intros Hnot. pose proof Hnot as Hidx. apply indexOf_absent in Hidx.
    rewrite (proj2 (Z.ltb_lt _ 0) Hidx).
    destruct (truthy options && truthy (own_prop options "prepend")).
    + rewrite unsubscribe_cons. by rewrite Nat.eqb_refl.
    + by apply unsubscribe_app_new.
  - intros Hin.
    assert (Hidx : (indexOf sub_id (sub_id fn) (_subscribers s) <? 0) = false).
    { apply Z.ltb_ge. destruct (Z.lt_ge_cases (indexOf sub_id (sub_id fn) (_subscribers s)) 0)
        as [Hlt|Hge]; [|lia]. by apply indexOf_absent in Hlt. }
    rewrite Hidx. split; [done|]. by apply unsubscribe_removes.
Qed.

Lemma subscribe_capability_witness :
  NoDup (sub_id <$> _subscribers watched_store) /\
  exists capability,
    (subscribe (watcher 8) VUndef watched_store).1.1 = Ret capability /\
    _subscribers (subscribe (watcher 8) VUndef watched_store).1.2
      = _subscribers watched_store /\
    (8%nat ∉ sub_id <$>
       capability (_subscribers (subscribe (watcher 8) VUndef watched_store).1.2)).
Proof.
  assert (H : NoDup (sub_id <$> _subscribers watched_store)).
  { vm_compute. repeat constructor; intros Hin;
      repeat (apply elem_of_cons in Hin as [Hin|Hin]; [discriminate|]);
      by apply elem_of_nil in Hin. }
  split; [exact H|].
  destruct (subscribe_capability (watcher 8) VUndef watched_store H)
    as (capability & Hret & _ & Hdup).
  exists capability.
  assert (Hin : sub_id (watcher 8) ∈ sub_id <$> _subscribers watched_store)
    by (apply list_elem_of_further, list_elem_of_here).
  destruct (Hdup Hin) as [Hsame Hgone].
  split_and!; [exact Hret | exact Hsame | exact Hgone].
Defined.

(** X7. A subscriber added with [{ prepend: true }] is put at the head of
    the list, and a commit then calls it before every other subscriber,
    with the state the handlers have left. *)
Theorem prepended_subscriber_is_called_first (dev : bool) (fn : subscriber)
    (options : value) (t : string) (payload : value) (s : Store)
    (entry : list wrappedMutation) :
  let s1 := (subscribe fn options s).1.2 in
  let loop := forEach entry (fun handler => wrappedMutationHandler handler payload)
                (set_committing true s1) in
  truthy options && truthy (own_prop options "prepend") = true ->
  sub_id fn ∉ sub_id <$> _subscribers s ->
  _mutations s !! t = Some entry ->
  loop.1.1 = Ret tt ->
  _subscribers s1 = fn :: _subscribers s /\
  exists rest,
    (commit dev (VStr t) payload VUndef s1).2 =
      loop.2 ++ subscriber_event (VStr t, payload) (state loop.1.2) fn :: rest.
Proof.
  intros s1 loop Hpre Hnot Hentry Hok.
  assert (Hs1 : _subscribers s1 = fn :: _subscribers s).
  { unfold s1, subscribe, bind, gets, genericSubscribe. simpl.
    apply indexOf_absent in Hnot. by rewrite (proj2 (Z.ltb_lt _ 0) Hnot), Hpre. }
  split; [exact Hs1|].
  destruct loop as [[r0 s0] tr0] eqn:Hloop. simpl in Hok. subst r0.
  destruct (handlers_loop payload entry (set_committing true s1) s0 tr0 eq_refl Hloop)
    as [_ Hs0].
  assert (Hentry1 : _mutations s1 !! t = Some entry) by exact Hentry.
  rewrite commit_string, Hentry1.
  rewrite (commit_entry_run _ _ _ _ _ _ _ _ Hloop). simpl.
  assert (Hsubs0 : _subscribers s0 = fn :: _subscribers s) by (by rewrite Hs0).
  rewrite Hsubs0. simpl. unfold bind at 1. rewrite call_subscriber_run. simpl.
  destruct (se_throw (sub_fn fn (VStr t, payload) (state s0))).
  - eexists. simpl. reflexivity.
  - match goal with |- context [forEach ?l ?f ?x] =>
      destruct (forEach l f x) as [[[[]|e] s2] tr2] end; eexists; simpl; reflexivity.
Qed.

Lemma prepended_subscriber_is_called_first_witness :
  let s1 := (subscribe (watcher 9) (VObj [("prepend", VBool true)]) watched_store).1.2 in
  truthy (VObj [("prepend", VBool true)])
    && truthy (own_prop (VObj [("prepend", VBool true)]) "prepend") = true /\
  (sub_id (watcher 9) ∉ sub_id <$> _subscribers watched_store) /\
  _mutations watched_store !! "increment" = Some increment_entry /\
  (forEach increment_entry (fun handler => wrappedMutationHandler handler (VNum 1))
     (set_committing true s1)).1.1 = Ret tt /\
  _subscribers s1 = watcher 9 :: _subscribers watched_store.
Proof.
  intros s1.
  assert (H1 : truthy (VObj [("prepend", VBool true)])
    && truthy (own_prop (VObj [("prepend", VBool true)]) "prepend") = true) by reflexivity.
  assert (H2 : sub_id (watcher 9) ∉ sub_id <$> _subscribers watched_store).
  { vm_compute. intros Hin.
    repeat (apply elem_of_cons in Hin as [Hin|Hin]; [discriminate|]).
    by apply elem_of_nil in Hin. }
  assert (H3 : _mutations watched_store !! "increment" = Some increment_entry)
    by (vm_compute; reflexivity).
  assert (H4 : (forEach increment_entry
                  (fun handler => wrappedMutationHandler handler (VNum 1))
                  (set_committing true s1)).1.1 = Ret tt) by (vm_compute; reflexivity).
  split_and!; [exact H1 | exact H2 | exact H3 | exact H4 |].
  exact (proj1 (prepended_subscriber_is_called_first true (watcher 9)
                  (VObj [("prepend", VBool true)]) "increment" (VNum 1) watched_store
                  increment_entry H1 H2 H3 H4)).
Defined.

(** ** The local context of a namespaced module *)

Lemma unifyObjectStyle_call dev _type _payload _options t s :
  call_type _type = VStr t ->
  unifyObjectStyle dev _type _payload _options s =
    (Ret {| u_type := VStr t;
            u_payload := call_payload _type _payload;
            u_options := call_options _type _payload _options |}, s, []).
Proof. apply unifyObjectStyle_resolved. Qed.

(** X8. In a module with a namespace, [local.commit] and [local.dispatch]
    of a type registered under the namespace are the store's [commit] and
    [dispatch] of the namespace followed by the type; with
    [{ root: true }] in the options they are the store's [commit] and
    [dispatch] of the type as given.  The payload and, for [commit], the
    options are passed on as resolved from the call style. *)
Theorem local_calls_are_namespaced (dev : bool) (namespace t : string)
    (_type _payload _options : value) (s : Store) :
  let payload := call_payload _type _payload in
  let options := call_options _type _payload _options in
  namespace <> "" ->
  call_type _type = VStr t ->
  (to_root options = true ->
   local_commit dev namespace _type _payload _options s
     = commit dev (VStr t) payload options s /\
   local_dispatch dev namespace _type _payload _options s
     = dispatch dev (VStr t) payload s) /\
  (to_root options = false ->
   (is_Some (_mutations s !! (namespace +:+ t)) ->
    local_commit dev namespace _type _payload _options s
      = commit dev (VStr (namespace +:+ t)) payload options s) /\
   (is_Some (_actions s !! (namespace +:+ t)) ->
    local_dispatch dev namespace _type _payload _options s
      = dispatch dev (VStr (namespace +:+ t)) payload s)).
Proof.
  intros payload options Hns Ht.
  apply String.eqb_neq in Hns.
  unfold local_commit, local_dispatch. rewrite Hns.
  rewrite !(bind_run _ _ _ _ _ _ (unifyObjectStyle_call dev _ _payload _options _ s Ht)).
  simpl. fold payload options. rewrite <- negb_andb. fold (to_root options).
  split.
  - intros Hroot. rewrite Hroot. simpl.
    split.
    + by destruct (commit dev _ payload options s) as [[r s'] tr].
    + by destruct (dispatch dev _ payload s) as [[r s'] tr].
  - intros Hroot. rewrite Hroot. simpl. split; intros Hknown.
    + unfold bind at 1, gets at 1. simpl. rewrite (bool_decide_eq_true_2 _ Hknown).
      rewrite andb_false_r.
      by destruct (commit dev _ payload options s) as [[r s'] tr].
    + unfold bind at 1, gets at 1. simpl. rewrite (bool_decide_eq_true_2 _ Hknown).
      rewrite andb_false_r.
      by destruct (dispatch dev _ payload s) as [[r s'] tr].
Qed.

Lemma local_calls_are_namespaced_witness :
  "a/" <> "" /\
  call_type (VStr "increment") = VStr "increment" /\
  local_commit true "a/" (VStr "increment") (VNum 1) (VObj [("root", VBool true)]) fresh_store
    = commit true (VStr "increment") (VNum 1) (VObj [("root", VBool true)]) fresh_store.
Proof.
  assert (H1 : "a/" <> "") by discriminate.
  assert (H2 : call_type (VStr "increment") = VStr "increment") by reflexivity.
  split_and!; [exact H1 | exact H2 |].
  exact (proj1 (proj1 (local_calls_are_namespaced true "a/" "increment"
                         (VStr "increment") (VNum 1) (VObj [("root", VBool true)])
                         fresh_store H1 H2) eq_refl)).
Defined.

(** X9. In a module with a namespace, a local type that is not registered
    under the namespace is a no-op: a development build reports both the
    local and the global type with [console.error] and returns before it
    reaches the store's [commit] or [dispatch]; a production build passes
    the namespaced type on, and the store ignores it in silence.  In both
    builds the store is unchanged and [local.dispatch] returns
    [undefined], not a promise. *)
Theorem local_unknown_type (dev : bool) (namespace t : string)
    (_type _payload _options : value) (s : Store) :
  namespace <> "" ->
  call_type _type = VStr t ->
  to_root (call_options _type _payload _options) = false ->
  (_mutations s !! (namespace +:+ t) = None ->
   local_commit dev namespace _type _payload _options s =
     (Ret tt, s,
      if dev then [EConsoleError ("[vuex] unknown local mutation type: " +:+ t
                                  +:+ ", global type: " +:+ namespace +:+ t)]
      else [])) /\
  (_actions s !! (namespace +:+ t) = None ->
   local_dispatch dev namespace _type _payload _options s =
     (Ret DUndefined, s,
      if dev then [EConsoleError ("[vuex] unknown local action type: " +:+ t
                                  +:+ ", global type: " +:+ namespace +:+ t)]
      else [])).
Proof.
  intros Hns Ht Hroot.
  apply String.eqb_neq in Hns.
  unfold local_commit, local_dispatch. rewrite Hns.
  rewrite !(bind_run _ _ _ _ _ _ (unifyObjectStyle_call dev _ _payload _options _ s Ht)).
  simpl. rewrite <- negb_andb.
  fold (to_root (call_options _type _payload _options)). rewrite Hroot. simpl.
  split; intros Hnone.
  - unfold bind at 1, gets at 1. simpl.
    rewrite bool_decide_eq_false_2 by (rewrite Hnone; by intros [? ?]).
    destruct dev; simpl.
    + reflexivity.
    + rewrite commit_string, Hnone. reflexivity.
  - unfold bind at 1, gets at 1. simpl.
    rewrite bool_decide_eq_false_2 by (rewrite Hnone; by intros [? ?]).
    destruct dev; simpl.
    + reflexivity.
    + rewrite (dispatch_resolved false (VStr (namespace +:+ t)) _ (namespace +:+ t) s eq_refl).
      rewrite Hnone. reflexivity.
Qed.

Lemma local_unknown_type_witness :
  "a/" <> "" /\
  call_type (VStr "missing") = VStr "missing" /\
  to_root (call_options (VStr "missing") VUndef VUndef) = false /\
  _actions fresh_store !! ("a/" +:+ "missing") = None /\
  local_dispatch true "a/" (VStr "missing") VUndef VUndef fresh_store =
    (Ret DUndefined, fresh_store,
     [EConsoleError ("[vuex] unknown local action type: " +:+ "missing"
                     +:+ ", global type: " +:+ "a/" +:+ "missing")]).
Proof.
  assert (H1 : "a/" <> "") by discriminate.
  assert (H2 : call_type (VStr "missing") = VStr "missing") by reflexivity.
  assert (H3 : to_root (call_options (VStr "missing") VUndef VUndef) = false)
    by reflexivity.
  assert (H4 : _actions fresh_store !! ("a/" +:+ "missing") = None)
    by (vm_compute; reflexivity).
  split_and!; [exact H1 | exact H2 | exact H3 | exact H4 |].
  exact (proj2 (local_unknown_type true "a/" "missing" (VStr "missing") VUndef VUndef
                  fresh_store H1 H2 H3) H4).
Defined.

(** ** Installing again: the hot walk and [resetStore] *)

Lemma rebuilds_ret : rebuilds (ret tt).
Proof. intros s. split_and!; [done | done | constructor]. Qed.

Lemma rebuilds_bind (m : M unit) (k : unit -> M unit) :
  rebuilds m -> (forall u, rebuilds (k u)) -> rebuilds (bind m k).
Proof.
  intros Hm Hk s. unfold bind. destruct (Hm s) as (Hr & Hs & Ht).
  destruct (m s) as [[[[]|e] s1] tr1]; simpl in *; [|done].
  destruct (Hk tt s1) as (Hr2 & Hs2 & Ht2).
  destruct (k tt s1) as [[r2 s2] tr2]; simpl in *.
  split_and!; [done | congruence | by apply console_only_app].
Qed.

Lemma rebuilds_forEach {A} (l : list A) (f : A -> M unit) :
  (forall x, x ∈ l -> rebuilds (f x)) -> rebuilds (forEach l f).
Proof.
  induction l as [|x l IH]; intros Hf; simpl; [apply rebuilds_ret|].
  apply rebuilds_bind; [apply Hf, list_elem_of_here|]. intros _.
  apply IH. intros y Hy. by apply Hf, list_elem_of_further.
Qed.

Lemma rebuilds_registerHandlers dev namespace local m :
  rebuilds (registerHandlers dev namespace local m).
Proof.
  unfold registerHandlers, forEachMutation, forEachAction, forEachGetter, forEachValue.
  apply rebuilds_bind.
  { destruct (mutations (_rawModule m)); [|apply rebuilds_ret].
    apply rebuilds_forEach. intros x _ s. split_and!; [done | done | constructor]. }
  intros _. apply rebuilds_bind.
  { destruct (actions (_rawModule m)); [|apply rebuilds_ret].
    apply rebuilds_forEach. intros [key [f|handler root]] _ s;
      (split_and!; [done | done | constructor]). }
  intros _. destruct (getters (_rawModule m)); [|apply rebuilds_ret].
  apply rebuilds_forEach. intros x _ s. rewrite registerGetter_run.
  destruct (_wrappedGetters s !! _); simpl.
  - split_and!; [done | done |]. unfold duplicate_getter_report.
    destruct dev; repeat constructor.
  - split_and!; [done | done | constructor].
Qed.

Lemma rebuilds_registerNamespace dev namespace path m :
  rebuilds (registerNamespace dev namespace path m).
Proof.
  intros s. rewrite registerNamespace_run. destruct (namespaced m); simpl.
  - split_and!; [done | done |]. unfold duplicate_namespace_report.
    destruct (_modulesNamespaceMap s !! namespace), dev; simpl; repeat constructor.
  - split_and!; [done | done | constructor].
Qed.

Lemma rebuilds_hot_install dev m : forall path, rebuilds (installModule dev path m true).
Proof.
  induction m as [r children raw st IH] using Module_ind'.
  intros path s.
  set (ns := getNamespace (_modules s) path).
  set (rest := (registerNamespace dev ns path (mkModule r children raw st) ;;;
                setModuleState dev path (mkModule r children raw st) true ;;;
                registerHandlers dev ns (makeLocalContext ns path)
                  (mkModule r children raw st) ;;;
                forEach children
                  (fun kc => installModule dev (path ++ [kc.1]) kc.2 true))).
  assert (Hrest : rebuilds rest).
  { apply rebuilds_bind; [apply rebuilds_registerNamespace|]. intros _.
    apply rebuilds_bind.
    { intros s1. rewrite setModuleState_skip by (by right).
      split_and!; [done | done | constructor]. }
    intros _. apply rebuilds_bind; [apply rebuilds_registerHandlers|]. intros _.
    apply rebuilds_forEach. intros [key child] Hin.
    rewrite Forall_forall in IH. apply (IH _ Hin). }
  assert (Heq : installModule dev path (mkModule r children raw st) true s = rest s).
  { rewrite installModule_eq. unfold bind at 1, gets at 1. simpl. fold ns rest.
    by destruct (rest s) as [[r1 s1] tr1]. }
  rewrite Heq. apply Hrest.
Qed.

(** X10. An install walk with the hot flag always returns, whatever the
    module tree and the store: it throws nothing, writes nothing to the
    state tree ([Vue.set] is never reached), leaves the committing flag,
    both subscriber lists and the module tree as they are, and logs to the
    console at most. *)
Theorem hot_install_keeps_state (dev : bool) (path : list string) (m : Module_)
    (s : Store) :
  (installModule dev path m true s).1.1 = Ret tt /\
  state (installModule dev path m true s).1.2 = state s /\
  _committing (installModule dev path m true s).1.2 = _committing s /\
  _subscribers (installModule dev path m true s).1.2 = _subscribers s /\
  _actionSubscribers (installModule dev path m true s).1.2 = _actionSubscribers s /\
  _modules (installModule dev path m true s).1.2 = _modules s /\
  console_only (installModule dev path m true s).2.
Proof.
  destruct (rebuilds_hot_install dev m path s) as (Hr & Hs & Ht).
  split_and!; [done | | | | | | done].
  - exact (f_equal state Hs).
  - exact (f_equal _committing Hs).
  - exact (f_equal _subscribers Hs).
  - exact (f_equal _actionSubscribers Hs).
  - exact (f_equal _modules Hs).
Qed.

Lemma resetStore_run dev hot s :
  resetStore dev hot s = installModule dev [] (_modules s) true (clear_registries s).
Proof.
  unfold resetStore, bind, modify, gets. simpl.
  by destruct (installModule dev [] (_modules s) true (clear_registries s)) as [[r s'] tr].
Qed.

Lemma clear_registries_idemp s : clear_registries (clear_registries s) = clear_registries s.
Proof. done. Qed.

Lemma resetStore_frame dev hot s :
  (resetStore dev hot s).1.1 = Ret tt /\
  clear_registries (resetStore dev hot s).1.2 = clear_registries s.
Proof.
  rewrite resetStore_run.
  destruct (rebuilds_hot_install dev (_modules s) [] (clear_registries s))
    as (Hr & Hs & Ht).
  by rewrite clear_registries_idemp in Hs.
Qed.

(** X11. [resetStore] always returns and touches the registries only: the
    state tree, the committing flag, both subscriber lists and the module
    tree are as before.  It is idempotent: resetting the store it has
    produced gives that same store again. *)
Theorem resetStore_keeps_state (dev hot hot' : bool) (s : Store) :
  (resetStore dev hot s).1.1 = Ret tt /\
  state (resetStore dev hot s).1.2 = state s /\
  _committing (resetStore dev hot s).1.2 = _committing s /\
  _subscribers (resetStore dev hot s).1.2 = _subscribers s /\
  _actionSubscribers (resetStore dev hot s).1.2 = _actionSubscribers s /\
  _modules (resetStore dev hot s).1.2 = _modules s /\
  (resetStore dev hot' (resetStore dev hot s).1.2).1.2 = (resetStore dev hot s).1.2.
Proof.
  rewrite !resetStore_run.
  destruct (rebuilds_hot_install dev (_modules s) [] (clear_registries s))
    as (Hr & Hs & Ht).
  rewrite clear_registries_idemp in Hs.
  split_and!; [done | | | | | |].
  - exact (f_equal state Hs).
  - exact (f_equal _committing Hs).
  - exact (f_equal _subscribers Hs).
  - exact (f_equal _actionSubscribers Hs).
  - exact (f_equal _modules Hs).
  - pose proof (f_equal _modules Hs) as Hm. simpl in Hm. by rewrite Hs, Hm.
Qed.

(** ** What the install walk registers *)

Lemma bind_ret_inv {A B} (m : M A) (k : A -> M B) s b :
  (bind m k s).1.1 = Ret b ->
  exists a s1 tr1,
    m s = (Ret a, s1, tr1) /\
    (k a s1).1.1 = Ret b /\
    (bind m k s).1.2 = (k a s1).1.2.
Proof.
  unfold bind. destruct (m s) as [[[a|e] s1] tr1]; [|done].
  intros H. exists a, s1, tr1.
  destruct (k a s1) as [[r2 s2] tr2]; simpl in *. by split_and!.
Qed.

Lemma forEach_preserves {A} (Q : Store -> Prop) (l : list A) (f : A -> M unit) :
  (forall y s, Q s -> Q (f y s).1.2) ->
  forall s, Q s -> Q (forEach l f s).1.2.
Proof.
  intros Hf. induction l as [|x l IH]; intros s Hs; simpl; [done|].
  unfold bind. specialize (Hf x s Hs).
  destruct (f x s) as [[[[]|e] s1] tr1]; simpl in *; [|done].
  specialize (IH s1 Hf). by destruct (forEach l f s1) as [[r2 s2] tr2].
Qed.

(** What each step of a loop that returns has established is true at the
    end, if no step undoes it. *)
Lemma forEach_reaches {A} (I : Store -> Prop) (P : A -> Store -> Prop)
    (l : list A) (f : A -> M unit) :
  (forall y s, I s -> I (f y s).1.2) ->
  (forall x y s, P x s -> P x (f y s).1.2) ->
  (forall x s, x ∈ l -> I s -> (f x s).1.1 = Ret tt -> P x (f x s).1.2) ->
  forall s, I s -> (forEach l f s).1.1 = Ret tt ->
  forall x, x ∈ l -> P x (forEach l f s).1.2.
Proof.
  intros HI Hkeep. induction l as [|x0 l IH]; intros Hstep s Hs Hret x Hx.
  { by apply elem_of_nil in Hx. }
  simpl in Hret |- *.
  apply bind_ret_inv in Hret as ([] & s1 & tr1 & Hm & Hk & Heq). rewrite Heq.
  assert (Hs1 : I s1). { specialize (HI x0 s Hs). by rewrite Hm in HI. }
  apply elem_of_cons in Hx as [->|Hx].
  - apply forEach_preserves; [intros y s'; apply Hkeep|].
    specialize (Hstep x0 s (list_elem_of_here _ _) Hs). rewrite Hm in Hstep.
    by apply Hstep.
  - apply IH; [|done|done|done].
    intros y s' Hy. apply Hstep. by apply list_elem_of_further.
Qed.

Section RegistryFrame.

Context {X : Type} (f : Store -> X).
Hypothesis f_state : forall v s, f (set_state v s) = f s.
Hypothesis f_committing : forall b s, f (set_committing b s) = f s.
Hypothesis f_mutations : forall x s, f (set_mutations x s) = f s.
Hypothesis f_actions : forall x s, f (set_actions x s) = f s.
Hypothesis f_getters : forall x s, f (set_wrappedGetters x s) = f s.
Hypothesis f_namespaces : forall x s, f (set_modulesNamespaceMap x s) = f s.

Lemma unaffected_forEach {A} (l : list A) (g : A -> M unit) :
  (forall x, x ∈ l -> unaffected f (g x)) -> unaffected f (forEach l g).
Proof.
  induction l as [|x l IH]; intros Hg; simpl; [by intros s|].
  apply unaffected_bind; [apply Hg, list_elem_of_here|]. intros _.
  apply IH. intros y Hy. by apply Hg, list_elem_of_further.
Qed.

Lemma unaffected_registerHandlers dev namespace local m :
  unaffected f (registerHandlers dev namespace local m).
Proof.
  unfold registerHandlers, forEachMutation, forEachAction, forEachGetter, forEachValue.
  apply unaffected_bind.
  { destruct (mutations (_rawModule m)); [|by intros s].
    apply unaffected_forEach. intros x _ s. apply f_mutations. }
  intros _. apply unaffected_bind.
  { destruct (actions (_rawModule m)); [|by intros s].
    apply unaffected_forEach. intros [key [h|h root]] _ s; apply f_actions. }
  intros _. destruct (getters (_rawModule m)); [|by intros s].
  apply unaffected_forEach. intros x _ s. rewrite registerGetter_run.
  destruct (_wrappedGetters s !! _); simpl; [done | apply f_getters].
Qed.

Lemma unaffected_registerNamespace dev namespace path m :
  unaffected f (registerNamespace dev namespace path m).
Proof.
  intros s. rewrite registerNamespace_run.
  destruct (namespaced m); simpl; [apply f_namespaces | done].
Qed.

(** No install walk touches what is outside the registries and the
    state. *)
Lemma unaffected_installModule dev m :
  forall path hot, unaffected f (installModule dev path m hot).
Proof.
  induction m as [r children raw st IH] using Module_ind'.
  intros path hot s. rewrite installModule_eq. revert s.
  apply unaffected_bind; [by intros s|]. intros ns.
  apply unaffected_bind; [apply unaffected_registerNamespace|]. intros _.
  apply unaffected_bind; [by apply unaffected_setModuleState|]. intros _.
  apply unaffected_bind; [apply unaffected_registerHandlers|]. intros _.
  apply unaffected_forEach. intros [key child] Hin.
  rewrite Forall_forall in IH. apply (IH _ Hin).
Qed.

End RegistryFrame.

Lemma installModule_modules dev path m hot s :
  _modules (installModule dev path m hot s).1.2 = _modules s.
Proof. by apply (unaffected_installModule _modules). Qed.

Lemma keeps_entries_unaffected {A X} (f : Store -> gmap string (list A)) (m : M X) :
  unaffected f m -> keeps_entries f m.
Proof. intros H s type w Hw. by rewrite H. Qed.

Lemma keeps_entries_bind {A X Y} (f : Store -> gmap string (list A))
    (m : M X) (k : X -> M Y) :
  keeps_entries f m -> (forall a, keeps_entries f (k a)) -> keeps_entries f (bind m k).
Proof.
  intros Hm Hk s type w Hw. unfold bind. specialize (Hm s type w Hw).
  destruct (m s) as [[[a|e] s1] tr1]; simpl in *; [|done].
  specialize (Hk a s1 type w Hm). by destruct (k a s1) as [[r2 s2] tr2].
Qed.

Lemma keeps_entries_forEach {A B} (f : Store -> gmap string (list A))
    (l : list B) (g : B -> M unit) :
  (forall x, x ∈ l -> keeps_entries f (g x)) -> keeps_entries f (forEach l g).
Proof.
  induction l as [|x l IH]; intros Hg; simpl.
  - by intros s type w Hw.
  - apply keeps_entries_bind; [apply Hg, list_elem_of_here|]. intros _.
    apply IH. intros y Hy. by apply Hg, list_elem_of_further.
Qed.

Lemma held_insert_old {A} (registry : gmap string (list A)) type type' w new :
  held registry type' w ->
  held (<[type := default [] (registry !! type) ++ [new]]> registry) type' w.
Proof.
  intros (entry & Hentry & Hin). destruct (decide (type' = type)) as [->|Hne].
  - exists (entry ++ [new]). rewrite lookup_insert_eq, Hentry. simpl.
    split; [done|]. apply elem_of_app. by left.
  - exists entry. by rewrite lookup_insert_ne.
Qed.

Lemma held_insert_new {A} (registry : gmap string (list A)) type new :
  held (<[type := default [] (registry !! type) ++ [new]]> registry) type new.
Proof.
  eexists. rewrite lookup_insert_eq. split; [done|].
  apply elem_of_app. right. apply list_elem_of_here.
Qed.

Lemma held_insert_inv {A} (registry : gmap string (list A)) type type' w new :
  held (<[type := default [] (registry !! type) ++ [new]]> registry) type' w ->
  held registry type' w \/ (type' = type /\ w = new).
Proof.
  intros (entry & Hentry & Hin). destruct (decide (type' = type)) as [->|Hne].
  - rewrite lookup_insert_eq in Hentry. injection Hentry as <-.
    apply elem_of_app in Hin as [Hin|Hin].
    + left. destruct (registry !! type) as [old|] eqn:Hold; simpl in Hin.
      * by exists old.
      * by apply elem_of_nil in Hin.
    + right. by apply list_elem_of_singleton in Hin.
  - left. exists entry. by rewrite lookup_insert_ne in Hentry.
Qed.

Lemma keeps_entries_registerMutation type handler local :
  keeps_entries _mutations (registerMutation type handler local).
Proof. intros s type' w Hw. by apply held_insert_old. Qed.

Lemma keeps_entries_registerAction type handler local :
  keeps_entries _actions (registerAction type handler local).
Proof. intros s type' w Hw. by apply held_insert_old. Qed.

Lemma keeps_entries_registerHandlers dev namespace local m :
  keeps_entries _mutations (registerHandlers dev namespace local m) /\
  keeps_entries _actions (registerHandlers dev namespace local m).
Proof.
  unfold registerHandlers, forEachMutation, forEachAction, forEachGetter, forEachValue.
  split.
  - apply keeps_entries_bind.
    { destruct (mutations (_rawModule m)); [|by intros s type w Hw].
      apply keeps_entries_forEach. intros x _. apply keeps_entries_registerMutation. }
    intros _. apply keeps_entries_unaffected. apply unaffected_bind.
    { destruct (actions (_rawModule m)); [|by intros s].
      apply unaffected_forEach. by intros [key [h|h root]] _ s. }
    intros _. destruct (getters (_rawModule m)); [|by intros s].
    apply unaffected_forEach. intros x _ s. rewrite registerGetter_run.
    by destruct (_wrappedGetters s !! _).
  - apply keeps_entries_bind.
    { apply keeps_entries_unaffected.
      destruct (mutations (_rawModule m)); [|by intros s].
      apply unaffected_forEach. by intros x _ s. }
    intros _. apply keeps_entries_bind.
    { destruct (actions (_rawModule m)); [|by intros s type w Hw].
      apply keeps_entries_forEach. intros [key [h|h root]] _;
        apply keeps_entries_registerAction. }
    intros _. apply keeps_entries_unaffected.
    destruct (getters (_rawModule m)); [|by intros s].
    apply unaffected_forEach. intros x _ s. rewrite registerGetter_run.
    by destruct (_wrappedGetters s !! _).
Qed.

(** No install walk takes a handler out of the registries. *)
Lemma keeps_entries_installModule dev m : forall path hot,
  keeps_entries _mutations (installModule dev path m hot) /\
  keeps_entries _actions (installModule dev path m hot).
Proof.
  induction m as [r children raw st IH] using Module_ind'.
  intros path hot. rewrite Forall_forall in IH.
  split; intros s type w Hw; rewrite installModule_eq; revert s type w Hw.
  - apply keeps_entries_bind; [by apply keeps_entries_unaffected|]. intros ns.
    apply keeps_entries_bind.
    { apply keeps_entries_unaffected. by apply unaffected_registerNamespace. }
    intros _. apply keeps_entries_bind.
    { apply keeps_entries_unaffected. by apply unaffected_setModuleState. }
    intros _. apply keeps_entries_bind; [apply keeps_entries_registerHandlers|].
    intros _. apply keeps_entries_forEach. intros [key child] Hin.
    apply (IH _ Hin).
  - apply keeps_entries_bind; [by apply keeps_entries_unaffected|]. intros ns.
    apply keeps_entries_bind.
    { apply keeps_entries_unaffected. by apply unaffected_registerNamespace. }
    intros _. apply keeps_entries_bind.
    { apply keeps_entries_unaffected. by apply unaffected_setModuleState. }
    intros _. apply keeps_entries_bind; [apply keeps_entries_registerHandlers|].
    intros _. apply keeps_entries_forEach. intros [key child] Hin.
    apply (IH _ Hin).
Qed.

Lemma registered_handlers_kept root path m (k : M unit) s :
  keeps_entries _mutations k -> keeps_entries _actions k ->
  registered_handlers root path m s -> registered_handlers root path m (k s).1.2.
Proof.
  intros Hm Ha [H1 H2]. split; intros key h Hin; [apply Hm, H1 | apply Ha, H2]; done.
Qed.

Lemma registerHandlers_modules dev namespace local m s :
  _modules (registerHandlers dev namespace local m s).1.2 = _modules s.
Proof. by apply (unaffected_registerHandlers _modules). Qed.

Lemma assoc_elem {A} key (x : A) (l : list (string * A)) :
  assoc key l = Some x -> (key, x) ∈ l.
Proof.
  induction l as [|[k y] rest IH]; simpl; [done|].
  destruct (String.eqb k key) eqn:E.
  - apply String.eqb_eq in E. intros [= ->]. subst k. apply list_elem_of_here.
  - intros H. by apply list_elem_of_further, IH.
Qed.

(** The registrations of a module for itself put each of its mutations
    and actions into the registries. *)
Lemma registerHandlers_own dev root path m s :
  registered_handlers root path m
    (registerHandlers dev (getNamespace root path)
       (makeLocalContext (getNamespace root path) path) m s).1.2.
Proof.
  set (ns := getNamespace root path). set (local := makeLocalContext ns path).
  unfold registered_handlers. fold ns local.
  unfold registerHandlers, forEachMutation, forEachAction, forEachGetter, forEachValue.
  set (loopM := match mutations (_rawModule m) with
                | Some ms => forEach ms (fun kv => registerMutation (ns +:+ kv.1) kv.2 local)
                | None => ret tt
                end).
  set (loopA := match actions (_rawModule m) with
                | Some acts =>
                    forEach acts (fun kv =>
                      match kv.2 with
                      | ActionFn f => registerAction (ns +:+ kv.1) f local
                      | ActionObj handler root =>
                          registerAction (if truthy root then kv.1 else ns +:+ kv.1)
                            handler local
                      end)
                | None => ret tt
                end).
  set (loopG := match getters (_rawModule m) with
                | Some gs => forEach gs (fun kv => registerGetter dev (ns +:+ kv.1) kv.2 local)
                | None => ret tt
                end).
  assert (HM : forall s0 key h,
             (key, h) ∈ default [] (mutations (_rawModule m)) ->
             held (_mutations (loopM s0).1.2) (ns +:+ key)
               {| wm_handler := h; wm_local := local |}).
  { intros s0 key h Hin. unfold loopM.
    destruct (mutations (_rawModule m)) as [ms|]; simpl in Hin;
      [|by apply elem_of_nil in Hin].
    apply (forEach_reaches (fun _ => True)
             (fun kv s' => held (_mutations s') (ns +:+ kv.1)
                             {| wm_handler := kv.2; wm_local := local |})
             ms _) with (x := (key, h)); try done.
    - intros x y s' Hx. by apply keeps_entries_registerMutation.
    - intros x s' _ _ _. apply held_insert_new.
    - assert (Hr : registers (forEach ms
                 (fun kv => registerMutation (ns +:+ kv.1) kv.2 local))).
      { apply registers_forEach. intros; apply registers_registerMutation. }
      apply Hr. }
  assert (HA : forall s0 key a,
             (key, a) ∈ default [] (actions (_rawModule m)) ->
             held (_actions (loopA s0).1.2) (action_type ns key a)
               {| wa_handler := action_handler a; wa_local := local |}).
  { intros s0 key a Hin. unfold loopA.
    destruct (actions (_rawModule m)) as [acts|]; simpl in Hin;
      [|by apply elem_of_nil in Hin].
    apply (forEach_reaches (fun _ => True)
             (fun kv s' => held (_actions s') (action_type ns kv.1 kv.2)
                             {| wa_handler := action_handler kv.2; wa_local := local |})
             acts _) with (x := (key, a)); try done.
    - intros x [k [h|h rt]] s' Hx; by apply keeps_entries_registerAction.
    - intros [k [h|h rt]] s' _ _ _; apply held_insert_new.
    - assert (Hr : registers (forEach acts (fun kv =>
                      match kv.2 with
                      | ActionFn f => registerAction (ns +:+ kv.1) f local
                      | ActionObj handler root =>
                          registerAction (if truthy root then kv.1 else ns +:+ kv.1)
                            handler local
                      end))).
      { apply registers_forEach. intros [k [h|h rt]]; apply registers_registerAction. }
      apply Hr. }
  assert (HMa : unaffected _actions loopM).
  { unfold loopM. destruct (mutations (_rawModule m)); [|by intros s0].
    apply unaffected_forEach. by intros x _ s0. }
  assert (HAm : unaffected _mutations loopA).
  { unfold loopA. destruct (actions (_rawModule m)); [|by intros s0].
    apply unaffected_forEach. by intros [k [h|h rt]] _ s0. }
  assert (HG : unaffected _mutations loopG /\ unaffected _actions loopG).
  { unfold loopG. destruct (getters (_rawModule m)); [|by split; intros s0].
    split; apply unaffected_forEach; intros x _ s0; rewrite registerGetter_run;
      by destruct (_wrappedGetters s0 !! _). }
  destruct HG as [HGm HGa].
  assert (HrM : (loopM s).1.1 = Ret tt).
  { unfold loopM. destruct (mutations (_rawModule m)); [|done].
    apply registers_forEach. intros; apply registers_registerMutation. }
  unfold bind.
  destruct (loopM s) as [[[[]|e] s1] tr1] eqn:E1; simpl in HrM; [|done].
  pose proof (HM s) as HM1. rewrite E1 in HM1. simpl in HM1.
  destruct (loopA s1) as [[[[]|e] s2] tr2] eqn:E2; simpl.
  - pose proof (HA s1) as HA2. rewrite E2 in HA2. simpl in HA2.
    pose proof (HAm s1) as HAm1. rewrite E2 in HAm1. simpl in HAm1.
    pose proof (HGm s2) as HG1. pose proof (HGa s2) as HG2.
    destruct (loopG s2) as [[r3 s3] tr3]; simpl in *.
    split; intros key h Hin.
    + rewrite HG1, HAm1. by apply HM1.
    + rewrite HG2. by apply HA2.
  - pose proof (HA s1) as HA2. rewrite E2 in HA2. simpl in HA2.
    pose proof (HAm s1) as HAm1. rewrite E2 in HAm1. simpl in HAm1.
    split; intros key h Hin.
    + rewrite HAm1. by apply HM1.
    + by apply HA2.
Qed.

Lemma install_covers dev m : forall path hot s q m',
  (installModule dev path m hot s).1.1 = Ret tt ->
  module_at m q = Some m' ->
  registered_handlers (_modules s) (path ++ q) m' (installModule dev path m hot s).1.2.
Proof.
  induction m as [r children raw st IH] using Module_ind'.
  intros path hot s q m' Hret Hat. rewrite Forall_forall in IH.
  set (root := _modules s).
  rewrite installModule_eq in Hret |- *.
  apply bind_ret_inv in Hret as (ns & s1 & tr1 & Hm1 & Hret & Heq1). rewrite Heq1.
  unfold gets in Hm1. injection Hm1 as Hns Hs1 Htr1. subst ns s1 tr1. fold root in Hret |- *.
  apply bind_ret_inv in Hret as ([] & s2 & tr2 & Hm2 & Hret & Heq2). rewrite Heq2.
  assert (Hroot2 : _modules s2 = root).
  { pose proof (unaffected_registerNamespace _modules (fun _ _ => eq_refl) dev
                  (getNamespace root path) path (mkModule r children raw st) s) as H.
    by rewrite Hm2 in H. }
  apply bind_ret_inv in Hret as ([] & s3 & tr3 & Hm3 & Hret & Heq3). rewrite Heq3.
  assert (Hroot3 : _modules s3 = root).
  { pose proof (unaffected_setModuleState _modules (fun _ _ => eq_refl)
                  (fun _ _ => eq_refl) dev path (mkModule r children raw st) hot s2) as H.
    rewrite Hm3 in H. simpl in H. congruence. }
  apply bind_ret_inv in Hret as ([] & s4 & tr4 & Hm4 & Hret & Heq4). rewrite Heq4.
  assert (Hroot4 : _modules s4 = root).
  { pose proof (registerHandlers_modules dev (getNamespace root path)
                  (makeLocalContext (getNamespace root path) path)
                  (mkModule r children raw st) s3) as H.
    rewrite Hm4 in H. simpl in H. congruence. }
  pose proof (registerHandlers_own dev root path (mkModule r children raw st) s3) as Hown.
  rewrite Hm4 in Hown. simpl in Hown, Hret |- *.
  destruct q as [|k q'].
  - simpl in Hat. injection Hat as <-. rewrite app_nil_r.
    apply registered_handlers_kept; [| |done].
    + apply keeps_entries_forEach. intros [key child] Hin.
      apply keeps_entries_installModule.
    + apply keeps_entries_forEach. intros [key child] Hin.
      apply keeps_entries_installModule.
  - simpl in Hat. unfold getChild in Hat. simpl in Hat.
    destruct (assoc k children) as [c|] eqn:Hc; [|done]. apply assoc_elem in Hc.
    replace (path ++ k :: q') with ((path ++ [k]) ++ q') by (by rewrite <- app_assoc).
    apply (forEach_reaches (fun s' => _modules s' = root)
             (fun kc s' => forall q m', module_at kc.2 q = Some m' ->
                registered_handlers root ((path ++ [kc.1]) ++ q) m' s')
             children
             (fun kc => installModule dev (path ++ [kc.1]) kc.2 hot))
      with (s := s4) (x := (k, c)); try done.
    + intros y s' Hs'. by rewrite installModule_modules.
    + intros x y s' Hx q m'' Hat'. apply registered_handlers_kept;
        [apply keeps_entries_installModule | apply keeps_entries_installModule | by apply Hx].
    + intros x s' Hin Hs' Hret' q m'' Hat'. rewrite <- Hs'. by apply (IH x Hin).
Qed.

(** X12. After an install walk that returns (that of the constructor, of
    [registerModule] or of [resetStore]), every mutation and every action
    that a module of the installed tree declares is in the registry: a
    mutation under the module's namespace followed by its key, an action
    likewise or, with [root: true], under its bare key, each wrapped with
    the local context of its own module. *)
Theorem install_registers_every_handler (dev : bool) (path : list string)
    (m : Module_) (hot : bool) (s : Store) (q : list string) (m' : Module_) :
  let namespace := getNamespace (_modules s) (path ++ q) in
  let local := makeLocalContext namespace (path ++ q) in
  (installModule dev path m hot s).1.1 = Ret tt ->
  module_at m q = Some m' ->
  (forall ms key h,
      mutations (_rawModule m') = Some ms -> (key, h) ∈ ms ->
      held (_mutations (installModule dev path m hot s).1.2) (namespace +:+ key)
        {| wm_handler := h; wm_local := local |}) /\
  (forall acts key a,
      actions (_rawModule m') = Some acts -> (key, a) ∈ acts ->
      held (_actions (installModule dev path m hot s).1.2)
        (action_type namespace key a)
        {| wa_handler := action_handler a; wa_local := local |}).
Proof.
  intros namespace local Hret Hat.
  destruct (install_covers dev m path hot s q m' Hret Hat) as [HM HA].
  split.
  - intros ms key h Hms Hin. apply HM. by rewrite Hms.
  - intros acts key a Hacts Hin. apply HA. by rewrite Hacts.
Qed.

Lemma install_registers_every_handler_witness :
  (installModule true [] root_module false (blank root_module false)).1.1 = Ret tt /\
  module_at root_module ["a"] = Some module_a /\
  held (_mutations fresh_store) "increment"
    {| wm_handler := increment 2; wm_local := makeLocalContext "" ["a"] |}.
Proof.
  assert (H1 : (installModule true [] root_module false
                  (blank root_module false)).1.1 = Ret tt) by (vm_compute; reflexivity).
  assert (H2 : module_at root_module ["a"] = Some module_a) by reflexivity.
  split_and!; [exact H1 | exact H2 |].
  exact (proj1 (install_registers_every_handler true [] root_module false
                  (blank root_module false) ["a"] module_a H1 H2)
           [("increment", increment 2)] "increment" (increment 2) eq_refl
           (list_elem_of_here _ _)).
Defined.

Lemma keeps_sound_bind root (m : M unit) (k : unit -> M unit) :
  keeps_sound root m -> (forall u, keeps_sound root (k u)) -> keeps_sound root (bind m k).
Proof.
  intros Hm Hk s Hroot Hsound. unfold bind. destruct (Hm s Hroot Hsound) as [Hr1 Hs1].
  destruct (m s) as [[[[]|e] s1] tr1]; simpl in *; [|done].
  destruct (Hk tt s1 Hr1 Hs1) as [Hr2 Hs2].
  by destruct (k tt s1) as [[r2 s2] tr2].
Qed.

Lemma keeps_sound_forEach {A} root (l : list A) (f : A -> M unit) :
  (forall x, x ∈ l -> keeps_sound root (f x)) -> keeps_sound root (forEach l f).
Proof.
  induction l as [|x l IH]; intros Hf; simpl; [by intros s|].
  apply keeps_sound_bind; [apply Hf, list_elem_of_here|]. intros _.
  apply IH. intros y Hy. by apply Hf, list_elem_of_further.
Qed.

Lemma keeps_sound_frame root (m : M unit) :
  unaffected _modules m -> unaffected _mutations m -> keeps_sound root m.
Proof.
  intros Hmod Hmut s Hroot Hsound. split; [by rewrite Hmod|].
  intros type w Hw. apply Hsound. by rewrite Hmut in Hw.
Qed.

Lemma keeps_sound_registerMutation root type handler local :
  declared_mutation root type {| wm_handler := handler; wm_local := local |} ->
  keeps_sound root (registerMutation type handler local).
Proof.
  intros Hdecl s Hroot Hsound. split; [done|]. intros type' w Hw.
  apply held_insert_inv in Hw as [Hw|[-> ->]]; [by apply Hsound | done].
Qed.

Lemma keeps_sound_registerHandlers dev root path m :
  module_at root path = Some m ->
  keeps_sound root
    (registerHandlers dev (getNamespace root path)
       (makeLocalContext (getNamespace root path) path) m).
Proof.
  intros Hat.
  unfold registerHandlers, forEachMutation, forEachAction, forEachGetter, forEachValue.
  apply keeps_sound_bind.
  { destruct (mutations (_rawModule m)) as [ms|] eqn:Hms; [|by intros s].
    apply keeps_sound_forEach. intros [key h] Hin.
    apply keeps_sound_registerMutation. by exists path, m, ms, key. }
  intros _. apply keeps_sound_bind.
  { destruct (actions (_rawModule m)); [|by intros s].
    apply keeps_sound_forEach. intros [key [h|h rt]] _;
      by apply keeps_sound_frame. }
  intros _. destruct (getters (_rawModule m)); [|by intros s].
  apply keeps_sound_forEach. intros x _.
  apply keeps_sound_frame; intros s; rewrite registerGetter_run;
    by destruct (_wrappedGetters s !! _).
Qed.

(** A walk over a module found in the tree registers mutations of the
    tree only. *)
Lemma keeps_sound_installModule dev root m : forall path hot,
  module_at root path = Some m -> unique_keys m ->
  keeps_sound root (installModule dev path m hot).
Proof.
  induction m as [r children raw st IH] using Module_ind'.
  intros path hot Hat Huniq s Hroot Hsound. rewrite Forall_forall in IH.
  apply unique_keys_children in Huniq as [Hnd Hall]. rewrite Forall_forall in Hall.
  set (m := mkModule r children raw st) in *.
  set (ns := getNamespace root path).
  set (rest := (registerNamespace dev ns path m ;;;
                setModuleState dev path m hot ;;;
                registerHandlers dev ns (makeLocalContext ns path) m ;;;
                forEach children
                  (fun kc => installModule dev (path ++ [kc.1]) kc.2 hot))).
  assert (Heq : installModule dev path m hot s = rest s).
  { rewrite installModule_eq. unfold bind at 1, gets at 1. simpl. rewrite Hroot.
    fold ns rest. by destruct (rest s) as [[r1 s1] tr1]. }
  rewrite Heq. clear Heq. revert s Hroot Hsound.
  apply keeps_sound_bind.
  { apply keeps_sound_frame; by apply unaffected_registerNamespace. }
  intros _. apply keeps_sound_bind.
  { apply keeps_sound_frame; by apply unaffected_setModuleState. }
  intros _. apply keeps_sound_bind; [by apply keeps_sound_registerHandlers|].
  intros _. apply keeps_sound_forEach. intros [key child] Hin.
  apply (IH _ Hin); [|apply (Hall _ Hin)].
  apply (module_at_child root path m key child Hat).
  unfold getChild. simpl. by apply assoc_NoDup.
Qed.

Lemma sound_mutations_empty root s : _mutations s = ∅ -> sound_mutations root s.
Proof. intros Hs type w (entry & Hentry & _). by rewrite Hs, lookup_empty in Hentry. Qed.

Lemma declared_mutation_held dev root hot s type w :
  _modules s = root ->
  (installModule dev [] root hot s).1.1 = Ret tt ->
  declared_mutation root type w ->
  held (_mutations (installModule dev [] root hot s).1.2) type w.
Proof.
  intros Hroot Hret (path & m & ms & key & Hat & Hms & Hin & -> & Hlocal).
  destruct (install_covers dev root [] hot s path m Hret Hat) as [HM _].
  simpl in HM. rewrite Hroot in HM. destruct w as [h local]. simpl in *. subst local.
  apply HM. by rewrite Hms.
Qed.

Lemma resetStore_mutations dev hot s type w :
  unique_keys (_modules s) ->
  held (_mutations (resetStore dev hot s).1.2) type w <->
  declared_mutation (_modules s) type w.
Proof.
  intros Huniq. rewrite resetStore_run. split.
  - apply (keeps_sound_installModule dev (_modules s) (_modules s) [] true
             eq_refl Huniq (clear_registries s) eq_refl).
    by apply sound_mutations_empty.
  - apply (declared_mutation_held dev (_modules s) true (clear_registries s)); [done|].
    apply rebuilds_hot_install.
Qed.

(** X13. The mutation registry that [resetStore] builds, and the one the
    constructor builds when its walk returns, holds exactly what the
    module tree declares (the keys of each children object being
    distinct): a wrapped handler is in the entry of a type if and only if
    some module of the tree declares that handler under a key, the type
    is the module's namespace followed by the key, and the local context
    is that of the module.  A handler that is no longer in the tree is in
    no entry after [resetStore]. *)
Theorem rebuilt_registry_is_the_tree (dev hot strict_ : bool) (s : Store)
    (type : string) (w : wrappedMutation) :
  unique_keys (_modules s) ->
  (held (_mutations (resetStore dev hot s).1.2) type w <->
   declared_mutation (_modules s) type w) /\
  ((new_Store dev (_modules s) strict_).1.1 = Ret tt ->
   (held (_mutations (new_Store dev (_modules s) strict_).1.2) type w <->
    declared_mutation (_modules s) type w)).
Proof.
  intros Huniq. split.
  - by apply resetStore_mutations.
  - unfold new_Store. intros Hret. split.
    + apply (keeps_sound_installModule dev (_modules s) (_modules s) [] false
               eq_refl Huniq (blank (_modules s) strict_) eq_refl).
      by apply sound_mutations_empty.
    + by apply (declared_mutation_held dev (_modules s) false (blank (_modules s) strict_)).
Qed.

Lemma rebuilt_registry_is_the_tree_witness :
  unique_keys (_modules fresh_store) /\
  (held (_mutations (resetStore true false fresh_store).1.2) "increment"
     {| wm_handler := increment 2; wm_local := makeLocalContext "" ["a"] |} <->
   declared_mutation (_modules fresh_store) "increment"
     {| wm_handler := increment 2; wm_local := makeLocalContext "" ["a"] |}).
Proof.
  assert (H : unique_keys (_modules fresh_store)).
  { vm_compute. split_and!; try exact I; repeat constructor; intros Hin;
      repeat (apply elem_of_cons in Hin as [Hin|Hin]; [discriminate|]);
      by apply elem_of_nil in Hin. }
  split; [exact H|].
  exact (proj1 (rebuilt_registry_is_the_tree true false false fresh_store "increment"
                  {| wm_handler := increment 2; wm_local := makeLocalContext "" ["a"] |}
                  H)).
Defined.

(** ** The [Module] class *)

Lemma assoc_set_eq {A} key (v : A) l : assoc key (assoc_set key v l) = Some v.
Proof.
  induction l as [|[k w] rest IH]; simpl.
  - by rewrite String.eqb_refl.
  - destruct (String.eqb k key) eqn:E; simpl; by rewrite E.
Qed.

Lemma assoc_set_ne {A} key key' (v : A) l :
  key' <> key -> assoc key' (assoc_set key v l) = assoc key' l.
Proof.
  intros Hne. induction l as [|[k w] rest IH]; simpl.
  - by rewrite (proj2 (String.eqb_neq key key')).
  - destruct (String.eqb k key) eqn:E; simpl.
    + apply String.eqb_eq in E. subst k.
      by rewrite (proj2 (String.eqb_neq key key')).
    + by rewrite IH.
Qed.

Lemma assoc_delete_eq {A} key (l : list (string * A)) : assoc key (assoc_delete key l) = None.
Proof.
  induction l as [|[k w] rest IH]; simpl; [done|].
  destruct (String.eqb k key) eqn:E; simpl; [done | by rewrite E].
Qed.

Lemma assoc_delete_ne {A} key key' (l : list (string * A)) :
  key' <> key -> assoc key' (assoc_delete key l) = assoc key' l.
Proof.
  intros Hne. induction l as [|[k w] rest IH]; simpl; [done|].
  destruct (String.eqb k key) eqn:E; simpl.
  - apply String.eqb_eq in E. subst k.
    by rewrite (proj2 (String.eqb_neq key key')).
  - by rewrite IH.
Qed.

Lemma assoc_delete_set {A} key (v : A) l :
  assoc key l = None -> assoc_delete key (assoc_set key v l) = l.
Proof.
  induction l as [|[k w] rest IH]; simpl.
  - by rewrite String.eqb_refl.
  - destruct (String.eqb k key) eqn:E; simpl; [done|]. intros H. by rewrite E, IH.
Qed.

Lemma assoc_set_keys {A} key (v : A) l :
  NoDup (map fst l) -> NoDup (map fst (assoc_set key v l)).
Proof.
  induction l as [|[k w] rest IH]; simpl; intros Hnd.
  - repeat constructor. intros H. by apply elem_of_nil in H.
  - apply NoDup_cons in Hnd as [Hk Hnd].
    destruct (String.eqb k key) eqn:E; simpl; apply NoDup_cons; split; auto.
    apply String.eqb_neq in E. intros Hin. apply Hk.
    apply list_elem_of_fmap in Hin as [[k' w'] [-> Hin]]. simpl.
    apply list_elem_of_fmap.
    clear -Hin E. induction rest as [|[k0 w0] rest IH]; simpl in Hin.
    + apply list_elem_of_singleton in Hin. injection Hin as -> ->. done.
    + destruct (String.eqb k0 key) eqn:E0.
      * apply elem_of_cons in Hin as [[= -> ->]|Hin].
        -- exists (k0, w0). split; [done | apply list_elem_of_here].
        -- exists (k', w'). split; [done | by apply list_elem_of_further].
      * apply elem_of_cons in Hin as [[= -> ->]|Hin].
        -- exists (k0, w0). split; [done | apply list_elem_of_here].
        -- destruct (IH Hin) as (x & Hx & Hx'). exists x.
           split; [done | by apply list_elem_of_further].
Qed.

(** X14. The children of a module behave as a map: [getChild] after
    [addChild] finds the module that was added, [removeChild] makes
    [hasChild] false, neither touches another key, and removing a child
    that was added under a free key gives the module back as it was.
    [addChild] keeps the keys distinct, and none of the three changes the
    module's state or raw module. *)
Theorem children_laws (key key' : string) (child m : Module_) :
  key' <> key ->
  getChild (addChild key child m) key = Some child /\
  getChild (addChild key child m) key' = getChild m key' /\
  hasChild key (removeChild key m) = false /\
  getChild (removeChild key m) key' = getChild m key' /\
  (hasChild key m = false -> removeChild key (addChild key child m) = m) /\
  (NoDup (map fst (_children m)) ->
   NoDup (map fst (_children (addChild key child m)))) /\
  mstate (addChild key child m) = mstate m /\
  _rawModule (addChild key child m) = _rawModule m /\
  mstate (removeChild key m) = mstate m /\
  _rawModule (removeChild key m) = _rawModule m.
Proof.
  intros Hne. unfold getChild, hasChild, addChild, removeChild. simpl.
  split_and!; try done.
  - apply assoc_set_eq.
  - by apply assoc_set_ne.
  - rewrite assoc_delete_eq. apply bool_decide_eq_false_2. by intros [? ?].
  - by apply assoc_delete_ne.
  - intros Hfree. apply bool_decide_eq_false in Hfree.
    destruct (assoc key (_children m)) eqn:E; [by destruct Hfree|].
    rewrite assoc_delete_set by done. by destruct m.
  - apply assoc_set_keys.
Qed.

Lemma children_laws_witness :
  "b" <> "a" /\
  getChild (addChild "a" plain_leaf root_module) "a" = Some plain_leaf /\
  getChild (addChild "a" plain_leaf root_module) "b" = getChild root_module "b".
Proof.
  assert (H : "b" <> "a") by discriminate.
  pose proof (children_laws "a" "b" plain_leaf root_module H) as (H1 & H2 & _).
  split_and!; [exact H | exact H1 | exact H2].
Defined.

Lemma unique_keys_update raw m : unique_keys m -> unique_keys (update raw m).
Proof. by destruct m. Qed.

(** X15. [update] on the root module with a raw module that gives
    mutations, followed by [resetStore] (the two steps of a hot update of
    the root module), keeps the state tree and both subscriber lists, and
    leaves in the registry, for the root module, exactly the new
    mutations: each of them is registered under its key, and every
    handler registered with the root's local context is one of them, so
    no function of the replaced mutations object is left. *)
Theorem update_then_resetStore (dev hot : bool) (raw : rawModule) (s : Store)
    (ms : list (string * mutation_fn)) :
  let s' := (resetStore dev hot (set_modules (update raw (_modules s)) s)).1.2 in
  unique_keys (_modules s) ->
  mutations raw = Some ms ->
  state s' = state s /\
  _subscribers s' = _subscribers s /\
  _actionSubscribers s' = _actionSubscribers s /\
  mstate (_modules s') = mstate (_modules s) /\
  (forall key h,
      (key, h) ∈ ms ->
      held (_mutations s') key {| wm_handler := h; wm_local := makeLocalContext "" [] |}) /\
  (forall type w,
      held (_mutations s') type w ->
      wm_local w = makeLocalContext "" [] ->
      (type, wm_handler w) ∈ ms).
Proof.
  intros s' Huniq Hms.
  set (root' := update raw (_modules s)).
  set (s1 := set_modules root' s).
  assert (Hroot' : mutations (_rawModule root') = Some ms).
  { unfold root', update. simpl. by rewrite Hms. }
  assert (Huniq' : unique_keys (_modules s1)) by (by apply unique_keys_update).
  destruct (resetStore_frame dev hot s1) as [_ Hframe].
  split_and!.
  - exact (f_equal state Hframe).
  - exact (f_equal _subscribers Hframe).
  - exact (f_equal _actionSubscribers Hframe).
  - pose proof (f_equal _modules Hframe) as Hm. simpl in Hm.
    change (_modules s') with (_modules (resetStore dev hot s1).1.2). by rewrite Hm.
  - intros key h Hin. apply resetStore_mutations; [done|].
    by exists [], root', ms, key.
  - intros type w Hheld Hlocal.
    apply resetStore_mutations in Hheld; [|done].
    destruct Hheld as (path & m & ms0 & key & Hat & Hms0 & Hin & -> & Hloc).
    rewrite Hlocal in Hloc. injection Hloc as Hns Hpath. subst path.
    simpl in Hat. injection Hat as <-.
    fold root' in Hms0. rewrite Hroot' in Hms0.
    injection Hms0 as <-. exact Hin.
Qed.

Lemma update_then_resetStore_witness :
  let raw := {| namespaced_raw := VUndef;
                mutations := Some [("increment", increment 5)];
                actions := None; getters := None |} in
  let s' := (resetStore true true
               (set_modules (update raw (_modules fresh_store)) fresh_store)).1.2 in
  unique_keys (_modules fresh_store) /\
  mutations raw = Some [("increment", increment 5)] /\
  state s' = state fresh_store /\
  held (_mutations s') "increment"
    {| wm_handler := increment 5; wm_local := makeLocalContext "" [] |}.
Proof.
  intros raw s'.
  assert (H1 : unique_keys (_modules fresh_store)).
  { vm_compute. split_and!; try exact I; repeat constructor; intros Hin;
      repeat (apply elem_of_cons in Hin as [Hin|Hin]; [discriminate|]);
      by apply elem_of_nil in Hin. }
  assert (H2 : mutations raw = Some [("increment", increment 5)]) by reflexivity.
  pose proof (update_then_resetStore true true raw fresh_store
                [("increment", increment 5)] H1 H2) as (Hs & _ & _ & _ & Hnew & _).
  split_and!; [exact H1 | exact H2 | exact Hs |].
  exact (Hnew "increment" (increment 5) (list_elem_of_here _ _)).
Defined.

(** ** Exceptions in a commit and in a dispatch *)

(** The handler loop on handlers that all return. *)
Lemma handlers_run_loop payload root entry tr root' :
  handlers_run payload root entry tr root' ->
  forall s1, state s1 = root -> _committing s1 = true ->
  forEach entry (fun handler => wrappedMutationHandler handler payload) s1
    = (Ret tt, set_state root' s1, tr).
Proof.
  induction 1 as [root|root w rest st st' tr root' Hst Hbody Hrun IH];
    intros s1 Hroot Hc; simpl.
  - subst root. by rewrite set_state_same.
  - unfold bind. rewrite wrappedMutationHandler_run, Hroot, Hst, Hbody, Hc. simpl.
    rewrite (IH (set_state (written root (lc_path (wm_local w)) st st') s1)); done.
Qed.

(** X16. A commit is not undone when one of its handlers throws: the
    exception reaches the caller of [commit], the state keeps what the
    handlers before the thrower have written and what the thrower itself
    wrote before it threw, the handlers after it are not called, no
    subscriber is notified, and [_committing] is left true. *)
Theorem commit_is_not_rolled_back (dev : bool) (t : string) (payload options : value)
    (s : Store) (before_ after_ : list wrappedMutation) (w : wrappedMutation)
    (tr : list event) (root1 st st' e : value) :
  _mutations s !! t = Some (before_ ++ w :: after_) ->
  handlers_run payload (state s) before_ tr root1 ->
  getNestedState root1 (lc_path (wm_local w)) = inr st ->
  mf_body (wm_handler w) st payload = HThrow st' e ->
  commit dev (VStr t) payload options s =
    (Exc (Thrown e),
     set_state (written root1 (lc_path (wm_local w)) st st') (set_committing true s),
     tr ++ [EMutation (mf_id (wm_handler w)) st payload true]).
Proof.
  intros Hentry Hrun Hst Hbody.
  rewrite commit_string, Hentry. apply commit_entry_throw.
  rewrite forEach_app.
  rewrite (bind_run _ _ _ _ _ _
             (handlers_run_loop payload (state s) before_ tr root1 Hrun
                (set_committing true s) eq_refl eq_refl)).
  simpl. unfold bind. rewrite wrappedMutationHandler_run. simpl.
  by rewrite Hst, Hbody.
Qed.

Lemma commit_is_not_rolled_back_witness :
  let w1 := {| wm_handler := increment 1; wm_local := makeLocalContext "" [] |} in
  let w2 := {| wm_handler := increment 2; wm_local := makeLocalContext "" ["a"] |} in
  let s := set_state (VObj [("count", VNum 0); ("a", VNum 7)]) fresh_store in
  _mutations s !! "increment" = Some ([w1] ++ w2 :: []) /\
  (commit true (VStr "increment") (VNum 1) VUndef s).1.1
    = Exc (Thrown (VStr "not a number")) /\
  state (commit true (VStr "increment") (VNum 1) VUndef s).1.2
    = VObj [("count", VNum 1); ("a", VNum 7)].
Proof.
  intros w1 w2 s.
  assert (H1 : _mutations s !! "increment" = Some ([w1] ++ w2 :: []))
    by (vm_compute; reflexivity).
  assert (H2 : handlers_run (VNum 1) (state s) [w1]
                 [EMutation 1 (VObj [("count", VNum 0); ("a", VNum 7)]) (VNum 1) true]
                 (VObj [("count", VNum 1); ("a", VNum 7)])).
  { eapply (handlers_run_cons (VNum 1) (state s) w1 []
              (VObj [("count", VNum 0); ("a", VNum 7)])
              (VObj [("count", VNum 1); ("a", VNum 7)])); [reflexivity | reflexivity |].
    vm_compute. constructor. }
  assert (H3 : getNestedState (VObj [("count", VNum 1); ("a", VNum 7)])
                 (lc_path (wm_local w2)) = inr (VNum 7)) by reflexivity.
  assert (H4 : mf_body (wm_handler w2) (VNum 7) (VNum 1)
                 = HThrow (VNum 7) (VStr "not a number")) by reflexivity.
  pose proof (commit_is_not_rolled_back true "increment" (VNum 1) VUndef s
                [w1] [] w2 _ _ _ _ _ H1 H2 H3 H4) as Heq.
  split_and!; [exact H1 | by rewrite Heq | rewrite Heq; vm_compute; reflexivity].
Defined.

(** The notification loop over subscribers that do not throw. *)
Lemma subscribers_loop_quiet m subs s :
  (forall sub, sub ∈ subs -> se_throw (sub_fn sub m (state s)) = None) ->
  exists s',
    forEach subs (call_subscriber m) s
      = (Ret tt, s', map (subscriber_event m (state s)) subs) /\
    s' = set_subscribers (_subscribers s') s.
Proof.
  intros Hquiet. pose proof (subscribers_loop_returns m subs s Hquiet) as Hret.
  destruct (forEach subs (call_subscriber m) s) as [[r s'] tr] eqn:Hloop.
  simpl in Hret. subst r.
  destruct (subscribers_loop m subs s _ _ _ Hloop) as (called & _ & Htr & Hall & Hs').
  exists s'. rewrite Htr, (Hall eq_refl). by split.
Qed.

(** X17. An exception thrown by a commit subscriber is not caught by
    [commit]: it reaches the caller.  The mutation stays applied, the
    committing flag is back to its value, the subscribers before the
    thrower have been notified, and those after it are not notified. *)
Theorem commit_subscriber_throw_propagates (dev : bool) (t : string)
    (payload options : value) (s s0 : Store) (entry : list wrappedMutation)
    (tr0 : list event) (before_ after_ : list subscriber) (sub : subscriber) (v : value) :
  let m := (VStr t, payload) in
  let r := commit dev (VStr t) payload options s in
  _mutations s !! t = Some entry ->
  forEach entry (fun handler => wrappedMutationHandler handler payload)
    (set_committing true s) = (Ret tt, s0, tr0) ->
  _subscribers s = before_ ++ sub :: after_ ->
  (forall x, x ∈ before_ -> se_throw (sub_fn x m (state s0)) = None) ->
  se_throw (sub_fn sub m (state s0)) = Some v ->
  r.1.1 = Exc (Thrown v) /\
  r.2 = tr0 ++ map (subscriber_event m (state s0)) (before_ ++ [sub]) /\
  state r.1.2 = state s0 /\
  _committing r.1.2 = _committing s.
Proof.
  intros m r Hentry Hloop Hsubs Hquiet Hthrow. unfold r.
  rewrite commit_string, Hentry, (commit_entry_run _ _ _ _ _ _ _ _ Hloop). simpl.
  destruct (handlers_loop payload entry (set_committing true s) s0 tr0 eq_refl Hloop)
    as [_ Hs0].
  assert (Hsubs0 : _subscribers s0 = before_ ++ sub :: after_) by (by rewrite Hs0).
  rewrite Hsubs0, forEach_app.
  set (s0' := set_committing (_committing s) s0).
  destruct (subscribers_loop_quiet m before_ s0' Hquiet) as (s1 & Hpre & Hs1).
  rewrite (bind_run _ _ _ _ _ _ Hpre). simpl. unfold bind.
  rewrite call_subscriber_run.
  assert (Hst1 : state s1 = state s0) by (by rewrite Hs1).
  rewrite Hst1. fold m. rewrite Hthrow. simpl.
  split_and!; [done | | done |].
  - by rewrite map_app.
  - by rewrite Hs1.
Qed.

Lemma commit_subscriber_throw_propagates_witness :
  let s := set_subscribers [watcher 1; faulty 2; watcher 3] fresh_store in
  let loop := forEach increment_entry
                (fun handler => wrappedMutationHandler handler (VNum 1))
                (set_committing true s) in
  _mutations s !! "increment" = Some increment_entry /\
  loop.1.1 = Ret tt /\
  _subscribers s = [watcher 1] ++ faulty 2 :: [watcher 3] /\
  (commit true (VStr "increment") (VNum 1) VUndef s).2 =
    loop.2 ++ map (subscriber_event (VStr "increment", VNum 1) (state loop.1.2))
                ([watcher 1] ++ [faulty 2]).
Proof.
  intros s loop.
  assert (H1 : _mutations s !! "increment" = Some increment_entry)
    by (vm_compute; reflexivity).
  assert (H2 : loop = (Ret tt, loop.1.2, loop.2)) by (vm_compute; reflexivity).
  assert (H3 : _subscribers s = [watcher 1] ++ faulty 2 :: [watcher 3]) by reflexivity.
  assert (H4 : forall x, x ∈ [watcher 1] ->
                 se_throw (sub_fn x (VStr "increment", VNum 1) (state loop.1.2)) = None).
  { intros x Hx. apply list_elem_of_singleton in Hx. by subst x. }
  assert (H5 : se_throw (sub_fn (faulty 2) (VStr "increment", VNum 1) (state loop.1.2))
                 = Some (VStr "boom")) by reflexivity.
  split_and!; [exact H1 | by rewrite H2 | exact H3 |].
  exact (proj1 (proj2 (commit_subscriber_throw_propagates true "increment" (VNum 1) VUndef
                         s loop.1.2 increment_entry loop.2 [watcher 1] [watcher 3]
                         (faulty 2) (VStr "boom") H1 H2 H3 H4 H5))).
Defined.

Lemma wrappedActionHandler_throw w payload s e :
  (exists st, getNestedState (state s) (lc_path (wa_local w)) = inr st) ->
  af_body (wa_handler w) (context_of (state s) w) payload = AThrow e ->
  wrappedActionHandler w payload s
    = (Exc (Thrown e), s, [action_event (state s) payload w]).
Proof.
  intros [st Hst] Hbody.
  unfold wrappedActionHandler, local_state, bind, gets, lift, log. simpl.
  unfold action_event, context_of, local_of in *. rewrite Hst in *. simpl.
  by rewrite Hbody.
Qed.

Lemma mapM_throw payload w after_ e : forall before_ ps s,
  Forall2 (handler_returns (state s) payload) before_ ps ->
  (exists st, getNestedState (state s) (lc_path (wa_local w)) = inr st) ->
  af_body (wa_handler w) (context_of (state s) w) payload = AThrow e ->
  mapM (before_ ++ w :: after_) (fun handler => wrappedActionHandler handler payload) s
    = (Exc (Thrown e), s, map (action_event (state s) payload) (before_ ++ [w])).
Proof.
  induction before_ as [|w0 rest IH]; intros ps s Hall Hst Hbody.
  - simpl. unfold bind. by rewrite (wrappedActionHandler_throw _ _ _ _ Hst Hbody).
  - apply Forall2_cons_inv_l in Hall as (p & ps' & Hp & Hps & ->).
    simpl. unfold bind at 1. rewrite (wrappedActionHandler_run _ _ _ _ Hp).
    unfold bind. by rewrite (IH _ _ Hps Hst Hbody).
Qed.

Lemma dispatch_entry_throw dev a before_ w after_ ps e s :
  Forall2 (handler_returns (state s) a.2) before_ ps ->
  (exists st, getNestedState (state s) (lc_path (wa_local w)) = inr st) ->
  af_body (wa_handler w) (context_of (state s) w) a.2 = AThrow e ->
  dispatch_entry dev a (before_ ++ w :: after_) s =
    (Exc (Thrown e),
     (notify_before dev a s).1.2,
     (notify_before dev a s).2 ++ map (action_event (state s) a.2) (before_ ++ [w])).
Proof.
  intros Hall Hst Hbody. unfold dispatch_entry, bind at 1.
  pose proof (notify_before_returns dev a s) as Hret.
  pose proof (notify_before_frame dev a s) as Hframe.
  destruct (notify_before dev a s) as [[[[]|x] s1] tr1]; simpl in *; [|done].
  assert (Hs1 : state s1 = state s) by (by rewrite Hframe).
  rewrite <- Hs1 in Hall, Hst, Hbody |- *.
  unfold bind at 1.
  destruct (1 <? length (before_ ++ w :: after_))%nat eqn:Hlen.
  - unfold bind at 1. by rewrite (mapM_throw _ _ _ _ _ _ _ Hall Hst Hbody).
  - destruct before_ as [|w0 rest]; simpl in *.
    + by rewrite (wrappedActionHandler_throw _ _ _ _ Hst Hbody).
    + rewrite length_app in Hlen. simpl in Hlen.
      apply Nat.ltb_ge in Hlen. lia.
Qed.

(** X18. An action handler that throws before it returns makes
    [dispatch] itself throw: the caller gets the exception, not a
    rejected promise.  The before subscribers have been notified by then,
    the handlers registered before the thrower have been called, those
    after it are not, and neither the after nor the error subscribers are
    notified. *)
Theorem dispatch_handler_throw_propagates (dev : bool) (t : string) (payload : value)
    (s : Store) (before_ after_ : list wrappedAction) (w : wrappedAction)
    (ps : list promise) (e : value) :
  let a := (VStr t, payload) in
  let r := dispatch dev (VStr t) payload s in
  _actions s !! t = Some (before_ ++ w :: after_) ->
  Forall2 (handler_returns (state s) payload) before_ ps ->
  (exists st, getNestedState (state s) (lc_path (wa_local w)) = inr st) ->
  af_body (wa_handler w) (context_of (state s) w) payload = AThrow e ->
  r.1.1 = Exc (Thrown e) /\
  r.1.2 = (notify_before dev a s).1.2 /\
  r.2 = (notify_before dev a s).2
          ++ map (action_event (state s) payload) (before_ ++ [w]).
Proof.
  intros a r Hentry Hall Hst Hbody. unfold r.
  rewrite (dispatch_resolved dev (VStr t) payload t s eq_refl), Hentry.
  change (call_payload (VStr t) payload) with payload. fold a.
  by rewrite (dispatch_entry_throw dev a before_ w after_ ps e s Hall Hst Hbody).
Qed.

Lemma dispatch_handler_throw_propagates_witness :
  let w1 := {| wa_handler := returns_payload 1; wa_local := makeLocalContext "" [] |} in
  let w2 := {| wa_handler := throws_now 2 (VStr "boom");
               wa_local := makeLocalContext "" [] |} in
  let w3 := {| wa_handler := returns_payload 3; wa_local := makeLocalContext "" [] |} in
  _actions throwing_store !! "load" = Some ([w1] ++ w2 :: [w3]) /\
  Forall2 (handler_returns (state throwing_store) (VNum 5)) [w1] [Fulfilled 0 (VNum 5)] /\
  (dispatch true (VStr "load") (VNum 5) throwing_store).1.1 = Exc (Thrown (VStr "boom")) /\
  (dispatch true (VStr "load") (VNum 5) throwing_store).2
    = (notify_before true (VStr "load", VNum 5) throwing_store).2
        ++ map (action_event (state throwing_store) (VNum 5)) ([w1] ++ [w2]).
Proof.
  intros w1 w2 w3.
  assert (H1 : _actions throwing_store !! "load" = Some ([w1] ++ w2 :: [w3]))
    by (vm_compute; reflexivity).
  assert (H2 : Forall2 (handler_returns (state throwing_store) (VNum 5)) [w1]
                 [Fulfilled 0 (VNum 5)]).
  { repeat constructor. by eexists. }
  assert (H3 : exists st,
             getNestedState (state throwing_store) (lc_path (wa_local w2)) = inr st)
    by (by eexists).
  assert (H4 : af_body (wa_handler w2) (context_of (state throwing_store) w2) (VNum 5)
                 = AThrow (VStr "boom")) by reflexivity.
  pose proof (dispatch_handler_throw_propagates true "load" (VNum 5) throwing_store
                [w1] [w3] w2 [Fulfilled 0 (VNum 5)] (VStr "boom") H1 H2 H3 H4)
    as (Hr & _ & Htr).
  split_and!; [exact H1 | exact H2 | exact Hr | exact Htr].
Defined.

Lemma bind_trace_head {A B} (m : M A) (k : A -> M B) s ev tr :
  (m s).2 = ev :: tr -> exists tr', (bind m k s).2 = ev :: tr'.
Proof.
  unfold bind. destruct (m s) as [[[a|e] s1] tr1]; simpl; intros ->; [|by eexists].
  destruct (k a s1) as [[r2 s2] tr2]. simpl. by eexists.
Qed.

(** X19. The handlers of a commit read their module's state from the tree
    the store holds when the commit runs: after [replaceState(v)] the
    first handler of a commit is called with the slice of [v] at its
    module's path, the flag being up.  When that path cannot be walked in
    [v], the commit throws the [TypeError] of the property access before
    any handler is called, changes nothing else, and leaves [_committing]
    true. *)
Theorem replaceState_then_commit (dev : bool) (v : value) (t : string)
    (payload options : value) (s : Store) (w : wrappedMutation)
    (rest : list wrappedMutation) :
  let s1 := (replaceState v s).1.2 in
  _mutations s !! t = Some (w :: rest) ->
  match getNestedState v (lc_path (wm_local w)) with
  | inr st =>
      exists tr,
        (commit dev (VStr t) payload options s1).2
          = EMutation (mf_id (wm_handler w)) st payload true :: tr
  | inl err =>
      commit dev (VStr t) payload options s1 = (Exc err, set_committing true s1, [])
  end.
Proof.
  intros s1 Hentry.
  assert (Hentry1 : _mutations s1 !! t = Some (w :: rest)) by exact Hentry.
  rewrite commit_string, Hentry1.
  pose proof (wrappedMutationHandler_run w payload (set_committing true s1)) as Hw.
  change (state (set_committing true s1)) with v in Hw.
  destruct (getNestedState v (lc_path (wm_local w))) as [err|st].
  - apply commit_entry_throw. simpl. unfold bind. by rewrite Hw.
  - assert (Hloop : exists tr,
              (_withCommit (forEach (w :: rest)
                 (fun handler => wrappedMutationHandler handler payload)) s1).2
              = EMutation (mf_id (wm_handler w)) st payload true :: tr).
    { rewrite withCommit_run. simpl. unfold bind. rewrite Hw. simpl.
      destruct (mf_body (wm_handler w) st payload) as [st'|st' e]; simpl;
        [|by eexists].
      destruct (forEach rest _ _) as [[[[]|e] s2] tr2]; by eexists. }
    destruct Hloop as [tr Hloop]. unfold commit_entry.
    by apply bind_trace_head with (tr := tr).
Qed.

Lemma replaceState_then_commit_witness :
  _mutations fresh_store !! "increment" = Some increment_entry /\
  exists tr,
    (commit true (VStr "increment") (VNum 1) VUndef
       (replaceState (VObj [("count", VNum 40)]) fresh_store).1.2).2
      = EMutation 1 (VObj [("count", VNum 40)]) (VNum 1) true :: tr.
Proof.
  assert (H : _mutations fresh_store !! "increment" = Some increment_entry)
    by (vm_compute; reflexivity).
  split; [exact H|].
  exact (replaceState_then_commit true (VObj [("count", VNum 40)]) "increment" (VNum 1)
           VUndef fresh_store _ _ H).
Defined.

(** ** Local getters *)

Lemma slice_append namespace k :
  slice_to (String.length namespace) (namespace +:+ k) = namespace /\
  slice_from (String.length namespace) (namespace +:+ k) = k.
Proof.
  induction namespace as [|c rest [IH1 IH2]]; simpl.
  - split; [by destruct k | done].
  - by rewrite IH1, IH2.
Qed.

Lemma slice_split n : forall s, slice_to n s +:+ slice_from n s = s.
Proof.
  induction n as [|n IH]; intros [|c rest]; simpl; try done.
  change (String c (slice_to n rest +:+ slice_from n rest) = String c rest).
  by rewrite IH.
Qed.

Lemma slice_matches namespace type :
  slice_to (String.length namespace) type = namespace ->
  type = namespace +:+ slice_from (String.length namespace) type.
Proof.
  intros H. rewrite <- (slice_split (String.length namespace) type) at 1.
  by rewrite H.
Qed.

Lemma assoc_app_None {A} key (l1 l2 : list (string * A)) :
  assoc key l1 = None -> assoc key (l1 ++ l2) = assoc key l2.
Proof.
  induction l1 as [|[k v] rest IH]; simpl; [done|].
  destruct (String.eqb k key); [done | exact IH].
Qed.

Lemma assoc_None {A} key (l : list (string * A)) :
  assoc key l = None <-> key ∉ map fst l.
Proof.
  induction l as [|[k v] rest IH]; simpl.
  - split; [intros _ H; by apply elem_of_nil in H | done].
  - destruct (String.eqb k key) eqn:E.
    + apply String.eqb_eq in E. subst k. split; [done|].
      intros H. exfalso. apply H, list_elem_of_here.
    + apply String.eqb_neq in E. rewrite IH. split.
      * intros H Hin. apply elem_of_cons in Hin as [->|Hin]; [done | by apply H].
      * intros H Hin. apply H. by apply list_elem_of_further.
Qed.

Lemma defineLocalGetters_run namespace : forall types proxy,
  NoDup (map fst (proxy ++ local_properties namespace types)) ->
  defineLocalGetters namespace types proxy
    = inr (proxy ++ local_properties namespace types).
Proof.
  induction types as [|type rest IH]; intros proxy Hnd.
  - simpl. by rewrite app_nil_r.
  - unfold local_properties in *. simpl.
    destruct (decide (slice_to (String.length namespace) type = namespace)) as [Hm|Hm].
    + rewrite bool_decide_eq_true_2 by done.
      rewrite filter_cons_True in Hnd |- * by done. simpl in Hnd |- *.
      assert (Hfree : assoc (slice_from (String.length namespace) type) proxy = None).
      { apply assoc_None. rewrite map_app in Hnd. simpl in Hnd.
        apply NoDup_app in Hnd as (_ & Hdisj & _). intros Hin.
        apply (Hdisj _ Hin). apply list_elem_of_here. }
      rewrite Hfree, IH.
      * by rewrite <- app_assoc.
      * by rewrite <- app_assoc.
    + rewrite bool_decide_eq_false_2 by done.
      rewrite filter_cons_False in Hnd |- * by done. by apply IH.
Qed.

Lemma local_properties_NoDup namespace types :
  NoDup types -> NoDup (map fst (local_properties namespace types)).
Proof.
  intros Hnd. unfold local_properties. rewrite map_map. simpl.
  apply NoDup_fmap_2_strong.
  - intros x y Hx Hy Heq.
    apply list_elem_of_filter in Hx as [Hx _]. apply list_elem_of_filter in Hy as [Hy _].
    rewrite (slice_matches _ _ Hx), (slice_matches _ _ Hy). by rewrite Heq.
  - by apply NoDup_filter.
Qed.

Lemma local_properties_lookup namespace types k :
  NoDup types ->
  assoc k (local_properties namespace types)
    = if bool_decide (namespace +:+ k ∈ types) then Some (namespace +:+ k) else None.
Proof.
  intros Hnd. destruct (slice_append namespace k) as [Hto Hfrom].
  destruct (decide (namespace +:+ k ∈ types)) as [Hin|Hin].
  - rewrite bool_decide_eq_true_2 by done.
    apply assoc_NoDup; [by apply local_properties_NoDup|].
    unfold local_properties. apply list_elem_of_fmap. exists (namespace +:+ k).
    rewrite Hfrom. split; [done|]. by apply list_elem_of_filter.
  - rewrite bool_decide_eq_false_2 by done.
    destruct (assoc k (local_properties namespace types)) as [t|] eqn:E; [|done].
    exfalso. apply Hin. apply assoc_elem in E. unfold local_properties in E.
    apply list_elem_of_fmap in E as (type & Heq & Htype).
    injection Heq as -> ->. apply list_elem_of_filter in Htype as [Hm Htype].
    by rewrite <- (slice_matches _ _ Hm).
Qed.

(** X20. With the keys of [store.getters] distinct, as the keys of an
    object are, [makeLocalGetters] never throws: no property of the proxy
    is defined twice.  The proxy it builds and caches has, for each
    getter type that starts with the namespace, one property named by the
    rest of the type, which reads that getter, and has no other property:
    the local name [k] resolves to the getter [namespace + k] when there
    is one and is absent otherwise.  Once cached, the proxy is returned
    as it is, whatever the getters have become. *)
Theorem makeLocalGetters_resolves (getters getters' : list string) (namespace : string)
    (cache : gmap string gettersProxy) :
  NoDup getters ->
  cache !! namespace = None ->
  exists proxy,
    makeLocalGetters getters namespace cache
      = inr (proxy, <[namespace := proxy]> cache) /\
    (forall k,
        assoc k proxy =
          if bool_decide (namespace +:+ k ∈ getters)
          then Some (namespace +:+ k) else None) /\
    makeLocalGetters getters' namespace (<[namespace := proxy]> cache)
      = inr (proxy, <[namespace := proxy]> cache).
Proof.
  intros Hnd Hcache. exists (local_properties namespace getters).
  unfold makeLocalGetters. rewrite Hcache, lookup_insert_eq.
  rewrite defineLocalGetters_run by (by apply local_properties_NoDup).
  split_and!; [done | | done].
  intros k. by apply local_properties_lookup.
Qed.

Lemma makeLocalGetters_resolves_witness :
  NoDup ["total"; "a/total"; "a/b/n"; "b/n"] /\
  (∅ : gmap string gettersProxy) !! "a/" = None /\
  exists proxy,
    makeLocalGetters ["total"; "a/total"; "a/b/n"; "b/n"] "a/" ∅
      = inr (proxy, <["a/" := proxy]> ∅) /\
    assoc "total" proxy = Some "a/total" /\
    assoc "n" proxy = None.
Proof.
  assert (H1 : NoDup ["total"; "a/total"; "a/b/n"; "b/n"]).
  { repeat constructor; intros Hin;
      repeat (apply elem_of_cons in Hin as [Hin|Hin]; [discriminate|]);
      by apply elem_of_nil in Hin. }
  assert (H2 : (∅ : gmap string gettersProxy) !! "a/" = None) by apply lookup_empty.
  split_and!; [exact H1 | exact H2 |].
  destruct (makeLocalGetters_resolves ["total"; "a/total"; "a/b/n"; "b/n"] [] "a/" ∅ H1 H2)
    as (proxy & Hrun & Hk & _).
  exists proxy. split_and!; [exact Hrun | |].
  - rewrite Hk. vm_compute. reflexivity.
  - rewrite Hk. vm_compute. reflexivity.
Defined.

(** ** The mixin *)

(** X21. Store injection: a component that has a [store] option gets
    that store as [$store] (the result of calling it when it is a
    function); a component without one gets the [$store] of its parent.
    So every created component sees the store of the nearest component
    above it, itself included, that was given one, and has no [$store]
    when there is none; the hook changes nothing else of the
    component. *)
Theorem vuexInit_injects_nearest_store {store_ref : Type} (c : component store_ref) :
  created c ->
  store_ c = nearest_store c /\
  (forall (o : option (store_option store_ref)) p,
      vuexInit (mkComponent o p None)
        = mkComponent o p (store_ (vuexInit (mkComponent o p None)))).
Proof.
  intros Hc. split.
  - induction Hc as [o|o parent Hparent IH].
    + by destruct o as [[st|f]|].
    + destruct o as [[st|f]|]; simpl; try done.
      unfold vuexInit. simpl.
      destruct (store_ parent) eqn:E; simpl; by rewrite <- IH.
  - intros o p. unfold vuexInit. simpl.
    destruct o as [[st|f]|]; [done | done |].
    destruct p as [parent|]; [|done]. by destruct (store_ parent).
Qed.

Lemma vuexInit_injects_nearest_store_witness :
  let root := vuexInit (mkComponent (Some (StoreObject 7%nat)) None None) in
  let child := vuexInit (mkComponent None (Some root) None) in
  let leaf := vuexInit (mkComponent None (Some child) None) in
  created leaf /\ store_ leaf = Some 7%nat.
Proof.
  intros root child leaf.
  assert (H : created leaf) by (repeat constructor).
  split; [exact H|].
  exact (proj1 (vuexInit_injects_nearest_store leaf H)).
Defined.

(** ** The state tree the constructor builds *)

Lemma graft_all_cons key child rest acc :
  graft_all ((key, child) :: rest) (VObj acc)
    = graft_all rest (VObj (Obj.set key (installed_state child) acc)).
Proof. done. Qed.

(** A key that no child has keeps its value. *)
Lemma graft_all_other k : forall children fields,
  k ∉ map fst children ->
  exists fields',
    graft_all children (VObj fields) = VObj fields' /\
    Obj.get k fields' = Obj.get k fields.
Proof.
  induction children as [|[k0 c0] rest IH]; intros fields Hnot.
  - by exists fields.
  - simpl in Hnot. apply not_elem_of_cons in Hnot as [Hne Hnot].
    rewrite graft_all_cons.
    destruct (IH (Obj.set k0 (installed_state c0) fields) Hnot) as (fields' & -> & Hget).
    exists fields'. split; [done|]. rewrite Hget. apply Obj_get_set_ne. congruence.
Qed.

(** The key of a child holds the child's state object. *)
Lemma graft_all_lookup k c : forall children fields,
  NoDup (map fst children) ->
  assoc k children = Some c ->
  exists fields',
    graft_all children (VObj fields) = VObj fields' /\
    Obj.get k fields' = Some (installed_state c).
Proof.
  induction children as [|[k0 c0] rest IH]; intros fields Hnd Hc; [done|].
  simpl in Hnd, Hc. apply NoDup_cons in Hnd as [Hk0 Hnd]. rewrite graft_all_cons.
  destruct (String.eqb k0 k) eqn:E.
  - apply String.eqb_eq in E. subst k0. injection Hc as ->.
    destruct (graft_all_other k rest (Obj.set k (installed_state c) fields) Hk0)
      as (fields' & -> & Hget).
    exists fields'. split; [done|]. by rewrite Hget, Obj_get_set_eq.
  - by apply IH.
Qed.

(** In the state object of an installed module, the state object of each
    module below it is found at that module's path. *)
Lemma installed_state_at : forall path root m,
  object_states root -> unique_keys root ->
  module_at root path = Some m ->
  getNestedState (installed_state root) path = inr (installed_state m).
Proof.
  induction path as [|k rest IH]; intros root m Hobj Huniq Hat.
  - simpl in Hat. by injection Hat as ->.
  - destruct root as [r children raw st].
    apply object_states_children in Hobj as [[fields ->] Hobj].
    apply unique_keys_children in Huniq as [Hnd Huniq].
    simpl in Hat. unfold getChild in Hat. simpl in Hat.
    destruct (assoc k children) as [c|] eqn:Hc; [|done].
    rewrite installed_state_eq.
    destruct (graft_all_lookup k c children fields Hnd Hc) as (fields' & -> & Hget).
    change (getNestedState (VObj fields') (k :: rest))
      with (getNestedState (own_prop (VObj fields') k) rest).
    unfold own_prop. rewrite Hget. simpl.
    apply assoc_elem in Hc. rewrite Forall_forall in Hobj, Huniq.
    apply IH; [apply (Hobj _ Hc) | apply (Huniq _ Hc) | done].
Qed.

(** The walk over the root module. *)
Lemma root_walk dev root s :
  object_states root ->
  state s = mstate root ->
  exists s' tr,
    installModule dev [] root false s = (Ret tt, s', tr) /\
    state s' = installed_state root /\
    _committing s' = _committing s /\
    guarded tr.
Proof.
  intros Hobj Hstate. destruct root as [r children raw st].
  apply object_states_children in Hobj as [[fields ->] Hobj].
  set (m := mkModule r children raw (VObj fields)) in *.
  set (ns := EmptyString).
  assert (Hstep1 : exists s1 tr1,
    registerNamespace dev ns [] m s = (Ret tt, s1, tr1) /\
    state s1 = state s /\ _committing s1 = _committing s /\ console_only tr1).
  { rewrite registerNamespace_run.
    destruct (namespaced m); do 2 eexists; split_and!; eauto; [|constructor].
    unfold duplicate_namespace_report. destruct (_ && _); repeat constructor. }
  destruct Hstep1 as (s1 & tr1 & Hrun1 & Hst1 & Hc1 & Htr1).
  pose proof (setModuleState_skip dev [] m false s1 (or_introl eq_refl)) as Hrun2.
  destruct (registers_registerHandlers dev ns (makeLocalContext ns []) m s1)
    as (Hr3 & (Hst3 & _ & _ & Hc3 & _) & Htr3).
  destruct (registerHandlers dev ns _ m s1) as [[r3 s3] tr3] eqn:Hrun3;
    simpl in Hr3, Hst3, Hc3, Htr3. subst r3.
  assert (Hpath3 : getNestedState (state s3) [] = inr (VObj fields)).
  { simpl. by rewrite Hst3, Hst1, Hstate. }
  assert (Hgrafts : Forall (fun kc => grafts dev kc.2) children).
  { apply Forall_forall. intros kc _. apply grafts_all. }
  destruct (grafts_children dev [] children Hgrafts Hobj s3 fields Hpath3)
    as (s4 & tr4 & Hrun4 & Hst4 & Hc4 & Hg4).
  exists s4, (tr1 ++ tr3 ++ tr4). split_and!.
  - rewrite installModule_eq.
    unfold bind at 1, gets at 1. simpl. fold m. fold ns.
    unfold bind at 1. rewrite Hrun1.
    unfold bind at 1. rewrite Hrun2.
    unfold bind at 1. rewrite Hrun3.
    change (_children m) with children.
    change (fun kc : string * Module_ => installModule dev [kc.1] kc.2 false)
      with (fun kc : string * Module_ => installModule dev ([] ++ [kc.1]) kc.2 false).
    rewrite Hrun4. reflexivity.
  - rewrite Hst4. unfold m. rewrite installed_state_eq. reflexivity.
  - congruence.
  - apply guarded_app; [by apply console_only_guarded|].
    apply guarded_app; [by apply console_only_guarded | done].
Qed.

(** X22. The constructor's install walk over a module tree whose states
    are plain objects and whose children have distinct keys returns, with
    every write made under the committing flag and the flag down again
    at the end; in the state tree it builds, the state of each module is
    found at the module's path, so [local.state] of every module is
    defined, and below that state sit the states of the module's own
    children. *)
Theorem constructor_builds_state_tree (dev strict_ : bool) (root : Module_)
    (path : list string) (m : Module_) :
  object_states root ->
  unique_keys root ->
  module_at root path = Some m ->
  (new_Store dev root strict_).1.1 = Ret tt /\
  state (new_Store dev root strict_).1.2 = installed_state root /\
  getNestedState (state (new_Store dev root strict_).1.2) path
    = inr (installed_state m) /\
  (forall key child,
      getChild m key = Some child ->
      getNestedState (state (new_Store dev root strict_).1.2) (path ++ [key])
        = inr (installed_state child)) /\
  _committing (new_Store dev root strict_).1.2 = false /\
  guarded (new_Store dev root strict_).2.
Proof.
  intros Hobj Huniq Hat. unfold new_Store.
  destruct (root_walk dev root (blank root strict_) Hobj eq_refl)
    as (s' & tr & Hrun & Hst & Hc & Hg).
  rewrite Hrun. simpl. rewrite Hst.
  split_and!; [done | done | by apply installed_state_at | | done | done].
  intros key child Hchild. apply installed_state_at; [done | done |].
  by apply (module_at_child root path m).
Qed.

Lemma constructor_builds_state_tree_witness :
  object_states root_module /\
  unique_keys root_module /\
  module_at root_module ["a"; "b"] = Some (namespaced_leaf 1) /\
  getNestedState (state fresh_store) ["a"; "b"] = inr (VObj [("n", VNum 1)]).
Proof.
  assert (H1 : object_states root_module).
  { simpl. split_and!; try exact I; by eexists. }
  assert (H2 : unique_keys root_module).
  { simpl. split_and!; try exact I; repeat constructor; intros Hin;
      repeat (apply elem_of_cons in Hin as [Hin|Hin]; [discriminate|]);
      by apply elem_of_nil in Hin. }
  assert (H3 : module_at root_module ["a"; "b"] = Some (namespaced_leaf 1))
    by reflexivity.
  split_and!; [exact H1 | exact H2 | exact H3 |].
  exact (proj1 (proj2 (proj2 (constructor_builds_state_tree true false root_module
                                ["a"; "b"] (namespaced_leaf 1) H1 H2 H3)))).
Defined.
